(** * SPACEINFRA index weighting: a shallow embedding of
      [research/weighting_algorithm.py]

    The engine is the class [SpaceIndexWeighting]: its constructor, the two
    normalizers, [calculate_weights] and [summary_stats].

    Numbers.  The program computes on IEEE doubles held in pandas Series.
    A double is modelled as an extended real [fl]: a finite value carries a
    real number, and the two infinities and NaN are explicit constructors,
    because they are what division by zero produces and what the pandas
    reductions skip.  Arithmetic on finite values is exact: rounding and the
    sign of zero are not modelled.  A result that exact arithmetic gives as
    an equality of a sum or a quotient, and that rounding disturbs in the
    last digits, is therefore stated with a tolerance (1e-6, the tolerance
    of the documentation) or with closed bounds, not as that equality.

    Tables.  The callers pass the result of a [merge], which carries a
    RangeIndex, so a column is a [list fl] and the label [idx] of [iterrows]
    and [.loc] is the position in the list.  The row fields are real numbers,
    as the data model has them; NaN and the infinities arise only inside the
    computation. *)

From Stdlib Require Import String Ascii ZArith Reals Lra Lia Bool Arith List.
From Stdlib Require Import OrderedTypeEx.
From Stdlib Require Import Sorting.Sorted Sorting.Permutation.
Import ListNotations.

Local Open Scope R_scope.

(** ** Floating values *)

Module Float.

Inductive fl : Type :=
| Fin (x : R)
| Inf (neg : bool)
| NaN.

Definition Rltb (x y : R) : bool := if Rlt_dec x y then true else false.
Definition Rleb (x y : R) : bool := if Rle_dec x y then true else false.
Definition Reqb (x y : R) : bool := if Req_dec_T x y then true else false.

Definition isna (a : fl) : bool :=
  match a with NaN => true | _ => false end.

Definition fopp (a : fl) : fl :=
  match a with
  | Fin x => Fin (- x)
  | Inf s => Inf (negb s)
  | NaN => NaN
  end.

Definition fadd (a b : fl) : fl :=
  match a, b with
  | NaN, _ | _, NaN => NaN
  | Fin x, Fin y => Fin (x + y)
  | Fin _, Inf s | Inf s, Fin _ => Inf s
  | Inf s, Inf t => if Bool.eqb s t then Inf s else NaN
  end.

Definition fsub (a b : fl) : fl := fadd a (fopp b).

Definition fmul (a b : fl) : fl :=
  match a, b with
  | NaN, _ | _, NaN => NaN
  | Fin x, Fin y => Fin (x * y)
  | Fin x, Inf s | Inf s, Fin x =>
      if Reqb x 0 then NaN else Inf (xorb s (Rltb x 0))
  | Inf s, Inf t => Inf (xorb s t)
  end.

(** Division as numpy performs it: a finite non-zero value over zero is an
    infinity, zero over zero is NaN, nothing raises. *)
Definition fdiv (a b : fl) : fl :=
  match a, b with
  | NaN, _ | _, NaN => NaN
  | Fin x, Fin y =>
      if Reqb y 0
      then (if Reqb x 0 then NaN else Inf (Rltb x 0))
      else Fin (x / y)
  | Fin _, Inf _ => Fin 0
  | Inf s, Fin y => Inf (xorb s (Rltb y 0))
  | Inf _, Inf _ => NaN
  end.

(** Comparisons: every comparison with NaN is false. *)
Definition feqb (a b : fl) : bool :=
  match a, b with
  | Fin x, Fin y => Reqb x y
  | Inf s, Inf t => Bool.eqb s t
  | _, _ => false
  end.

Definition fltb (a b : fl) : bool :=
  match a, b with
  | NaN, _ | _, NaN => false
  | Fin x, Fin y => Rltb x y
  | Fin _, Inf s => negb s
  | Inf s, Fin _ => s
  | Inf s, Inf t => s && negb t
  end.

Definition fleb (a b : fl) : bool :=
  match a, b with
  | NaN, _ | _, NaN => false
  | Fin x, Fin y => Rleb x y
  | Fin _, Inf s => negb s
  | Inf s, Fin _ => s
  | Inf s, Inf t => s || negb t
  end.

(** [np.log10]: NaN on negative arguments, minus infinity at zero. *)
Definition log10 (a : fl) : fl :=
  match a with
  | NaN => NaN
  | Fin x =>
      if Rltb 0 x then Fin (ln x / ln 10)
      else if Reqb x 0 then Inf true else NaN
  | Inf s => if s then NaN else Inf false
  end.

End Float.
Import Float.

(** ** pandas Series *)

Module Series.

Definition series := list fl.

(** [pd.Series(v, index=s.index)] *)
Definition full (v : fl) (s : series) : series := repeat v (length s).

(** [s.replace(0, np.nan)] *)
Definition replace0 (s : series) : series :=
  map (fun a => if feqb a (Fin 0) then NaN else a) s.

(** [s.fillna(0)] *)
Definition fillna0 (s : series) : series :=
  map (fun a => if isna a then Fin 0 else a) s.

Definition dropna (s : series) : series :=
  filter (fun a => negb (isna a)) s.

(** [s.min()], [s.max()] and [s.sum()] skip NaN ([skipna=True]); the minimum
    and maximum of a Series without any value are NaN, its sum is 0. *)
Definition min (s : series) : fl :=
  match dropna s with
  | [] => NaN
  | a :: t => fold_left (fun m b => if fltb b m then b else m) t a
  end.

Definition max (s : series) : fl :=
  match dropna s with
  | [] => NaN
  | a :: t => fold_left (fun m b => if fltb m b then b else m) t a
  end.

Definition sum (s : series) : fl :=
  fold_left fadd (dropna s) (Fin 0).

(** [s.clip(lower, upper)] with two scalar bounds: pandas first orders the
    bounds ([lower, upper = min(lower, upper), max(lower, upper)]), then
    replaces by a bound every value that is neither NaN nor on the right
    side of it. *)
Definition clip1 (lower upper : R) (a : fl) : fl :=
  let lo := Rmin lower upper in
  let hi := Rmax lower upper in
  let r := if isna a || fleb (Fin lo) a then a else Fin lo in
  if isna a || fleb a (Fin hi) then r else Fin hi.

Definition clip (lower upper : R) (s : series) : series :=
  map (clip1 lower upper) s.

(** Element-wise arithmetic of two Series on the same index, and of a Series
    with a scalar. *)
Fixpoint zip_with (f : fl -> fl -> fl) (s t : series) : series :=
  match s, t with
  | a :: s', b :: t' => f a b :: zip_with f s' t'
  | _, _ => []
  end.

Definition add (s t : series) : series := zip_with fadd s t.
Definition sub_scalar (s : series) (v : fl) : series := map (fun a => fsub a v) s.
Definition mul_scalar (s : series) (v : fl) : series := map (fun a => fmul a v) s.
Definition div_scalar (s : series) (v : fl) : series := map (fun a => fdiv a v) s.

(** [s.loc[idx]] on a RangeIndex. *)
Definition loc (s : series) (idx : nat) : fl := nth idx s NaN.

End Series.

(** ** Python built-ins used by the engine *)

Module Py.

(** [sum(xs)]: left to right from 0; NaN is not skipped. *)
Definition sum (xs : list fl) : fl := fold_left fadd xs (Fin 0).

(** [max(xs)] and [min(xs)] on a non-empty sequence keep the first element
    until a later one compares strictly greater (smaller). *)
Definition max (x : fl) (xs : list fl) : fl :=
  fold_left (fun m b => if fltb m b then b else m) xs x.

Definition min (x : fl) (xs : list fl) : fl :=
  fold_left (fun m b => if fltb b m then b else m) xs x.

(** [l.sort(key=key, reverse=True)]: a stable sort into descending key order
    that compares keys with [<] only.  Elements are placed from the last to
    the first; each one goes in front of every element whose key is not
    strictly greater, so elements with equal keys keep their order.

    This is the result of [list.sort] whenever [<] orders the keys
    consistently, that is when no key is NaN or every key is (all
    comparisons are then false and the list stays as it is).  With NaN among
    numbers the order that [list.sort] produces depends on which comparisons
    its algorithm happens to make; that case is not modelled, and the
    statements about the order of a sorted list are for keys without NaN. *)
Section Sort.
Context {A : Type} (key : A -> fl).

Fixpoint insert_desc (x : A) (l : list A) : list A :=
  match l with
  | [] => [x]
  | y :: l' =>
      if fltb (key x) (key y) then y :: insert_desc x l' else x :: y :: l'
  end.

Definition sort_reverse (l : list A) : list A :=
  fold_right insert_desc [] l.
End Sort.

(** A [dict] with string keys, in insertion order, holding an [int] or a
    [float]. *)
Inductive value : Type :=
| VInt (n : nat)
| VFloat (a : fl).

Definition dict := list (string * value).

Inductive exn : Type :=
| ValueError (total : R)
| ZeroDivisionError.

Inductive result (A : Type) : Type :=
| Return (a : A)
| Raise (e : exn).
Arguments Return {A} a.
Arguments Raise {A} e.

End Py.

(** [np.isclose(a, b)] on finite values, with numpy's default tolerances
    [rtol=1e-05] and [atol=1e-08]: [|a - b| <= atol + rtol * |b|]. *)
Definition rtol : R := 1 / 100000.
Definition atol : R := 1 / 100000000.

Definition isclose (a b : R) : bool :=
  Rleb (Rabs (a - b)) (atol + rtol * Rabs b).

(** ** The program *)

(** A cell of a text column: a string, or NaN where the table has no value
    for the row. *)
Inductive text : Type :=
| Str (s : string)
| Missing.

(** One row of the [companies] DataFrame.  The columns [name] and [segments]
    are optional: [None] stands for a table without the column, where
    [row.get(..., '')] gives the default; in a table that has the column,
    [row.get] returns the cell as it is, a string or NaN. *)
Record company : Type := mkCompany {
  row_ticker : string;
  row_name : option text;
  row_market_cap : R;
  row_space_revenue_pct : R;
  row_revenue_growth_rate : R;
  row_segments : option text
}.

Definition DataFrame := list company.

Record IndexConstituent : Type := mkIndexConstituent {
  ticker : string;
  name : text;
  market_cap : fl;
  space_revenue_pct : fl;
  revenue_growth_rate : fl;
  raw_score : fl;
  weight : fl;
  segments : text
}.

Record SpaceIndexWeighting : Type := mkSpaceIndexWeighting {
  w_space_rev : R;
  w_market_cap : R;
  w_growth : R;
  max_weight : R;
  min_weight : R
}.

(** [SpaceIndexWeighting.__init__] *)
Definition init (space_revenue_weight market_cap_weight growth_weight
                 max_position_size min_position_size : R)
  : Py.result SpaceIndexWeighting :=
  let total := space_revenue_weight + market_cap_weight + growth_weight in
  if negb (isclose total 1) then Py.Raise (Py.ValueError total)
  else Py.Return {| w_space_rev := space_revenue_weight;
                    w_market_cap := market_cap_weight;
                    w_growth := growth_weight;
                    max_weight := max_position_size;
                    min_weight := min_position_size |}.

(** The defaults of the constructor's last two arguments. *)
Definition default_max_position_size : R := 15 / 100.
Definition default_min_position_size : R := 1 / 100.

Definition normalize_market_cap (market_caps : Series.series) : Series.series :=
  let log_caps := map log10 (Series.replace0 market_caps) in
  let min_val := Series.min log_caps in
  let max_val := Series.max log_caps in
  if feqb max_val min_val then Series.full (Fin 50) market_caps
  else
    let normalized :=
      Series.mul_scalar
        (Series.div_scalar (Series.sub_scalar log_caps min_val)
                           (fsub max_val min_val))
        (Fin 100) in
    Series.fillna0 normalized.

Definition normalize_growth (growth_rates : Series.series) : Series.series :=
  let clipped := Series.clip (-50) 200 growth_rates in
  let min_val := Series.min clipped in
  let max_val := Series.max clipped in
  if feqb max_val min_val then Series.full (Fin 50) growth_rates
  else
    Series.mul_scalar
      (Series.div_scalar (Series.sub_scalar clipped min_val)
                         (fsub max_val min_val))
      (Fin 100).

(** A column of the DataFrame. *)
Definition column (f : company -> R) (df : DataFrame) : Series.series :=
  map (fun row => Fin (f row)) df.

Section CalculateWeights.
Variable self : SpaceIndexWeighting.

(** Lines 128-138: the three normalized factors and their blend. *)
Definition raw_scores (df : DataFrame) : Series.series :=
  let norm_space_rev := column row_space_revenue_pct df in
  let norm_market_cap := normalize_market_cap (column row_market_cap df) in
  let norm_growth := normalize_growth (column row_revenue_growth_rate df) in
  Series.add
    (Series.add
       (Series.mul_scalar norm_space_rev (Fin (w_space_rev self)))
       (Series.mul_scalar norm_market_cap (Fin (w_market_cap self))))
    (Series.mul_scalar norm_growth (Fin (w_growth self))).

(** Lines 140-147: scores to weights, clip, renormalize. *)
Definition final_weights (raw : Series.series) : Series.series :=
  let weights := Series.div_scalar raw (Series.sum raw) in
  let weights := Series.clip (min_weight self) (max_weight self) weights in
  Series.div_scalar weights (Series.sum weights).

(** Lines 150-162: one constituent per row, in row order. *)
Definition iterrows (df : DataFrame) : list (nat * company) :=
  combine (seq 0 (length df)) df.

Definition get (o : option text) (default : text) : text :=
  match o with Some s => s | None => default end.

Definition constituent_of (raw weights : Series.series)
           (ir : nat * company) : IndexConstituent :=
  let (idx, row) := ir in
  {| ticker := row_ticker row;
     name := get (row_name row) (Str EmptyString);
     market_cap := Fin (row_market_cap row);
     space_revenue_pct := Fin (row_space_revenue_pct row);
     revenue_growth_rate := Fin (row_revenue_growth_rate row);
     raw_score := Series.loc raw idx;
     weight := Series.loc weights idx;
     segments := get (row_segments row) (Str EmptyString) |}.

Definition build_constituents (df : DataFrame) : list IndexConstituent :=
  let raw := raw_scores df in
  let weights := final_weights raw in
  map (constituent_of raw weights) (iterrows df).

Definition calculate_weights (companies : DataFrame) : list IndexConstituent :=
  match companies with
  | [] => []
  | _ :: _ =>
      let df := companies in
      let constituents := build_constituents df in
      Py.sort_reverse weight constituents
  end.

Definition summary_stats (constituents : list IndexConstituent) : Py.dict :=
  match constituents with
  | [] => []
  | c0 :: rest =>
      let total_market_cap :=
        Py.sum (map (fun c => fmul (market_cap c) (weight c)) constituents) in
      let avg_space_rev :=
        Py.sum (map (fun c => fmul (space_revenue_pct c) (weight c)) constituents) in
      let avg_growth :=
        Py.sum (map (fun c => fmul (revenue_growth_rate c) (weight c)) constituents) in
      [ ("num_constituents"%string, Py.VInt (length constituents));
        ("total_weight"%string, Py.VFloat (Py.sum (map weight constituents)));
        ("weighted_avg_market_cap"%string, Py.VFloat total_market_cap);
        ("weighted_avg_space_rev_pct"%string, Py.VFloat avg_space_rev);
        ("weighted_avg_growth"%string, Py.VFloat avg_growth);
        ("max_weight"%string, Py.VFloat (Py.max (weight c0) (map weight rest)));
        ("min_weight"%string, Py.VFloat (Py.min (weight c0) (map weight rest))) ]
  end.
End CalculateWeights.

(** ** The weighting as the documentation states it

    Real-number reading of the four documented steps (blend, unconstrained
    weight, clip to the position bounds, renormalize).  It is compared with
    the pandas code above; only the last division is kept as a float
    division, since the documentation does not exclude a zero divisor. *)

Definition to_real (a : fl) : R :=
  match a with Fin x => x | _ => 0 end.

Definition Rsum (xs : list R) : R := fold_right Rplus 0 xs.

Fixpoint blend (we wc wg : R) (es cs gs : list R) : list R :=
  match es, cs, gs with
  | e :: es', c :: cs', g :: gs' =>
      (e * we + c * wc + g * wg) :: blend we wc wg es' cs' gs'
  | _, _, _ => []
  end.

Definition spec_scores (self : SpaceIndexWeighting) (df : DataFrame) : list R :=
  blend (w_space_rev self) (w_market_cap self) (w_growth self)
        (map row_space_revenue_pct df)
        (map to_real (normalize_market_cap (column row_market_cap df)))
        (map to_real (normalize_growth (column row_revenue_growth_rate df))).

Definition spec_clip (min_w max_w x : R) : R :=
  if Rlt_dec x min_w then min_w
  else if Rlt_dec max_w x then max_w
  else x.

Definition spec_weights (self : SpaceIndexWeighting) (scores : list R) : list fl :=
  let unconstrained := map (fun s => s / Rsum scores) scores in
  let clipped := map (spec_clip (min_weight self) (max_weight self)) unconstrained in
  map (fun c => fdiv (Fin c) (Fin (Rsum clipped))) clipped.

Fixpoint spec_constituents_of (df : DataFrame) (scores : list R) (ws : list fl)
  : list IndexConstituent :=
  match df, scores, ws with
  | row :: df', s :: scores', w :: ws' =>
      {| ticker := row_ticker row;
         name := get (row_name row) (Str EmptyString);
         market_cap := Fin (row_market_cap row);
         space_revenue_pct := Fin (row_space_revenue_pct row);
         revenue_growth_rate := Fin (row_revenue_growth_rate row);
         raw_score := Fin s;
         weight := w;
         segments := get (row_segments row) (Str EmptyString) |}
      :: spec_constituents_of df' scores' ws'
  | _, _, _ => []
  end.

Definition spec_constituents (self : SpaceIndexWeighting) (df : DataFrame)
  : list IndexConstituent :=
  let scores := spec_scores self df in
  spec_constituents_of df scores (spec_weights self scores).

(** The growth factor as the documentation states it: each rate is clipped
    to the band from -50 to 200; the clipped rates are then rescaled between
    their smallest and their largest value onto 0-100, or every candidate
    gets 50 when the clipped rates are all the same. *)
Definition clip_band (g : R) : R :=
  if Rlt_dec g (-50) then -50 else if Rlt_dec 200 g then 200 else g.

Definition spec_normalize_growth (gs : list R) : list R :=
  match map clip_band gs with
  | [] => []
  | c :: cs =>
      let mn := fold_left Rmin cs c in
      let mx := fold_left Rmax cs c in
      if Req_dec_T mx mn then map (fun _ => 50) (c :: cs)
      else map (fun x => (x - mn) / (mx - mn) * 100) (c :: cs)
  end.

(** ** The callers: growth rates and position bounds

    [expand_universe.py] and [retry_failed_tickers.py] derive each
    candidate's growth rate from the annual financial periods returned by the
    market-data client, and [retry_failed_tickers.py] chooses the position
    bounds from the number of candidates.  A period is reduced to the two
    values the scripts read from it: [financials.income_statement.revenues.value]
    and [fiscal_year], each possibly absent. *)

Record period : Type := mkPeriod {
  revenues_value : option R;
  fiscal_year : option string
}.

(** Truth value of a number or of a string that may be [None]. *)
Definition truthy_number (x : option R) : bool :=
  match x with Some v => negb (Reqb v 0) | None => false end.

Definition truthy_str (x : option string) : bool :=
  match x with Some y => negb (String.eqb y EmptyString) | None => false end.

(** The list [revenues] of [{'year': ..., 'revenue': ...}] entries. *)
Definition collect_revenues (financials : list period) : list (string * R) :=
  flat_map
    (fun p =>
       if truthy_number (revenues_value p) && truthy_str (fiscal_year p)
       then match fiscal_year p, revenues_value p with
            | Some y, Some r => [(y, r)]
            | _, _ => []
            end
       else [])
    financials.

(** [sorted(revenues, key=lambda x: x['year'])]: stable, ascending. *)
Fixpoint insert_by_year (x : string * R) (l : list (string * R))
  : list (string * R) :=
  match l with
  | [] => [x]
  | y :: l' =>
      if String.ltb (fst y) (fst x) then y :: insert_by_year x l'
      else x :: y :: l'
  end.

Definition sorted_by_year (l : list (string * R)) : list (string * R) :=
  fold_right insert_by_year [] l.

(** The entry [a] is not after the entry [b]. *)
Definition year_le (a b : string * R) : Prop :=
  String.ltb (fst b) (fst a) = false.

(** [l[-k]] for [1 <= k <= len(l)]. *)
Definition from_end (l : list (string * R)) (k : nat) : string * R :=
  nth (length l - k) l (EmptyString, 0).

(** The growth rate recorded for a candidate whose financial periods are
    [financials] (the branches of the [try] body; the [except] branch records
    the same 20.0). *)
Definition revenue_growth_rate_of (financials : list period) : R :=
  if negb (Nat.eqb (length financials) 0) && (2 <=? length financials)%nat then
    let revenues := sorted_by_year (collect_revenues financials) in
    if (2 <=? length revenues)%nat then
      let latest := snd (from_end revenues 1) in
      let previous := snd (from_end revenues 2) in
      if negb (Reqb previous 0) then ((latest - previous) / previous) * 100
      else 0
    else 20
  else 20.

(** [retry_failed_tickers.py], lines 260-279: the position bounds chosen from
    the number of candidates, as [(max_position, min_position)], and the
    weighting built from them. *)
Definition position_bounds (num_companies : nat) : R * R :=
  if (25 <=? num_companies)%nat then (8 / 100, 1 / 100)
  else if (15 <=? num_companies)%nat then (10 / 100, 1 / 100)
  else (12 / 100, 1 / 100).

Definition retry_weighting (num_companies : nat) : Py.result SpaceIndexWeighting :=
  let (max_position, min_position) := position_bounds num_companies in
  init (4 / 10) (3 / 10) (3 / 10) max_position min_position.

(** ** The classifier: locating the JSON object in a response

    [ai_classifier.py], [_parse_response], lines 152-154:
    [start_idx = response_text.find('{')],
    [end_idx = response_text.rfind('}') + 1],
    [json_str = response_text[start_idx:end_idx]]. *)

(** [s.find(c)] and [s.rfind(c)] for a one-character [c]: the first and the
    last position of [c], or -1. *)
Fixpoint str_find (c : ascii) (s : string) : Z :=
  match s with
  | EmptyString => (-1)%Z
  | String a s' =>
      if Ascii.eqb a c then 0%Z
      else let r := str_find c s' in
           if (r <? 0)%Z then (-1)%Z else (r + 1)%Z
  end.

Fixpoint str_rfind (c : ascii) (s : string) : Z :=
  match s with
  | EmptyString => (-1)%Z
  | String a s' =>
      let r := str_rfind c s' in
      if (0 <=? r)%Z then (r + 1)%Z
      else if Ascii.eqb a c then 0%Z else (-1)%Z
  end.

(** A slice index brought into [0, len]: a negative index counts from the
    end. *)
Definition slice_index (len i : Z) : Z :=
  if (i <? 0)%Z then Z.max (i + len) 0 else Z.min i len.

(** [s[start:stop]] *)
Definition str_slice (s : string) (start stop : Z) : string :=
  let len := Z.of_nat (String.length s) in
  let a := slice_index len start in
  let b := slice_index len stop in
  if (a <? b)%Z then substring (Z.to_nat a) (Z.to_nat (b - a)) s
  else EmptyString.

Definition json_str (response_text : string) : string :=
  let start_idx := str_find "{" response_text in
  let end_idx := (str_rfind "}" response_text + 1)%Z in
  str_slice response_text start_idx end_idx.

(** ** The backtest: index returns and drawdown

    [backtest.py] reads back the composition that [build_index.py] wrote
    from the result of [calculate_weights], weights the daily returns of the
    constituents with it (lines 77-84) and measures the drawdown of a return
    series (lines 131-134 of [calculate_metrics]).  The composition is
    reduced to its [ticker] and [weight] columns, and a day of the price
    table to the list of its closing prices, one per column. *)

(** [weights.get(col, 0)] on
    [weights = df_index.set_index('ticker')['weight'].to_dict()]: the weight
    of the last row of the composition whose ticker is [col], or 0. *)
Definition weights_get (df_index : list (string * fl)) (col : string) : fl :=
  fold_left (fun acc row => if String.eqb (fst row) col then snd row else acc)
            df_index (Fin 0).

Definition weight_array (df_index : list (string * fl)) (columns : list string)
  : Series.series :=
  map (weights_get df_index) columns.

(** One row of [df_prices.pct_change()] after the first: every column holds
    [price / previous price - 1]. *)
Definition pct_change_row (previous current : list R) : Series.series :=
  Series.zip_with (fun cur prev => fsub (fdiv cur prev) (Fin 1))
                  (map Fin current) (map Fin previous).

(** One row of [(returns * weight_array).sum(axis=1)]. *)
Definition index_return (returns_row weights : Series.series) : fl :=
  Series.sum (Series.zip_with fmul returns_row weights).

(** [s.cumprod()]: a NaN is skipped and its position stays NaN. *)
Fixpoint cumprod_from (acc : fl) (s : Series.series) : Series.series :=
  match s with
  | [] => []
  | a :: s' =>
      if isna a then NaN :: cumprod_from acc s'
      else fmul acc a :: cumprod_from (fmul acc a) s'
  end.

Definition cumprod (s : Series.series) : Series.series :=
  cumprod_from (Fin 1) s.

(** [s.expanding().max()]: the largest value seen so far, NaN as long as no
    value has been seen. *)
Fixpoint expanding_max_from (acc : fl) (s : Series.series) : Series.series :=
  match s with
  | [] => []
  | a :: s' =>
      let acc' :=
        if isna a then acc
        else if isna acc then a
        else if fltb acc a then a else acc in
      acc' :: expanding_max_from acc' s'
  end.

Definition expanding_max (s : Series.series) : Series.series :=
  expanding_max_from NaN s.

(** Lines 131-134 of [calculate_metrics]. *)
Definition max_drawdown (returns : Series.series) : fl :=
  let cumulative := cumprod (map (fadd (Fin 1)) returns) in
  let running_max := expanding_max cumulative in
  let drawdown :=
    Series.zip_with (fun c m => fdiv (fsub c m) m) cumulative running_max in
  Series.min drawdown.

(** [calculate_metrics(returns)['max_drawdown']].  Before the drawdown is
    computed, line 126 divides by [len(returns)], two Python integers: an
    empty series raises [ZeroDivisionError].  The other operations of lines
    125-128 are numpy's and pandas' and do not raise.  The entry is the
    drawdown in percent (line 142). *)
Definition calculate_metrics_max_drawdown (returns : Series.series)
  : Py.result fl :=
  match returns with
  | [] => Py.Raise Py.ZeroDivisionError
  | _ :: _ => Py.Return (fmul (max_drawdown returns) (Fin 100))
  end.

(** ** Vocabulary of the statements *)

(** The clipping of [Series.clip] on a finite value. *)
Definition clipR (lower upper x : R) : R :=
  let lo := Rmin lower upper in
  let hi := Rmax lower upper in
  if Rle_dec x hi then (if Rle_dec lo x then x else lo) else hi.

Definition finite (s : Series.series) : Prop :=
  Forall (fun a => exists x, a = Fin x) s.

(** The room left for rounding around an interval [lo, hi]: a millionth of
    the larger bound in magnitude. *)
Definition slack (lo hi : R) : R := Rmax (Rabs lo) (Rabs hi) / 1000000.

(** A daily return that is missing or above -100 %. *)
Definition plausible_return (a : fl) : Prop :=
  a = NaN \/ exists r, a = Fin r /\ -1 < r.

(** A value that is a number or NaN, never an infinity. *)
Definition fin_or_nan (a : fl) : Prop :=
  match a with Inf _ => False | _ => True end.

(** [a] is a number within [tol] of [target]. *)
Definition within (tol target : R) (a : fl) : Prop :=
  match a with
  | Fin x => Rabs (x - target) <= tol
  | _ => False
  end.

(** Descending order by key, as [>=] on floats, and its instance on the
    weight of constituents. *)
Definition key_ge {A : Type} (key : A -> fl) (c d : A) : Prop :=
  fleb (key d) (key c) = true.

Definition weight_ge : IndexConstituent -> IndexConstituent -> Prop :=
  key_ge weight.

Definition has_weight (w : fl) (c : IndexConstituent) : bool :=
  feqb (weight c) w.

(** A constituent carries the identifying fields of a row. *)
Definition built_from (row : company) (c : IndexConstituent) : Prop :=
  ticker c = row_ticker row /\
  name c = get (row_name row) (Str EmptyString) /\
  market_cap c = Fin (row_market_cap row) /\
  space_revenue_pct c = Fin (row_space_revenue_pct row) /\
  revenue_growth_rate c = Fin (row_revenue_growth_rate row) /\
  segments c = get (row_segments row) (Str EmptyString).

(** The decimal logarithm of a positive real, as [Float.log10] has it. *)
Definition Rlog10 (x : R) : R := ln x / ln 10.

(** [m] is the least (greatest) element of [xs]. *)
Definition least (m : R) (xs : list R) : Prop :=
  In m xs /\ forall x, In x xs -> m <= x.

Definition greatest (m : R) (xs : list R) : Prop :=
  In m xs /\ forall x, In x xs -> x <= m.

(** The market capitalizations that are known: the strictly positive ones. *)
Definition known_caps (caps : list R) : list R := filter (Rltb 0) caps.

(** [d[k]] on a dict: the value stored under [k], [None] standing for
    [KeyError]. *)
Fixpoint getitem (d : Py.dict) (k : string) : option Py.value :=
  match d with
  | [] => None
  | (k', v) :: d' => if String.eqb k' k then Some v else getitem d' k
  end.

(** The sum of the raw scores is a strictly positive number. *)
Definition positive_total (self : SpaceIndexWeighting) (df : DataFrame) : Prop :=
  match Series.sum (raw_scores self df) with
  | Fin total => 0 < total
  | _ => False
  end.

(** ** Sample data

    The configuration and the first rows of the module's [main], and the
    degenerate inputs used below. *)

Definition default_config : SpaceIndexWeighting :=
  {| w_space_rev := 4 / 10; w_market_cap := 3 / 10; w_growth := 3 / 10;
     max_weight := default_max_position_size;
     min_weight := default_min_position_size |}.

(** [SpaceIndexWeighting(0.4, 0.3, 0.3, max_position_size=0.6, min_position_size=0.1)] *)
Definition wide_config : SpaceIndexWeighting :=
  {| w_space_rev := 4 / 10; w_market_cap := 3 / 10; w_growth := 3 / 10;
     max_weight := 6 / 10; min_weight := 1 / 10 |}.

(** [SpaceIndexWeighting(0.4, 0.3, 0.3, max_position_size=0, min_position_size=0)] *)
Definition zero_bounds_config : SpaceIndexWeighting :=
  {| w_space_rev := 4 / 10; w_market_cap := 3 / 10; w_growth := 3 / 10;
     max_weight := 0; min_weight := 0 |}.

(** [SpaceIndexWeighting(1.0, 0.0, 0.0)] *)
Definition exposure_only_config : SpaceIndexWeighting :=
  {| w_space_rev := 1; w_market_cap := 0; w_growth := 0;
     max_weight := default_max_position_size;
     min_weight := default_min_position_size |}.

Definition ASTS : company :=
  {| row_ticker := "ASTS"; row_name := Some (Str "AST SpaceMobile");
     row_market_cap := 19200000000; row_space_revenue_pct := 90;
     row_revenue_growth_rate := 120;
     row_segments := Some (Str "Satellites, Ground") |}.

Definition RKLB : company :=
  {| row_ticker := "RKLB"; row_name := Some (Str "Rocket Lab");
     row_market_cap := 25000000000; row_space_revenue_pct := 80;
     row_revenue_growth_rate := 50;
     row_segments := Some (Str "Launch, Satellites") |}.

(** A company of the size and growth of [ASTS] with a lower exposure. *)
Definition PEER : company :=
  {| row_ticker := "PEER"; row_name := Some (Str "Peer");
     row_market_cap := 19200000000; row_space_revenue_pct := 80;
     row_revenue_growth_rate := 120;
     row_segments := Some (Str "Satellites") |}.

(** Two annual periods as the market-data client returns them, latest
    first, and a period without a revenue figure. *)
Definition period_2023 : period :=
  {| revenues_value := Some 120; fiscal_year := Some "2023"%string |}.

Definition period_2022 : period :=
  {| revenues_value := Some 100; fiscal_year := Some "2022"%string |}.

Definition period_no_revenue : period :=
  {| revenues_value := None; fiscal_year := Some "2021"%string |}.

(** A company with no space revenue. *)
Definition no_exposure : company :=
  {| row_ticker := "NONE"; row_name := None;
     row_market_cap := 1000000000; row_space_revenue_pct := 0;
     row_revenue_growth_rate := 10; row_segments := None |}.

(** A company of the same size and growth whose revenue is all from space. *)
Definition pure_play : company :=
  {| row_ticker := "PURE"; row_name := None;
     row_market_cap := 1000000000; row_space_revenue_pct := 100;
     row_revenue_growth_rate := 10; row_segments := None |}.

(** A second company with no space revenue, of the same size and growth. *)
Definition idle : company :=
  {| row_ticker := "IDLE"; row_name := None;
     row_market_cap := 1000000000; row_space_revenue_pct := 0;
     row_revenue_growth_rate := 10; row_segments := None |}.

(** A company whose market capitalization is unknown (zero). *)
Definition unknown_cap : company :=
  {| row_ticker := "UNKN"; row_name := None;
     row_market_cap := 0; row_space_revenue_pct := 50;
     row_revenue_growth_rate := 10; row_segments := None |}.

(** ** Decisions on reals *)

Lemma Reqb_true (x y : R) : Reqb x y = true <-> x = y.
Proof. unfold Reqb; destruct (Req_dec_T x y); split; congruence. Qed.

Lemma Reqb_false (x y : R) : Reqb x y = false <-> x <> y.
Proof. unfold Reqb; destruct (Req_dec_T x y); split; congruence. Qed.

Lemma Rltb_true (x y : R) : Rltb x y = true <-> x < y.
Proof. unfold Rltb; destruct (Rlt_dec x y); split; (congruence || tauto). Qed.

Lemma Rltb_false (x y : R) : Rltb x y = false <-> y <= x.
Proof. unfold Rltb; destruct (Rlt_dec x y); split; intros; (congruence || lra). Qed.

Lemma Rleb_true (x y : R) : Rleb x y = true <-> x <= y.
Proof. unfold Rleb; destruct (Rle_dec x y); split; (congruence || tauto). Qed.

Lemma Rleb_false (x y : R) : Rleb x y = false <-> y < x.
Proof. unfold Rleb; destruct (Rle_dec x y); split; intros; (congruence || lra). Qed.

Lemma Reqb_refl (x : R) : Reqb x x = true.
Proof. now apply Reqb_true. Qed.

(** Absolute values of closed expressions. *)
Ltac rabs := unfold Rabs; destruct (Rcase_abs _); lra.

(** ** Series of finite values *)

Lemma finite_map_Fin (xs : list R) : finite (map Fin xs).
Proof.
  induction xs as [|x xs IH]; constructor; eauto.
Qed.

Lemma finite_to_real (s : Series.series) :
  finite s -> s = map Fin (map to_real s).
Proof.
  induction 1 as [|a s [x ->] _ IH]; cbn; congruence.
Qed.

Lemma to_real_Fin (xs : list R) : map to_real (map Fin xs) = xs.
Proof.
  induction xs as [|x xs IH]; cbn; congruence.
Qed.

Lemma dropna_Fin (xs : list R) : Series.dropna (map Fin xs) = map Fin xs.
Proof.
  unfold Series.dropna; induction xs as [|x xs IH]; cbn; congruence.
Qed.

Lemma fold_fadd_Fin (xs : list R) (a : R) :
  fold_left fadd (map Fin xs) (Fin a) = Fin (a + Rsum xs).
Proof.
  revert a; induction xs as [|x xs IH]; intros a; cbn.
  - f_equal; unfold Rsum; cbn; lra.
  - rewrite IH; f_equal; unfold Rsum; cbn; lra.
Qed.

Lemma series_sum_Fin (xs : list R) : Series.sum (map Fin xs) = Fin (Rsum xs).
Proof.
  unfold Series.sum. rewrite dropna_Fin, fold_fadd_Fin. f_equal; lra.
Qed.

Lemma py_sum_Fin (xs : list R) : Py.sum (map Fin xs) = Fin (Rsum xs).
Proof.
  unfold Py.sum. rewrite fold_fadd_Fin. f_equal; lra.
Qed.

Lemma clip1_Fin (lower upper x : R) :
  Series.clip1 lower upper (Fin x) = Fin (clipR lower upper x).
Proof.
  unfold Series.clip1, clipR; cbn.
  unfold Rleb.
  destruct (Rle_dec x (Rmax lower upper)), (Rle_dec (Rmin lower upper) x);
    reflexivity.
Qed.

Lemma clip_Fin (lower upper : R) (xs : list R) :
  Series.clip lower upper (map Fin xs) = map Fin (map (clipR lower upper) xs).
Proof.
  unfold Series.clip. rewrite !map_map.
  apply map_ext; intros; apply clip1_Fin.
Qed.

Lemma clipR_bounds (lower upper x : R) :
  Rmin lower upper <= clipR lower upper x <= Rmax lower upper.
Proof.
  unfold clipR.
  pose proof (Rmin_l lower upper). pose proof (Rmax_l lower upper).
  destruct (Rle_dec x (Rmax lower upper)), (Rle_dec (Rmin lower upper) x); lra.
Qed.

Lemma clipR_spec_clip (min_w max_w x : R) :
  min_w <= max_w -> clipR min_w max_w x = spec_clip min_w max_w x.
Proof.
  intros H. unfold clipR, spec_clip.
  rewrite (Rmin_left _ _ H), (Rmax_right _ _ H).
  destruct (Rle_dec x max_w), (Rle_dec min_w x), (Rlt_dec x min_w),
    (Rlt_dec max_w x); lra.
Qed.

Lemma div_scalar_Fin (xs : list R) (d : R) :
  Series.div_scalar (map Fin xs) (Fin d)
  = map (fun x => fdiv (Fin x) (Fin d)) xs.
Proof.
  unfold Series.div_scalar. now rewrite map_map.
Qed.

Lemma div_scalar_Fin_nz (xs : list R) (d : R) :
  d <> 0 ->
  Series.div_scalar (map Fin xs) (Fin d) = map Fin (map (fun x => x / d) xs).
Proof.
  intros Hd. rewrite div_scalar_Fin, map_map.
  apply map_ext; intros x; cbn.
  apply Reqb_false in Hd. now rewrite Hd.
Qed.

Lemma mul_scalar_Fin (xs : list R) (w : R) :
  Series.mul_scalar (map Fin xs) (Fin w) = map Fin (map (fun x => x * w) xs).
Proof.
  unfold Series.mul_scalar. now rewrite !map_map.
Qed.

Lemma fold_min_Fin (xs : list R) (a : R) :
  fold_left (fun m b => if fltb b m then b else m) (map Fin xs) (Fin a)
  = Fin (fold_left Rmin xs a).
Proof.
  revert a; induction xs as [|x xs IH]; intros a; cbn; [reflexivity|].
  replace (if Rltb x a then Fin x else Fin a) with (Fin (Rmin a x)).
  - apply IH.
  - unfold Rmin, Rltb. destruct (Rle_dec a x), (Rlt_dec x a); try reflexivity; lra.
Qed.

Lemma fold_max_Fin (xs : list R) (a : R) :
  fold_left (fun m b => if fltb m b then b else m) (map Fin xs) (Fin a)
  = Fin (fold_left Rmax xs a).
Proof.
  revert a; induction xs as [|x xs IH]; intros a; cbn; [reflexivity|].
  replace (if Rltb a x then Fin x else Fin a) with (Fin (Rmax a x)).
  - apply IH.
  - unfold Rmax, Rltb. destruct (Rle_dec a x), (Rlt_dec a x); try reflexivity.
    + f_equal; lra.
    + lra.
Qed.

Lemma series_min_Fin (x : R) (xs : list R) :
  Series.min (map Fin (x :: xs)) = Fin (fold_left Rmin xs x).
Proof.
  unfold Series.min. rewrite dropna_Fin. cbn. apply fold_min_Fin.
Qed.

Lemma series_max_Fin (x : R) (xs : list R) :
  Series.max (map Fin (x :: xs)) = Fin (fold_left Rmax xs x).
Proof.
  unfold Series.max. rewrite dropna_Fin. cbn. apply fold_max_Fin.
Qed.

Lemma fold_Rmin_const (xs : list R) (a : R) :
  (forall x, In x xs -> x = a) -> fold_left Rmin xs a = a.
Proof.
  induction xs as [|x xs IH]; intros H; cbn; [reflexivity|].
  rewrite (H x (or_introl eq_refl)).
  rewrite Rmin_left by lra. apply IH. intros y Hy; apply H; now right.
Qed.

Lemma fold_Rmax_const (xs : list R) (a : R) :
  (forall x, In x xs -> x = a) -> fold_left Rmax xs a = a.
Proof.
  induction xs as [|x xs IH]; intros H; cbn; [reflexivity|].
  rewrite (H x (or_introl eq_refl)).
  rewrite Rmax_left by lra. apply IH. intros y Hy; apply H; now right.
Qed.

Lemma fold_min_fin_or_nan (s : Series.series) (a : fl) :
  fin_or_nan a -> Forall fin_or_nan s ->
  fin_or_nan (fold_left (fun m b => if fltb b m then b else m) s a).
Proof.
  intros Ha Hs; revert a Ha.
  induction Hs as [|b s Hb _ IH]; intros a Ha; cbn; [exact Ha|].
  apply IH. now destruct (fltb b a).
Qed.

Lemma fold_max_fin_or_nan (s : Series.series) (a : fl) :
  fin_or_nan a -> Forall fin_or_nan s ->
  fin_or_nan (fold_left (fun m b => if fltb m b then b else m) s a).
Proof.
  intros Ha Hs; revert a Ha.
  induction Hs as [|b s Hb _ IH]; intros a Ha; cbn; [exact Ha|].
  apply IH. now destruct (fltb a b).
Qed.

Lemma dropna_fin_or_nan (s : Series.series) :
  Forall fin_or_nan s -> Forall fin_or_nan (Series.dropna s).
Proof.
  intros H. unfold Series.dropna.
  apply Forall_forall; intros a Ha. apply filter_In in Ha as [Ha _].
  revert a Ha. now apply Forall_forall.
Qed.

Lemma series_min_fin_or_nan (s : Series.series) :
  Forall fin_or_nan s -> fin_or_nan (Series.min s).
Proof.
  intros H%dropna_fin_or_nan. unfold Series.min.
  destruct (Series.dropna s) as [|a t]; [exact I|].
  inversion H; subst. now apply fold_min_fin_or_nan.
Qed.

Lemma series_max_fin_or_nan (s : Series.series) :
  Forall fin_or_nan s -> fin_or_nan (Series.max s).
Proof.
  intros H%dropna_fin_or_nan. unfold Series.max.
  destruct (Series.dropna s) as [|a t]; [exact I|].
  inversion H; subst. now apply fold_max_fin_or_nan.
Qed.

(** The min-max rescaling of one value never leaves the numbers and NaN,
    provided the two extremes differ. *)
Lemma rescale_fin_or_nan (a mn mx : fl) :
  fin_or_nan a -> fin_or_nan mn -> fin_or_nan mx -> feqb mx mn = false ->
  fin_or_nan (fmul (fdiv (fsub a mn) (fsub mx mn)) (Fin 100)).
Proof.
  destruct a as [x| |], mn as [y| |], mx as [z| |]; cbn; try tauto.
  intros _ _ _ Hne. apply Reqb_false in Hne.
  assert (Hd : Reqb (z + - y) 0 = false) by (apply Reqb_false; lra).
  rewrite Hd. exact I.
Qed.

Lemma fillna0_finite (s : Series.series) :
  Forall fin_or_nan s -> finite (Series.fillna0 s).
Proof.
  intros H. unfold Series.fillna0, finite.
  apply Forall_map. eapply Forall_impl; [|exact H].
  intros [x| |]; cbn; try tauto; eauto.
Qed.

Lemma log_caps_fin_or_nan (caps : list R) :
  Forall fin_or_nan (map log10 (Series.replace0 (map Fin caps))).
Proof.
  unfold Series.replace0. rewrite !map_map.
  apply Forall_map, Forall_forall. intros x _. cbn.
  destruct (Reqb x 0) eqn:E; cbn; [exact I|].
  destruct (Rltb 0 x); cbn; [exact I|]. rewrite E. exact I.
Qed.

(** ** The normalizers on real columns *)

Lemma normalize_market_cap_length (s : Series.series) :
  length (normalize_market_cap s) = length s.
Proof.
  unfold normalize_market_cap.
  destruct (feqb _ _).
  - unfold Series.full. apply repeat_length.
  - unfold Series.fillna0, Series.mul_scalar, Series.div_scalar,
      Series.sub_scalar, Series.replace0.
    now rewrite !length_map.
Qed.

Lemma normalize_growth_length (s : Series.series) :
  length (normalize_growth s) = length s.
Proof.
  unfold normalize_growth.
  destruct (feqb _ _).
  - unfold Series.full. apply repeat_length.
  - unfold Series.mul_scalar, Series.div_scalar, Series.sub_scalar, Series.clip.
    now rewrite !length_map.
Qed.

Lemma finite_repeat (x : R) (n : nat) : finite (repeat (Fin x) n).
Proof.
  apply Forall_forall. intros a Ha. apply repeat_spec in Ha. eauto.
Qed.

Lemma normalize_market_cap_finite (caps : list R) :
  finite (normalize_market_cap (map Fin caps)).
Proof.
  unfold normalize_market_cap.
  pose proof (log_caps_fin_or_nan caps) as Hl.
  set (log_caps := map log10 _) in *.
  pose proof (series_min_fin_or_nan _ Hl) as Hmin.
  pose proof (series_max_fin_or_nan _ Hl) as Hmax.
  destruct (feqb _ _) eqn:E.
  - apply finite_repeat.
  - apply fillna0_finite.
    unfold Series.mul_scalar, Series.div_scalar, Series.sub_scalar.
    rewrite !map_map. apply Forall_map.
    eapply Forall_impl; [|exact Hl].
    intros a Ha. now apply rescale_fin_or_nan.
Qed.

Lemma normalize_growth_finite (gs : list R) :
  finite (normalize_growth (map Fin gs)).
Proof.
  unfold normalize_growth. rewrite clip_Fin.
  destruct (map (clipR (-50) 200) gs) as [|c cs] eqn:Ecs.
  - cbn. constructor.
  - rewrite series_min_Fin, series_max_Fin.
    destruct (feqb _ _) eqn:E.
    + apply finite_repeat.
    + cbn in E. apply Reqb_false in E.
      unfold Series.mul_scalar, Series.div_scalar, Series.sub_scalar.
      rewrite !map_map. apply Forall_map, Forall_forall. intros x _. cbn.
      assert (Hd : Reqb (fold_left Rmax cs c + - fold_left Rmin cs c) 0 = false)
        by (apply Reqb_false; lra).
      rewrite Hd. cbn. eauto.
Qed.

(** ** Raw scores and weights on real columns *)

Lemma blend_Fin (we wc wg : R) (es cs gs : list R) :
  Series.add
    (Series.add (Series.mul_scalar (map Fin es) (Fin we))
                (Series.mul_scalar (map Fin cs) (Fin wc)))
    (Series.mul_scalar (map Fin gs) (Fin wg))
  = map Fin (blend we wc wg es cs gs).
Proof.
  revert cs gs; induction es as [|e es IH]; intros [|c cs] [|g gs];
    try reflexivity.
  specialize (IH cs gs). unfold Series.add, Series.mul_scalar in *.
  cbn. now rewrite IH.
Qed.

Lemma column_Fin (f : company -> R) (df : DataFrame) :
  column f df = map Fin (map f df).
Proof. unfold column. now rewrite map_map. Qed.

Lemma raw_scores_spec (self : SpaceIndexWeighting) (df : DataFrame) :
  raw_scores self df = map Fin (spec_scores self df).
Proof.
  unfold raw_scores, spec_scores. rewrite !column_Fin.
  rewrite (finite_to_real _ (normalize_market_cap_finite (map row_market_cap df))) at 1.
  rewrite (finite_to_real _ (normalize_growth_finite (map row_revenue_growth_rate df))) at 1.
  apply blend_Fin.
Qed.

Lemma blend_length (we wc wg : R) (es cs gs : list R) :
  length cs = length es -> length gs = length es ->
  length (blend we wc wg es cs gs) = length es.
Proof.
  revert cs gs; induction es as [|e es IH]; intros [|c cs] [|g gs];
    cbn; try discriminate; auto.
Qed.

Lemma spec_scores_length (self : SpaceIndexWeighting) (df : DataFrame) :
  length (spec_scores self df) = length df.
Proof.
  unfold spec_scores. rewrite blend_length; rewrite !length_map;
    try reflexivity.
  - unfold column. now rewrite normalize_market_cap_length, length_map.
  - unfold column. now rewrite normalize_growth_length, length_map.
Qed.

Lemma final_weights_Fin (self : SpaceIndexWeighting) (ss : list R) :
  Rsum ss <> 0 ->
  final_weights self (map Fin ss)
  = let cs := map (clipR (min_weight self) (max_weight self))
                  (map (fun s => s / Rsum ss) ss) in
    map (fun c => fdiv (Fin c) (Fin (Rsum cs))) cs.
Proof.
  intros HS. unfold final_weights.
  rewrite series_sum_Fin, (div_scalar_Fin_nz _ _ HS), clip_Fin,
    series_sum_Fin, div_scalar_Fin.
  reflexivity.
Qed.

(** ** Rows to constituents *)

Lemma build_rows (df : DataFrame) :
  forall (k : nat) (pre_raw pre_w : Series.series) (ss : list R) (ws : Series.series),
    length pre_raw = k -> length pre_w = k ->
    length ss = length df -> length ws = length df ->
    map (constituent_of (pre_raw ++ map Fin ss) (pre_w ++ ws))
        (combine (seq k (length df)) df)
    = spec_constituents_of df ss ws.
Proof.
  induction df as [|row df IH]; intros k pre_raw pre_w ss ws Hr Hw Hs Hws.
  - reflexivity.
  - destruct ss as [|s ss]; [discriminate|].
    destruct ws as [|w ws]; [discriminate|].
    cbn [length seq combine map spec_constituents_of].
    f_equal.
    + unfold constituent_of, Series.loc. cbn [map].
      rewrite <- Hr at 1. rewrite nth_middle.
      rewrite <- Hw at 1. rewrite nth_middle. reflexivity.
    + specialize (IH (S k) (pre_raw ++ [Fin s]) (pre_w ++ [w]) ss ws).
      rewrite <- !app_assoc in IH. cbn [app map] in *.
      apply IH; rewrite ?length_app; cbn in *; lia.
Qed.

Lemma build_constituents_spec (self : SpaceIndexWeighting) (df : DataFrame) :
  build_constituents self df
  = spec_constituents_of df (spec_scores self df)
      (final_weights self (map Fin (spec_scores self df))).
Proof.
  unfold build_constituents, iterrows. rewrite raw_scores_spec.
  apply (build_rows df 0%nat [] []); try reflexivity.
  - apply spec_scores_length.
  - unfold final_weights, Series.div_scalar, Series.clip.
    rewrite !length_map. apply spec_scores_length.
Qed.

Lemma spec_constituents_of_weight (df : DataFrame) :
  forall (ss : list R) (ws : Series.series),
    length ss = length df -> length ws = length df ->
    map weight (spec_constituents_of df ss ws) = ws.
Proof.
  induction df as [|row df IH]; intros [|s ss] [|w ws] Hs Hw;
    try discriminate; cbn; [reflexivity|].
  f_equal. apply IH; cbn in *; lia.
Qed.

Lemma spec_constituents_of_raw (df : DataFrame) :
  forall (ss : list R) (ws : Series.series),
    length ss = length df -> length ws = length df ->
    map raw_score (spec_constituents_of df ss ws) = map Fin ss.
Proof.
  induction df as [|row df IH]; intros [|s ss] [|w ws] Hs Hw;
    try discriminate; cbn; [reflexivity|].
  f_equal. apply IH; cbn in *; lia.
Qed.

Lemma spec_constituents_of_rows (df : DataFrame) :
  forall (ss : list R) (ws : Series.series),
    length ss = length df -> length ws = length df ->
    Forall2 built_from df (spec_constituents_of df ss ws).
Proof.
  induction df as [|row df IH]; intros [|s ss] [|w ws] Hs Hw;
    try discriminate; cbn; constructor.
  - unfold built_from; cbn; tauto.
  - apply IH; cbn in *; lia.
Qed.

Lemma final_weights_length (self : SpaceIndexWeighting) (raw : Series.series) :
  length (final_weights self raw) = length raw.
Proof.
  unfold final_weights, Series.div_scalar, Series.clip.
  now rewrite !length_map.
Qed.

Lemma build_constituents_weight (self : SpaceIndexWeighting) (df : DataFrame) :
  map weight (build_constituents self df)
  = final_weights self (raw_scores self df).
Proof.
  rewrite build_constituents_spec, <- raw_scores_spec.
  apply spec_constituents_of_weight.
  - apply spec_scores_length.
  - rewrite final_weights_length, raw_scores_spec, length_map.
    apply spec_scores_length.
Qed.

Lemma build_constituents_raw (self : SpaceIndexWeighting) (df : DataFrame) :
  map raw_score (build_constituents self df) = raw_scores self df.
Proof.
  rewrite build_constituents_spec, raw_scores_spec.
  apply spec_constituents_of_raw.
  - apply spec_scores_length.
  - rewrite final_weights_length, length_map. apply spec_scores_length.
Qed.

Lemma build_constituents_rows (self : SpaceIndexWeighting) (df : DataFrame) :
  Forall2 built_from df (build_constituents self df).
Proof.
  rewrite build_constituents_spec.
  apply spec_constituents_of_rows.
  - apply spec_scores_length.
  - rewrite final_weights_length, length_map. apply spec_scores_length.
Qed.

(** ** The descending stable sort *)

Section SortFacts.
Context {A : Type} (key : A -> fl).

Lemma insert_desc_perm (x : A) (l : list A) :
  Permutation (x :: l) (Py.insert_desc key x l).
Proof.
  induction l as [|y l IH]; cbn; [reflexivity|].
  destruct (fltb (key x) (key y)); [|reflexivity].
  rewrite perm_swap. now constructor.
Qed.

Lemma sort_reverse_perm (l : list A) :
  Permutation l (Py.sort_reverse key l).
Proof.
  induction l as [|x l IH]; cbn; [reflexivity|].
  rewrite <- insert_desc_perm. now constructor.
Qed.

(** Stability: the elements with a given key keep their order. *)
Lemma fltb_feqb_excl (a b w : fl) :
  fltb a b = true -> feqb a w = true -> feqb b w = false.
Proof.
  destruct a as [x|s|], b as [y|t|], w as [z|u|]; cbn; try congruence.
  - intros H1%Rltb_true H2%Reqb_true. apply Reqb_false. lra.
  - destruct s, t, u; cbn; congruence.
Qed.

Lemma insert_desc_filter (w : fl) (x : A) (l : list A) :
  filter (fun c => feqb (key c) w) (Py.insert_desc key x l)
  = filter (fun c => feqb (key c) w) (x :: l).
Proof.
  induction l as [|y l IH]; [reflexivity|].
  cbn [Py.insert_desc].
  destruct (fltb (key x) (key y)) eqn:E; [|reflexivity].
  cbn [filter] in *. rewrite IH.
  destruct (feqb (key x) w) eqn:Ex; [|reflexivity].
  now rewrite (fltb_feqb_excl _ _ _ E Ex).
Qed.

Lemma sort_reverse_filter (w : fl) (l : list A) :
  filter (fun c => feqb (key c) w) (Py.sort_reverse key l)
  = filter (fun c => feqb (key c) w) l.
Proof.
  induction l as [|x l IH]; [reflexivity|].
  cbn [Py.sort_reverse fold_right].
  fold (Py.sort_reverse key l).
  rewrite insert_desc_filter. cbn [filter]. now rewrite IH.
Qed.

(** Order: on keys that are not NaN, [<] is the strict part of a total
    preorder and the result is in descending order. *)
Lemma fltb_fleb (a b : fl) : fltb a b = true -> fleb a b = true.
Proof.
  destruct a as [x|s|], b as [y|t|]; cbn; try congruence.
  - intros H%Rltb_true. apply Rleb_true. lra.
  - destruct s, t; cbn; congruence.
Qed.

Lemma not_fltb_fleb (a b : fl) :
  isna a = false -> isna b = false -> fltb a b = false -> fleb b a = true.
Proof.
  destruct a as [x|s|], b as [y|t|]; cbn; try congruence.
  - intros _ _ H%Rltb_false. now apply Rleb_true.
  - destruct t; cbn; congruence.
  - destruct s; cbn; congruence.
  - destruct s, t; cbn; congruence.
Qed.

Lemma fleb_trans (a b c : fl) :
  fleb a b = true -> fleb b c = true -> fleb a c = true.
Proof.
  destruct a as [x|s|], b as [y|t|], c as [z|u|]; cbn; try congruence.
  - intros H1%Rleb_true H2%Rleb_true. apply Rleb_true. lra.
  - destruct t; cbn; congruence.
  - destruct t, u; cbn; congruence.
  - destruct s; cbn; congruence.
  - destruct s, t; cbn; congruence.
  - destruct s, t, u; cbn; congruence.
Qed.

Lemma insert_desc_sorted (x : A) (l : list A) :
  isna (key x) = false -> Forall (fun c => isna (key c) = false) l ->
  StronglySorted (key_ge key) l -> StronglySorted (key_ge key) (Py.insert_desc key x l).
Proof.
  intros Hx Hl Hs. induction Hs as [|y l Hs IH Hy]; cbn.
  - repeat constructor.
  - inversion Hl as [|? ? Hny Hl']; subst.
    destruct (fltb (key x) (key y)) eqn:E.
    + constructor; [now apply IH|].
      rewrite <- insert_desc_perm. constructor; [|exact Hy].
      now apply fltb_fleb.
    + assert (Hxy : key_ge key x y) by now apply not_fltb_fleb.
      constructor; [now constructor|].
      constructor; [exact Hxy|].
      eapply Forall_impl; [|exact Hy].
      intros c Hc. unfold key_ge in *. eapply fleb_trans; eauto.
Qed.

Lemma sort_reverse_sorted (l : list A) :
  Forall (fun c => isna (key c) = false) l ->
  StronglySorted (key_ge key) (Py.sort_reverse key l).
Proof.
  induction 1 as [|x l Hx Hl IH]; cbn; [constructor|].
  apply insert_desc_sorted; auto.
  fold (Py.sort_reverse key l). now rewrite <- sort_reverse_perm.
Qed.
End SortFacts.

(** ** Sums of reals *)

Lemma Rsum_perm (xs ys : list R) : Permutation xs ys -> Rsum xs = Rsum ys.
Proof.
  induction 1; unfold Rsum in *; cbn; lra.
Qed.

Lemma Rsum_scale (xs : list R) (d : R) :
  Rsum (map (fun x => x / d) xs) = Rsum xs / d.
Proof.
  induction xs as [|x xs IH]; unfold Rsum in *; cbn; [lra|].
  rewrite IH. lra.
Qed.

Lemma Rsum_lower (xs : list R) (b : R) :
  0 < b -> xs <> [] -> Forall (fun x => b <= x) xs -> 0 < Rsum xs.
Proof.
  intros Hb Hne H.
  assert (Hnn : forall ys, Forall (fun x => b <= x) ys -> 0 <= Rsum ys).
  { induction 1 as [|y ys Hy _ IH]; unfold Rsum in *; cbn; lra. }
  destruct H as [|x xs Hx Hxs]; [congruence|].
  specialize (Hnn _ Hxs). unfold Rsum in *; cbn. lra.
Qed.

Lemma py_sum_perm_Fin (l : list fl) (xs : list R) :
  Permutation (map Fin xs) l -> Py.sum l = Fin (Rsum xs).
Proof.
  intros H. apply Permutation_sym, Permutation_map_inv in H as (ys & -> & Hp).
  rewrite py_sum_Fin. f_equal. symmetry. now apply Rsum_perm.
Qed.

(** ** Degenerate columns *)

Lemma log_caps_positive (caps : list R) :
  Forall (fun x => 0 < x) caps ->
  map log10 (Series.replace0 (map Fin caps))
  = map Fin (map (fun x => ln x / ln 10) caps).
Proof.
  intros H. unfold Series.replace0. rewrite !map_map.
  apply map_ext_in. intros x Hx.
  rewrite Forall_forall in H. specialize (H x Hx). cbn.
  assert (E1 : Reqb x 0 = false) by (apply Reqb_false; lra).
  assert (E2 : Rltb 0 x = true) by now apply Rltb_true.
  rewrite E1. cbn. now rewrite E2.
Qed.

Lemma normalize_market_cap_const (caps : list R) (c : R) :
  caps <> [] -> 0 < c -> (forall x, In x caps -> x = c) ->
  normalize_market_cap (map Fin caps) = repeat (Fin 50) (length caps).
Proof.
  intros Hne Hc Hall. unfold normalize_market_cap.
  rewrite log_caps_positive.
  2:{ apply Forall_forall. intros x Hx. now rewrite (Hall x Hx). }
  destruct caps as [|c0 caps]; [congruence|].
  change (map (fun x => ln x / ln 10) (c0 :: caps))
    with (ln c0 / ln 10 :: map (fun x => ln x / ln 10) caps).
  rewrite series_min_Fin, series_max_Fin.
  assert (Hc0 : forall y, In y (map (fun x => ln x / ln 10) caps) ->
                          y = ln c0 / ln 10).
  { intros y (x & <- & Hx)%in_map_iff.
    rewrite (Hall x (or_intror Hx)), (Hall c0 (or_introl eq_refl)). reflexivity. }
  rewrite (fold_Rmin_const _ _ Hc0), (fold_Rmax_const _ _ Hc0).
  cbn [feqb]. rewrite Reqb_refl.
  unfold Series.full. now rewrite length_map.
Qed.

Lemma normalize_growth_const (gs : list R) (g : R) :
  gs <> [] -> (forall x, In x gs -> x = g) ->
  normalize_growth (map Fin gs) = repeat (Fin 50) (length gs).
Proof.
  intros Hne Hall. unfold normalize_growth. rewrite clip_Fin.
  destruct gs as [|g0 gs]; [congruence|].
  change (map (clipR (-50) 200) (g0 :: gs))
    with (clipR (-50) 200 g0 :: map (clipR (-50) 200) gs).
  rewrite series_min_Fin, series_max_Fin.
  assert (Hg0 : forall y, In y (map (clipR (-50) 200) gs) ->
                          y = clipR (-50) 200 g0).
  { intros y (x & <- & Hx)%in_map_iff.
    rewrite (Hall x (or_intror Hx)), (Hall g0 (or_introl eq_refl)). reflexivity. }
  rewrite (fold_Rmin_const _ _ Hg0), (fold_Rmax_const _ _ Hg0).
  cbn [feqb]. rewrite Reqb_refl.
  unfold Series.full. now rewrite !length_map.
Qed.

(** ** A single candidate *)

Lemma calculate_weights_single (self : SpaceIndexWeighting) (r : company) :
  calculate_weights self [r]
  = [constituent_of (raw_scores self [r])
                    (final_weights self (raw_scores self [r])) (0%nat, r)].
Proof. reflexivity. Qed.

Lemma spec_scores_single (self : SpaceIndexWeighting) (r : company) :
  0 < row_market_cap r ->
  spec_scores self [r]
  = [row_space_revenue_pct r * w_space_rev self
     + 50 * w_market_cap self + 50 * w_growth self].
Proof.
  intros Hc. unfold spec_scores. rewrite !column_Fin.
  change (map row_market_cap [r]) with [row_market_cap r].
  change (map row_revenue_growth_rate [r]) with [row_revenue_growth_rate r].
  rewrite (normalize_market_cap_const [row_market_cap r] (row_market_cap r)),
    (normalize_growth_const [row_revenue_growth_rate r] (row_revenue_growth_rate r)).
  - reflexivity.
  - discriminate.
  - intros x [<-|[]]; reflexivity.
  - discriminate.
  - exact Hc.
  - intros x [<-|[]]; reflexivity.
Qed.

Lemma spec_scores_single_shape (self : SpaceIndexWeighting) (r : company) :
  exists s, spec_scores self [r] = [s].
Proof.
  pose proof (spec_scores_length self [r]) as H.
  destruct (spec_scores self [r]) as [|s [|? ?]]; try discriminate. eauto.
Qed.

Lemma final_weights_single (self : SpaceIndexWeighting) (s : R) :
  s <> 0 ->
  final_weights self [Fin s]
  = let c := clipR (min_weight self) (max_weight self) 1 in
    [fdiv (Fin c) (Fin (c + 0))].
Proof.
  intros Hs. change [Fin s] with (map Fin [s]).
  rewrite final_weights_Fin by (unfold Rsum; cbn; lra).
  unfold Rsum. cbn.
  replace (s / (s + 0)) with 1 by (field; lra). reflexivity.
Qed.

(** * The claims *)

(** ** Construction of the configuration *)

Lemma isclose_one (total : R) :
  isclose total 1 = true <-> Rabs (total - 1) <= 1001 / 100000000.
Proof.
  unfold isclose, rtol, atol. rewrite Rleb_true, Rabs_R1.
  split; intros H; lra.
Qed.




(** ** Empty input *)

(** C9.  On an empty candidate table [calculate_weights] returns the empty
    list, and [summary_stats] of an empty constituent list returns the empty
    dict; neither path reaches a [raise]. *)
Theorem empty_input_empty_output (self : SpaceIndexWeighting) :
  calculate_weights self [] = [] /\ summary_stats [] = [].
Proof. split; reflexivity. Qed.

(** ** Market-cap normalization *)

(** C5 (as amended).  When every candidate of a non-empty set has the same
    strictly positive market capitalization, every normalized cap score is
    the neutral 50.0. *)
Theorem normalize_market_cap_identical (df : DataFrame) (c : R) :
  df <> [] -> 0 < c ->
  (forall row, In row df -> row_market_cap row = c) ->
  normalize_market_cap (column row_market_cap df)
  = repeat (Fin 50) (length df).
Proof.
  intros Hne Hc Hall. rewrite column_Fin.
  rewrite (normalize_market_cap_const _ c); auto.
  - now rewrite length_map.
  - destruct df; [congruence|discriminate].
  - intros x (row & <- & Hrow)%in_map_iff. now apply Hall.
Qed.

Lemma normalize_market_cap_identical_witness :
  normalize_market_cap (column row_market_cap [ASTS; ASTS])
  = [Fin 50; Fin 50].
Proof.
  apply (normalize_market_cap_identical [ASTS; ASTS] 19200000000).
  - discriminate.
  - lra.
  - intros row [<-|[<-|[]]]; reflexivity.
Defined.

(** C5 as stated fails: a single candidate whose market capitalization is
    zero gets the score 0.0, not 50.0 (its logarithm is undefined, the
    minimum and the maximum are NaN and do not compare equal). *)
Lemma normalize_market_cap_zero_cap :
  [unknown_cap] <> []
  /\ (forall row, In row [unknown_cap] -> row_market_cap row = 0)
  /\ normalize_market_cap (column row_market_cap [unknown_cap]) = [Fin 0]
  /\ Fin 0 <> Fin 50.
Proof.
  repeat split.
  - discriminate.
  - intros row [<-|[]]; reflexivity.
  - unfold normalize_market_cap, column. cbn.
    rewrite Reqb_refl. reflexivity.
  - intros H. injection H. lra.
Qed.

(** ** Growth normalization *)

Lemma growth_band : Rmin (-50) 200 = -50 /\ Rmax (-50) 200 = 200.
Proof.
  split; [apply Rmin_left | apply Rmax_right]; lra.
Qed.

(** ** Weights of a candidate set *)

Lemma calculate_weights_perm (self : SpaceIndexWeighting) (df : DataFrame) :
  Permutation (build_constituents self df) (calculate_weights self df).
Proof.
  destruct df as [|r df]; [reflexivity|].
  unfold calculate_weights. apply sort_reverse_perm.
Qed.

Lemma calculate_weights_sort (self : SpaceIndexWeighting) (df : DataFrame) :
  calculate_weights self df
  = Py.sort_reverse weight (build_constituents self df).
Proof.
  destruct df as [|r df]; reflexivity.
Qed.

Lemma fdiv_Fin_nz (cs : list R) (d : R) :
  d <> 0 ->
  map (fun c => fdiv (Fin c) (Fin d)) cs = map Fin (map (fun c => c / d) cs).
Proof.
  intros Hd. rewrite <- div_scalar_Fin. now apply div_scalar_Fin_nz.
Qed.

(** With a non-zero total score and positive bounds, the renormalized
    weights are positive numbers that sum to one. *)
Lemma final_weights_positive_bounds (self : SpaceIndexWeighting) (ss : list R) :
  ss <> [] -> Rsum ss <> 0 ->
  0 < min_weight self -> 0 < max_weight self ->
  exists ws,
    final_weights self (map Fin ss) = map Fin ws
    /\ Rsum ws = 1
    /\ Forall (fun w => 0 < w) ws.
Proof.
  intros Hne HS Hmin Hmax.
  rewrite (final_weights_Fin _ _ HS). cbv zeta.
  set (cs := map (clipR (min_weight self) (max_weight self))
                 (map (fun s => s / Rsum ss) ss)).
  assert (Hb : 0 < Rmin (min_weight self) (max_weight self))
    by now apply Rmin_glb_lt.
  assert (Hcs : Forall (fun c => Rmin (min_weight self) (max_weight self) <= c) cs).
  { unfold cs. apply Forall_map, Forall_forall. intros x _.
    apply clipR_bounds. }
  assert (HC : 0 < Rsum cs).
  { apply (Rsum_lower cs _ Hb); [|exact Hcs].
    unfold cs. destruct ss; [congruence|discriminate]. }
  exists (map (fun c => c / Rsum cs) cs). split; [|split].
  - apply fdiv_Fin_nz. lra.
  - rewrite Rsum_scale. field. lra.
  - apply Forall_map. eapply Forall_impl; [|exact Hcs].
    intros c Hc. cbn in Hc. apply Rdiv_lt_0_compat; lra.
Qed.

Lemma Rsum_positive_exists (xs : list R) :
  0 < Rsum xs -> Exists (fun x => 0 < x) xs.
Proof.
  induction xs as [|x xs IH]; unfold Rsum in *; cbn; intros H; [lra|].
  destruct (Rlt_dec 0 x) as [Hx|Hx]; [now left|].
  right. apply IH. lra.
Qed.

Lemma Rsum_nonneg_exists (xs : list R) :
  Forall (fun x => 0 <= x) xs -> Exists (fun x => 0 < x) xs -> 0 < Rsum xs.
Proof.
  assert (Hnn : forall ys, Forall (fun x => 0 <= x) ys -> 0 <= Rsum ys).
  { induction 1 as [|y ys Hy _ IH]; unfold Rsum in *; cbn; lra. }
  induction 1 as [|x xs Hx Hxs IH]; intros He; inversion He; subst;
    unfold Rsum in *; cbn.
  - specialize (Hnn _ Hxs). unfold Rsum in Hnn. lra.
  - specialize (IH H0). lra.
Qed.

Lemma clipR_nonneg (lower upper x : R) :
  0 <= lower -> 0 <= upper -> 0 <= clipR lower upper x.
Proof.
  intros Hl Hu. pose proof (clipR_bounds lower upper x) as [H _].
  pose proof (Rmin_glb _ _ _ Hl Hu). lra.
Qed.

Lemma clipR_positive (lower upper x : R) :
  0 <= lower -> 0 <= upper -> Rmax lower upper <> 0 -> 0 < x ->
  0 < clipR lower upper x.
Proof.
  intros Hl Hu Hm Hx. unfold clipR.
  pose proof (Rmin_glb _ _ _ Hl Hu).
  pose proof (Rmax_l lower upper).
  destruct (Rle_dec x _); [destruct (Rle_dec _ x)|]; lra.
Qed.

(** With a non-zero total score and non-negative bounds that are not both
    zero, the clipped weights have a positive sum and the renormalized
    weights are numbers that sum to one. *)
Lemma final_weights_sum_one (self : SpaceIndexWeighting) (ss : list R) :
  Rsum ss <> 0 ->
  0 <= min_weight self -> 0 <= max_weight self ->
  Rmax (min_weight self) (max_weight self) <> 0 ->
  exists ws, final_weights self (map Fin ss) = map Fin ws /\ Rsum ws = 1.
Proof.
  intros HS Hmin Hmax Hm.
  rewrite (final_weights_Fin _ _ HS). cbv zeta.
  set (us := map (fun s => s / Rsum ss) ss).
  set (cs := map (clipR (min_weight self) (max_weight self)) us).
  assert (Hus : 0 < Rsum us).
  { unfold us. rewrite Rsum_scale. replace (Rsum ss / Rsum ss) with 1; [lra|].
    field. exact HS. }
  assert (HC : 0 < Rsum cs).
  { apply Rsum_nonneg_exists; unfold cs.
    - apply Forall_map, Forall_forall. intros x _. now apply clipR_nonneg.
    - apply Exists_exists.
      apply Rsum_positive_exists, Exists_exists in Hus as (u & Hu & Hpos).
      exists (clipR (min_weight self) (max_weight self) u). split.
      + now apply in_map.
      + now apply clipR_positive. }
  exists (map (fun c => c / Rsum cs) cs). split.
  - apply fdiv_Fin_nz. lra.
  - rewrite Rsum_scale. field. lra.
Qed.

Lemma series_sum_raw_scores (self : SpaceIndexWeighting) (df : DataFrame) :
  Series.sum (raw_scores self df) = Fin (Rsum (spec_scores self df)).
Proof.
  rewrite raw_scores_spec. apply series_sum_Fin.
Qed.

Lemma spec_scores_nonempty (self : SpaceIndexWeighting) (df : DataFrame) :
  df <> [] -> spec_scores self df <> [].
Proof.
  intros Hne E. apply (f_equal (@length R)) in E.
  rewrite spec_scores_length in E. destruct df; [congruence|discriminate].
Qed.

Lemma positive_total_spec (self : SpaceIndexWeighting) (df : DataFrame) :
  positive_total self df <-> 0 < Rsum (spec_scores self df).
Proof.
  unfold positive_total. now rewrite series_sum_raw_scores.
Qed.

Lemma positive_total_nonempty (self : SpaceIndexWeighting) (df : DataFrame) :
  positive_total self df -> df <> [].
Proof.
  intros H%positive_total_spec ->. cbn in H. unfold Rsum in H. cbn in H. lra.
Qed.

(** Rows that share a positive market capitalization and a growth rate: both
    normalized factors are the neutral 50. *)
Lemma blend_neutral (we wc wg : R) (df : DataFrame) :
  blend we wc wg (map row_space_revenue_pct df)
        (map to_real (repeat (Fin 50) (length df)))
        (map to_real (repeat (Fin 50) (length df)))
  = map (fun row => row_space_revenue_pct row * we + 50 * wc + 50 * wg) df.
Proof.
  induction df as [|row df IH]; cbn; [reflexivity|]. now rewrite IH.
Qed.

Lemma spec_scores_neutral (self : SpaceIndexWeighting) (df : DataFrame) (c g : R) :
  df <> [] -> 0 < c ->
  (forall row, In row df -> row_market_cap row = c) ->
  (forall row, In row df -> row_revenue_growth_rate row = g) ->
  spec_scores self df
  = map (fun row => row_space_revenue_pct row * w_space_rev self
                    + 50 * w_market_cap self + 50 * w_growth self) df.
Proof.
  intros Hne Hc Hcap Hg. unfold spec_scores. rewrite !column_Fin.
  assert (Hne' : forall f : company -> R, map f df <> [])
    by (intros f; destruct df; [congruence|discriminate]).
  rewrite (normalize_market_cap_const _ c), (normalize_growth_const _ g); auto.
  - rewrite !length_map. apply blend_neutral.
  - intros x (row & <- & Hrow)%in_map_iff. now apply Hg.
  - intros x (row & <- & Hrow)%in_map_iff. now apply Hcap.
Qed.

Lemma Rsum_zero (ss : list R) : Forall (fun s => s = 0) ss -> Rsum ss = 0.
Proof.
  induction 1 as [|s ss Hs _ IH]; unfold Rsum in *; cbn; lra.
Qed.

Lemma final_weights_zero_scores (self : SpaceIndexWeighting) (ss : list R) :
  Forall (fun s => s = 0) ss ->
  final_weights self (map Fin ss) = map (fun _ => NaN) ss.
Proof.
  intros H. unfold final_weights.
  rewrite series_sum_Fin, (Rsum_zero _ H).
  assert (E : Series.div_scalar (map Fin ss) (Fin 0) = map (fun _ => NaN) ss).
  { unfold Series.div_scalar. rewrite map_map. apply map_ext_in.
    intros s Hs. rewrite Forall_forall in H. rewrite (H s Hs).
    cbn. now rewrite Reqb_refl. }
  rewrite E. unfold Series.clip, Series.div_scalar. rewrite !map_map.
  reflexivity.
Qed.

(** The two-row sample: both rows have the market capitalization and the
    growth of [ASTS]. *)
Lemma sample_scores (self : SpaceIndexWeighting) :
  spec_scores self [ASTS; PEER]
  = [90 * w_space_rev self + 50 * w_market_cap self + 50 * w_growth self;
     80 * w_space_rev self + 50 * w_market_cap self + 50 * w_growth self].
Proof.
  rewrite (spec_scores_neutral self [ASTS; PEER] 19200000000 120).
  - reflexivity.
  - discriminate.
  - lra.
  - intros row [<-|[<-|[]]]; reflexivity.
  - intros row [<-|[<-|[]]]; reflexivity.
Qed.

Lemma sample_positive_total : positive_total default_config [ASTS; PEER].
Proof.
  apply positive_total_spec. rewrite sample_scores.
  unfold Rsum. cbn. lra.
Qed.

Lemma default_bounds :
  0 < min_weight default_config /\ 0 < max_weight default_config
  /\ min_weight default_config <= max_weight default_config.
Proof.
  cbn. unfold default_min_position_size, default_max_position_size. lra.
Qed.

(** C1 (as amended).  For every non-empty candidate set whose raw scores do
    not sum to zero, and every configuration whose position bounds are
    non-negative and not both zero, the sum of the final weights of the
    returned constituents is a number within 1e-6 of 1.0. *)
Theorem weights_sum_to_one (self : SpaceIndexWeighting) (companies : DataFrame) :
  companies <> [] ->
  Series.sum (raw_scores self companies) <> Fin 0 ->
  0 <= min_weight self -> 0 <= max_weight self ->
  Rmax (min_weight self) (max_weight self) <> 0 ->
  within (1 / 1000000) 1
         (Py.sum (map weight (calculate_weights self companies))).
Proof.
  intros Hne HS Hmin Hmax Hm.
  rewrite series_sum_raw_scores in HS.
  assert (HS' : Rsum (spec_scores self companies) <> 0) by congruence.
  destruct (final_weights_sum_one self _ HS' Hmin Hmax Hm)
    as (ws & Hws & Hsum).
  assert (E : Py.sum (map weight (calculate_weights self companies)) = Fin 1).
  { rewrite <- Hsum. apply py_sum_perm_Fin.
    rewrite <- Hws, <- raw_scores_spec, <- build_constituents_weight.
    apply Permutation_map, calculate_weights_perm. }
  rewrite E. cbn. rabs.
Qed.

Lemma weights_sum_to_one_witness :
  within (1 / 1000000) 1
         (Py.sum (map weight (calculate_weights default_config [ASTS; PEER]))).
Proof.
  apply (weights_sum_to_one default_config [ASTS; PEER]).
  - discriminate.
  - rewrite series_sum_raw_scores, sample_scores.
    intros H. injection H. unfold Rsum. cbn. lra.
  - apply Rlt_le, default_bounds.
  - apply Rlt_le, default_bounds.
  - cbn. unfold default_min_position_size, default_max_position_size.
    rewrite Rmax_right; lra.
Defined.

(** The single row [ASTS] under the configuration with both position bounds
    at zero: the clipped weight is 0 and its renormalization is 0/0. *)
Lemma zero_bounds_single_weight :
  map weight (calculate_weights zero_bounds_config [ASTS]) = [NaN].
Proof.
  rewrite calculate_weights_single. cbn [map weight constituent_of Series.loc nth].
  rewrite raw_scores_spec, spec_scores_single by (cbn; lra).
  cbn [map]. rewrite final_weights_single by (cbn; lra).
  cbn [nth max_weight min_weight zero_bounds_config]. f_equal.
  assert (Hc : clipR 0 0 1 = 0).
  { unfold clipR. rewrite Rmin_left, Rmax_left by lra.
    destruct (Rle_dec 1 0), (Rle_dec 0 1); lra. }
  rewrite Hc. cbn.
  assert (E : Reqb (0 + 0) 0 = true) by (apply Reqb_true; lra).
  now rewrite E, Reqb_refl.
Qed.

(** The single row [no_exposure] under [SpaceIndexWeighting(1.0, 0.0, 0.0)]:
    its raw score is 0, the total is 0 and the weight is 0/0. *)
Lemma exposure_only_single_weight :
  map weight (calculate_weights exposure_only_config [no_exposure]) = [NaN].
Proof.
  rewrite calculate_weights_single. cbn [map weight constituent_of Series.loc].
  rewrite raw_scores_spec, spec_scores_single by (cbn; lra).
  rewrite final_weights_zero_scores; [reflexivity|].
  repeat constructor. cbn. lra.
Qed.

Lemma init_zero_bounds :
  init (4 / 10) (3 / 10) (3 / 10) 0 0 = Py.Return zero_bounds_config.
Proof.
  unfold init.
  assert (E : isclose (4 / 10 + 3 / 10 + 3 / 10) 1 = true).
  { apply isclose_one. rabs. }
  now rewrite E.
Qed.

Lemma init_exposure_only :
  init 1 0 0 (15 / 100) (1 / 100) = Py.Return exposure_only_config.
Proof.
  unfold init.
  assert (E : isclose (1 + 0 + 0) 1 = true).
  { apply isclose_one. rabs. }
  now rewrite E.
Qed.

(** C1 as stated fails, at two configurations whose factor weights sum to
    1.0.  With both position bounds at zero the clipped weights sum to zero;
    with the factor weights 1.0, 0.0, 0.0 and a candidate without exposure the
    raw scores sum to zero.  In both cases the weight is NaN and the total is
    not within 1e-6 of 1.0. *)
Lemma weights_sum_not_one :
  (init (4 / 10) (3 / 10) (3 / 10) 0 0 = Py.Return zero_bounds_config
   /\ [ASTS] <> []
   /\ ~ within (1 / 1000000) 1
          (Py.sum (map weight (calculate_weights zero_bounds_config [ASTS]))))
  /\ (init 1 0 0 (15 / 100) (1 / 100) = Py.Return exposure_only_config
      /\ [no_exposure] <> []
      /\ ~ within (1 / 1000000) 1
             (Py.sum (map weight
                        (calculate_weights exposure_only_config [no_exposure])))).
Proof.
  split; (split; [|split]).
  - exact init_zero_bounds.
  - discriminate.
  - rewrite zero_bounds_single_weight. cbn. tauto.
  - exact init_exposure_only.
  - discriminate.
  - rewrite exposure_only_single_weight. cbn. tauto.
Qed.

(** ** A single candidate *)

(** C7 (as amended).  For every single-candidate input whose raw score is not
    zero and every configuration whose larger position bound is not zero, the
    candidate's final weight is exactly 1.0, whatever the bounds are
    otherwise. *)
Theorem single_candidate_weight_one (self : SpaceIndexWeighting) (r : company) :
  raw_scores self [r] <> [Fin 0] ->
  Rmax (min_weight self) (max_weight self) <> 0 ->
  exists c,
    calculate_weights self [r] = [c] /\ built_from r c /\ weight c = Fin 1.
Proof.
  intros Hraw Hmax.
  rewrite calculate_weights_single.
  eexists; split; [reflexivity|]. split.
  - unfold built_from; cbn; tauto.
  - cbn [weight constituent_of]. rewrite raw_scores_spec in *.
    destruct (spec_scores_single_shape self r) as [s Hs]. rewrite Hs in *.
    cbn [map] in *.
    assert (Hs0 : s <> 0) by (intros ->; now apply Hraw).
    rewrite (final_weights_single self s Hs0). cbv zeta.
    cbn [Series.loc nth].
    set (c := clipR (min_weight self) (max_weight self) 1).
    assert (Hc : c <> 0).
    { unfold c, clipR.
      pose proof (Rmin_l (min_weight self) (max_weight self)).
      pose proof (Rmax_l (min_weight self) (max_weight self)).
      destruct (Rle_dec 1 _); [destruct (Rle_dec _ 1)|]; lra. }
    cbn. assert (E : Reqb (c + 0) 0 = false) by (apply Reqb_false; lra).
    rewrite E. f_equal. field. lra.
Qed.

Lemma single_candidate_weight_one_witness :
  exists c,
    calculate_weights default_config [ASTS] = [c]
    /\ built_from ASTS c /\ weight c = Fin 1.
Proof.
  apply (single_candidate_weight_one default_config ASTS).
  - rewrite raw_scores_spec, spec_scores_single by (cbn; lra).
    cbn. intros H. injection H. lra.
  - cbn. unfold default_min_position_size, default_max_position_size.
    rewrite Rmax_right; lra.
Defined.

(** C7 as stated fails, at two single-candidate inputs: with both position
    bounds at zero, and with the factor weights 1.0, 0.0, 0.0 on a candidate
    without exposure, the weight is NaN, not 1.0. *)
Lemma single_candidate_weight_nan :
  (init (4 / 10) (3 / 10) (3 / 10) 0 0 = Py.Return zero_bounds_config
   /\ exists c,
       calculate_weights zero_bounds_config [ASTS] = [c]
       /\ weight c = NaN /\ weight c <> Fin 1)
  /\ (init 1 0 0 (15 / 100) (1 / 100) = Py.Return exposure_only_config
      /\ exists c,
          calculate_weights exposure_only_config [no_exposure] = [c]
          /\ weight c = NaN /\ weight c <> Fin 1).
Proof.
  split; split.
  - exact init_zero_bounds.
  - pose proof zero_bounds_single_weight as H.
    rewrite calculate_weights_single in *.
    set (c := constituent_of _ _ _) in *.
    exists c. split; [reflexivity|].
    assert (Hw : weight c = NaN) by (injection H; auto).
    rewrite Hw. split; [reflexivity|discriminate].
  - exact init_exposure_only.
  - pose proof exposure_only_single_weight as H.
    rewrite calculate_weights_single in *.
    set (c := constituent_of _ _ _) in *.
    exists c. split; [reflexivity|].
    assert (Hw : weight c = NaN) by (injection H; auto).
    rewrite Hw. split; [reflexivity|discriminate].
Qed.

(** ** All raw scores zero *)

(** C2 (what the code does).  There is no fallback: when every raw score of a
    non-empty candidate set is zero, every returned constituent keeps its raw
    score 0 and carries the weight NaN. *)
Theorem zero_scores_give_nan_weights
        (self : SpaceIndexWeighting) (companies : DataFrame) :
  companies <> [] ->
  Forall (fun a => a = Fin 0) (raw_scores self companies) ->
  calculate_weights self companies <> []
  /\ Forall (fun c => raw_score c = Fin 0 /\ weight c = NaN)
            (calculate_weights self companies).
Proof.
  intros Hne Hz.
  assert (Hb : Forall (fun c => raw_score c = Fin 0 /\ weight c = NaN)
                      (build_constituents self companies)).
  { apply Forall_forall. intros c Hc. split.
    - apply (in_map raw_score) in Hc. rewrite build_constituents_raw in Hc.
      rewrite Forall_forall in Hz. now apply Hz.
    - apply (in_map weight) in Hc.
      rewrite build_constituents_weight, raw_scores_spec in Hc.
      rewrite final_weights_zero_scores in Hc.
      + now apply in_map_iff in Hc as (s & <- & _).
      + rewrite raw_scores_spec in Hz. apply Forall_map in Hz.
        eapply Forall_impl; [|exact Hz]. cbn. intros s Hs. congruence.
  }
  split.
  - intros E. pose proof (calculate_weights_perm self companies) as Hp.
    rewrite E in Hp. apply Permutation_sym, Permutation_nil in Hp.
    apply (f_equal (map weight)) in Hp.
    apply (f_equal (@length fl)) in Hp.
    rewrite build_constituents_weight, final_weights_length, raw_scores_spec,
      length_map, spec_scores_length in Hp.
    destruct companies; [congruence|discriminate].
  - eapply Permutation_Forall; [apply calculate_weights_perm|exact Hb].
Qed.

Lemma zero_scores_give_nan_weights_witness :
  init 1 0 0 (15 / 100) (1 / 100) = Py.Return exposure_only_config
  /\ calculate_weights exposure_only_config [no_exposure] <> []
  /\ Forall (fun c => raw_score c = Fin 0 /\ weight c = NaN)
            (calculate_weights exposure_only_config [no_exposure]).
Proof.
  split.
  - exact init_exposure_only.
  - apply (zero_scores_give_nan_weights exposure_only_config [no_exposure]).
    + discriminate.
    + rewrite raw_scores_spec, spec_scores_single by (cbn; lra).
      repeat constructor. cbn. f_equal. lra.
Defined.

(** ** The documented two-step computation *)

(** C4.  For every candidate set whose raw scores have a strictly positive
    sum (position bounds in order, [min_w <= max_w]), the constituents are
    exactly those of the documented computation: raw score
    [s_i = exposure_i*w_exposure + cap_norm_i*w_cap + growth_norm_i*w_growth]
    kept unchanged, weight [clip(s_i / sum(s))] divided by the sum of the
    clipped weights; the returned list is their descending sort. *)
Theorem calculate_weights_two_step
        (self : SpaceIndexWeighting) (companies : DataFrame) :
  positive_total self companies ->
  min_weight self <= max_weight self ->
  build_constituents self companies = spec_constituents self companies
  /\ calculate_weights self companies
     = Py.sort_reverse weight (spec_constituents self companies)
  /\ Permutation (spec_constituents self companies)
                 (calculate_weights self companies).
Proof.
  intros Hpos Hb. apply positive_total_spec in Hpos.
  assert (E : build_constituents self companies
              = spec_constituents self companies).
  { rewrite build_constituents_spec. unfold spec_constituents, spec_weights.
    f_equal. rewrite final_weights_Fin by lra. cbv zeta.
    rewrite (map_ext _ _ (fun x => clipR_spec_clip _ _ x Hb)).
    reflexivity. }
  split; [exact E|]. rewrite <- E. split.
  - apply calculate_weights_sort.
  - apply calculate_weights_perm.
Qed.

Lemma calculate_weights_two_step_witness :
  build_constituents default_config [ASTS; PEER]
  = spec_constituents default_config [ASTS; PEER]
  /\ calculate_weights default_config [ASTS; PEER]
     = Py.sort_reverse weight (spec_constituents default_config [ASTS; PEER])
  /\ Permutation (spec_constituents default_config [ASTS; PEER])
                 (calculate_weights default_config [ASTS; PEER]).
Proof.
  apply (calculate_weights_two_step default_config [ASTS; PEER]).
  - exact sample_positive_total.
  - apply default_bounds.
Defined.

(** ** Positivity *)

Lemma iterrows_nth {A : Type} (l : list A) (a i : nat) (x : A) :
  nth_error l i = Some x ->
  nth_error (combine (seq a (length l)) l) i = Some ((a + i)%nat, x).
Proof.
  revert a i; induction l as [|y l IH]; intros a [|i] H; try discriminate.
  - cbn in *. injection H as ->. now rewrite Nat.add_0_r.
  - cbn in *. rewrite (IH (S a) i H). f_equal. f_equal. lia.
Qed.

(** The constituent of the row at position [i]. *)
Lemma build_constituents_nth
      (self : SpaceIndexWeighting) (df : DataFrame) (i : nat) (row : company) :
  nth_error df i = Some row ->
  exists c,
    nth_error (build_constituents self df) i = Some c
    /\ built_from row c
    /\ raw_score c = Series.loc (raw_scores self df) i
    /\ weight c = Series.loc (final_weights self (raw_scores self df)) i.
Proof.
  intros H. unfold build_constituents, iterrows. cbv zeta.
  eexists. rewrite nth_error_map, (iterrows_nth df 0 i row H). cbn [option_map].
  split; [reflexivity|]. cbn. repeat split.
Qed.

(** C10.  For every candidate set whose raw scores have a strictly positive
    sum (position bounds strictly positive), there is one returned
    constituent per candidate and every final weight is a strictly positive
    number: each candidate, whatever its raw score, also the raw score 0, is
    returned as a constituent that keeps this raw score and carries a
    strictly positive weight. *)
Theorem weights_strictly_positive
        (self : SpaceIndexWeighting) (companies : DataFrame) :
  positive_total self companies ->
  0 < min_weight self -> 0 < max_weight self ->
  let out := calculate_weights self companies in
  length out = length companies
  /\ Forall (fun c => exists w, weight c = Fin w /\ 0 < w) out
  /\ forall i row,
      nth_error companies i = Some row ->
      exists c w,
        In c out /\ built_from row c
        /\ raw_score c = Series.loc (raw_scores self companies) i
        /\ weight c = Fin w /\ 0 < w.
Proof.
  intros Hpos Hmin Hmax out.
  pose proof (positive_total_nonempty _ _ Hpos) as Hne.
  apply positive_total_spec in Hpos.
  destruct (final_weights_positive_bounds self _
              (spec_scores_nonempty self _ Hne)
              (Rgt_not_eq _ _ Hpos) Hmin Hmax)
    as (ws & Hws & _ & Hall).
  assert (Hout : Forall (fun c => exists w, weight c = Fin w /\ 0 < w) out).
  { eapply Permutation_Forall; [apply calculate_weights_perm|].
    apply Forall_forall. intros c Hc.
    apply (in_map weight) in Hc.
    rewrite build_constituents_weight, raw_scores_spec, Hws in Hc.
    apply in_map_iff in Hc as (w & <- & Hw).
    rewrite Forall_forall in Hall. eauto. }
  split; [|split; [exact Hout|]].
  - unfold out. rewrite <- (Permutation_length (calculate_weights_perm _ _)).
    rewrite <- (length_map weight), build_constituents_weight,
      final_weights_length, raw_scores_spec, length_map.
    apply spec_scores_length.
  - intros i row Hi.
    destruct (build_constituents_nth self companies i row Hi)
      as (c & Hc & Hbf & Hraw & _).
    assert (Hin : In c out).
    { eapply Permutation_in; [apply calculate_weights_perm|].
      eapply nth_error_In, Hc. }
    rewrite Forall_forall in Hout. destruct (Hout c Hin) as (w & Hw & Hw0).
    exists c, w. auto.
Qed.

Lemma sample_zero_score :
  spec_scores exposure_only_config [pure_play; no_exposure] = [100; 0].
Proof.
  rewrite (spec_scores_neutral _ _ 1000000000 10).
  - cbn. f_equal; [lra|]. f_equal. lra.
  - discriminate.
  - lra.
  - intros row [<-|[<-|[]]]; reflexivity.
  - intros row [<-|[<-|[]]]; reflexivity.
Qed.

Lemma weights_strictly_positive_witness :
  exists c w,
    In c (calculate_weights exposure_only_config [pure_play; no_exposure])
    /\ built_from no_exposure c
    /\ raw_score c = Fin 0
    /\ weight c = Fin w /\ 0 < w.
Proof.
  assert (Hpos : positive_total exposure_only_config [pure_play; no_exposure]).
  { apply positive_total_spec. rewrite sample_zero_score.
    unfold Rsum. cbn. lra. }
  assert (Hmin : 0 < min_weight exposure_only_config)
    by (cbn; unfold default_min_position_size; lra).
  assert (Hmax : 0 < max_weight exposure_only_config)
    by (cbn; unfold default_max_position_size; lra).
  destruct (weights_strictly_positive exposure_only_config
              [pure_play; no_exposure] Hpos Hmin Hmax) as (_ & _ & H).
  destruct (H 1%nat no_exposure eq_refl) as (c & w & Hin & Hbf & Hraw & Hw & Hw0).
  exists c, w. split; [exact Hin|]. split; [exact Hbf|].
  split; [|split; assumption].
  rewrite Hraw, raw_scores_spec, sample_zero_score. reflexivity.
Defined.

(** ** Order of the returned list *)

Lemma sample_weights_numbers :
  forall c, In c (calculate_weights default_config [ASTS; PEER]) ->
            isna (weight c) = false.
Proof.
  intros c Hc.
  pose proof sample_positive_total as Hpos.
  pose proof (positive_total_nonempty _ _ Hpos) as Hne.
  apply positive_total_spec in Hpos.
  destruct default_bounds as (Hmin & Hmax & _).
  destruct (final_weights_positive_bounds default_config _
              (spec_scores_nonempty default_config _ Hne)
              (Rgt_not_eq _ _ Hpos) Hmin Hmax)
    as (ws & Hws & _ & _).
  eapply Permutation_in in Hc;
    [|apply Permutation_sym, calculate_weights_perm].
  apply (in_map weight) in Hc.
  rewrite build_constituents_weight, raw_scores_spec, Hws in Hc.
  apply in_map_iff in Hc as (w & <- & _). reflexivity.
Qed.

(** C8 (as amended).  When no final weight is NaN, the returned list holds
    the constituents built from the rows, one per row, in descending order
    of final weight, and constituents of equal final weight appear in the
    order of their rows. *)
Theorem calculate_weights_sorted_stable
        (self : SpaceIndexWeighting) (companies : DataFrame) :
  let rows := build_constituents self companies in
  let out := calculate_weights self companies in
  (forall c, In c out -> isna (weight c) = false) ->
  Forall2 built_from companies rows
  /\ Permutation rows out
  /\ StronglySorted weight_ge out
  /\ (forall w, filter (has_weight w) out = filter (has_weight w) rows).
Proof.
  intros rows out Hnum. split; [|split; [|split]].
  - apply build_constituents_rows.
  - apply calculate_weights_perm.
  - unfold out, weight_ge. rewrite calculate_weights_sort.
    apply sort_reverse_sorted. apply Forall_forall. intros c Hc.
    apply Hnum. eapply Permutation_in; [apply calculate_weights_perm|exact Hc].
  - intros w. unfold out, has_weight. rewrite calculate_weights_sort.
    apply sort_reverse_filter.
Qed.

Lemma calculate_weights_sorted_stable_witness :
  StronglySorted weight_ge (calculate_weights default_config [ASTS; PEER])
  /\ (forall w,
         filter (has_weight w) (calculate_weights default_config [ASTS; PEER])
         = filter (has_weight w) (build_constituents default_config [ASTS; PEER])).
Proof.
  destruct (calculate_weights_sorted_stable default_config [ASTS; PEER]
              sample_weights_numbers)
    as (_ & _ & Hsorted & Hstable).
  split; [exact Hsorted|exact Hstable].
Defined.

Lemma nan_pair_not_descending (cs : list IndexConstituent) :
  length cs = 2%nat ->
  Forall (fun c => weight c = NaN) cs ->
  ~ StronglySorted weight_ge cs.
Proof.
  intros Hlen Hnan.
  destruct cs as [|c [|d [|? ?]]]; try discriminate.
  intros Hs. inversion Hs as [|? ? _ Hall]; subst.
  inversion Hall as [|? ? Hge _]; subst.
  inversion Hnan as [|? ? Hc Hnan']; subst.
  inversion Hnan' as [|? ? Hd _]; subst.
  unfold weight_ge, key_ge in Hge. rewrite Hc, Hd in Hge. discriminate.
Qed.

Lemma pair_length (self : SpaceIndexWeighting) (r1 r2 : company) :
  length (calculate_weights self [r1; r2]) = 2%nat.
Proof.
  rewrite <- (Permutation_length (calculate_weights_perm _ _)).
  rewrite <- (length_map weight), build_constituents_weight,
    final_weights_length, raw_scores_spec, length_map.
  apply spec_scores_length.
Qed.

(** Two rows under the configuration with both position bounds at zero: the
    clipped weights are 0, their sum is 0 and both final weights are 0/0. *)
Lemma zero_bounds_pair_weights :
  Forall (fun c => weight c = NaN)
         (calculate_weights zero_bounds_config [ASTS; PEER]).
Proof.
  eapply Permutation_Forall; [apply calculate_weights_perm|].
  apply Forall_forall. intros c Hc. apply (in_map weight) in Hc.
  rewrite build_constituents_weight, raw_scores_spec, sample_scores in Hc.
  rewrite final_weights_Fin in Hc by (unfold Rsum; cbn; lra).
  cbv zeta in Hc. cbn [min_weight max_weight zero_bounds_config] in Hc.
  assert (Hz : forall y, clipR 0 0 y = 0).
  { intros y. pose proof (clipR_bounds 0 0 y) as Hb.
    rewrite Rmin_left, Rmax_left in Hb by lra. lra. }
  rewrite !(map_ext _ _ Hz) in Hc.
  apply in_map_iff in Hc as (x & <- & Hx).
  apply in_map_iff in Hx as (y & <- & _).
  assert (E : Rsum (map (fun _ : R => 0)
                        (map (fun s => s / Rsum
                           [90 * w_space_rev zero_bounds_config
                            + 50 * w_market_cap zero_bounds_config
                            + 50 * w_growth zero_bounds_config;
                            80 * w_space_rev zero_bounds_config
                            + 50 * w_market_cap zero_bounds_config
                            + 50 * w_growth zero_bounds_config])
                           [90 * w_space_rev zero_bounds_config
                            + 50 * w_market_cap zero_bounds_config
                            + 50 * w_growth zero_bounds_config;
                            80 * w_space_rev zero_bounds_config
                            + 50 * w_market_cap zero_bounds_config
                            + 50 * w_growth zero_bounds_config])) = 0).
  { unfold Rsum. cbn. lra. }
  rewrite E. cbn. now rewrite Reqb_refl.
Qed.

(** C8 as stated fails, at two configurations whose factor weights sum to
    1.0.  With both position bounds at zero the clipped weights sum to zero;
    with the factor weights 1.0, 0.0, 0.0 two candidates without exposure
    have the raw score 0.  In both cases the two final weights are NaN:
    neither is greater than or equal to the other, and the returned list of
    two is not in descending order of weight. *)
Lemma calculate_weights_not_descending :
  (init (4 / 10) (3 / 10) (3 / 10) 0 0 = Py.Return zero_bounds_config
   /\ length (calculate_weights zero_bounds_config [ASTS; PEER]) = 2%nat
   /\ Forall (fun c => weight c = NaN)
             (calculate_weights zero_bounds_config [ASTS; PEER])
   /\ ~ StronglySorted weight_ge
          (calculate_weights zero_bounds_config [ASTS; PEER]))
  /\ (init 1 0 0 (15 / 100) (1 / 100) = Py.Return exposure_only_config
      /\ length (calculate_weights exposure_only_config [no_exposure; idle])
         = 2%nat
      /\ Forall (fun c => weight c = NaN)
                (calculate_weights exposure_only_config [no_exposure; idle])
      /\ ~ StronglySorted weight_ge
             (calculate_weights exposure_only_config [no_exposure; idle])).
Proof.
  assert (Hnan : Forall (fun c => weight c = NaN)
                   (calculate_weights exposure_only_config [no_exposure; idle])).
  { eapply Permutation_Forall; [apply calculate_weights_perm|].
    apply Forall_forall. intros c Hc. apply (in_map weight) in Hc.
    rewrite build_constituents_weight, raw_scores_spec in Hc.
    rewrite (spec_scores_neutral _ _ 1000000000 10) in Hc.
    - rewrite final_weights_zero_scores in Hc.
      + now apply in_map_iff in Hc as (x & <- & _).
      + repeat constructor; cbn; lra.
    - discriminate.
    - lra.
    - intros row [<-|[<-|[]]]; reflexivity.
    - intros row [<-|[<-|[]]]; reflexivity. }
  split; (split; [|split; [|split]]).
  - exact init_zero_bounds.
  - apply pair_length.
  - exact zero_bounds_pair_weights.
  - apply nan_pair_not_descending;
      [apply pair_length|exact zero_bounds_pair_weights].
  - exact init_exposure_only.
  - apply pair_length.
  - exact Hnan.
  - apply nan_pair_not_descending; [apply pair_length|exact Hnan].
Qed.

(** * Further properties of the engine *)

(** ** Extremes of a real column *)

Lemma fold_Rmin_le (xs : list R) (a : R) :
  fold_left Rmin xs a <= a /\ forall x, In x xs -> fold_left Rmin xs a <= x.
Proof.
  revert a; induction xs as [|y xs IH]; intros a; cbn.
  - split; [lra|tauto].
  - destruct (IH (Rmin a y)) as [H1 H2].
    pose proof (Rmin_l a y). pose proof (Rmin_r a y).
    split; [lra|]. intros x [<-|Hx]; [lra|now apply H2].
Qed.

Lemma fold_Rmax_ge (xs : list R) (a : R) :
  a <= fold_left Rmax xs a /\ forall x, In x xs -> x <= fold_left Rmax xs a.
Proof.
  revert a; induction xs as [|y xs IH]; intros a; cbn.
  - split; [lra|tauto].
  - destruct (IH (Rmax a y)) as [H1 H2].
    pose proof (Rmax_l a y). pose proof (Rmax_r a y).
    split; [lra|]. intros x [<-|Hx]; [lra|now apply H2].
Qed.

Lemma fold_Rmin_In (xs : list R) (a : R) : In (fold_left Rmin xs a) (a :: xs).
Proof.
  revert a; induction xs as [|y xs IH]; intros a; cbn; [now left|].
  destruct (IH (Rmin a y)) as [H|H]; [|now right; right].
  rewrite <- H. unfold Rmin. destruct (Rle_dec a y); [now left|now right; left].
Qed.

Lemma fold_Rmax_In (xs : list R) (a : R) : In (fold_left Rmax xs a) (a :: xs).
Proof.
  revert a; induction xs as [|y xs IH]; intros a; cbn; [now left|].
  destruct (IH (Rmax a y)) as [H|H]; [|now right; right].
  rewrite <- H. unfold Rmax. destruct (Rle_dec a y); [now right; left|now left].
Qed.

(** The extremes [mn] and [mx] of a non-empty list. *)
Lemma extremes (x : R) (xs : list R) :
  let mn := fold_left Rmin xs x in
  let mx := fold_left Rmax xs x in
  In mn (x :: xs) /\ In mx (x :: xs)
  /\ forall y, In y (x :: xs) -> mn <= y <= mx.
Proof.
  cbv zeta. split; [apply fold_Rmin_In|]. split; [apply fold_Rmax_In|].
  destruct (fold_Rmin_le xs x) as [H1 H2], (fold_Rmax_ge xs x) as [H3 H4].
  intros y [<-|Hy]; [lra|]. split; [now apply H2|now apply H4].
Qed.

Lemma rescale_range (v mn mx : R) :
  mn <= v <= mx -> mn < mx -> 0 <= (v - mn) / (mx - mn) * 100 <= 100.
Proof.
  intros Hv Hlt.
  assert (Hd : 0 < / (mx - mn)) by (apply Rinv_0_lt_compat; lra).
  unfold Rdiv. split.
  - apply Rmult_le_pos; [apply Rmult_le_pos|]; lra.
  - replace 100 with (1 * 100) at 2 by lra.
    apply Rmult_le_compat_r; [lra|].
    replace 1 with ((mx - mn) * / (mx - mn)) by (field; lra).
    apply Rmult_le_compat_r; lra.
Qed.

Lemma rescale_monotone (u v mn mx : R) :
  u <= v -> mn < mx ->
  (u - mn) / (mx - mn) * 100 <= (v - mn) / (mx - mn) * 100.
Proof.
  intros Huv Hlt.
  assert (Hd : 0 < / (mx - mn)) by (apply Rinv_0_lt_compat; lra).
  unfold Rdiv. apply Rmult_le_compat_r; [lra|].
  apply Rmult_le_compat_r; lra.
Qed.

Lemma clipR_monotone (lower upper u v : R) :
  u <= v -> clipR lower upper u <= clipR lower upper v.
Proof.
  intros Huv. unfold clipR.
  pose proof (Rmin_l lower upper). pose proof (Rmax_l lower upper).
  pose proof (Rmin_r lower upper). pose proof (Rmax_r lower upper).
  destruct (Rle_dec u _), (Rle_dec v _);
    repeat match goal with
           | |- context [Rle_dec ?a ?b] => destruct (Rle_dec a b)
           end; lra.
Qed.

(** ** Growth scores of a real column *)

(** The two cases of [normalize_growth] on a non-empty real column, in terms
    of the extremes of the clipped rates. *)
Lemma normalize_growth_cases (gs : list R) :
  gs <> [] ->
  exists mn mx,
    In mn (map (clipR (-50) 200) gs) /\ In mx (map (clipR (-50) 200) gs)
    /\ (forall g, In g gs -> mn <= clipR (-50) 200 g <= mx)
    /\ ((mn = mx
         /\ normalize_growth (map Fin gs) = repeat (Fin 50) (length gs))
        \/ (mn < mx
            /\ normalize_growth (map Fin gs)
               = map (fun g => Fin ((clipR (-50) 200 g - mn) / (mx - mn) * 100))
                     gs)).
Proof.
  intros Hne. unfold normalize_growth. rewrite clip_Fin.
  destruct (map (clipR (-50) 200) gs) as [|c cs] eqn:Ecs.
  { destruct gs; [congruence|discriminate]. }
  rewrite series_min_Fin, series_max_Fin.
  destruct (extremes c cs) as (Hmn & Hmx & Hall).
  set (mn := fold_left Rmin cs c) in *. set (mx := fold_left Rmax cs c) in *.
  exists mn, mx. split; [exact Hmn|]. split; [exact Hmx|]. split.
  { intros g Hg. apply Hall. rewrite <- Ecs. now apply in_map. }
  cbn [feqb]. destruct (Reqb mx mn) eqn:E.
  - apply Reqb_true in E. left. split; [congruence|].
    unfold Series.full. now rewrite length_map.
  - apply Reqb_false in E. right.
    assert (Hlt : mn < mx).
    { destruct (Hall mn Hmn), (Hall mx Hmx). lra. }
    split; [exact Hlt|].
    rewrite <- Ecs.
    unfold Series.mul_scalar, Series.div_scalar, Series.sub_scalar.
    rewrite !map_map. apply map_ext. intros g. cbn.
    assert (Hd : Reqb (mx + - mn) 0 = false) by (apply Reqb_false; lra).
    rewrite Hd. cbn. reflexivity.
Qed.

(** ** Growth scores and the documented clip-then-rescale *)

Lemma clip_band_clipR (g : R) : clip_band g = clipR (-50) 200 g.
Proof.
  unfold clip_band, clipR. destruct growth_band as [-> ->].
  destruct (Rlt_dec g (-50)), (Rlt_dec 200 g), (Rle_dec g 200),
    (Rle_dec (-50) g); lra.
Qed.

Lemma clip_band_range (g : R) :
  -50 <= clip_band g <= 200
  /\ (200 <= g -> clip_band g = 200)
  /\ (g < 200 -> clip_band g < 200).
Proof.
  unfold clip_band.
  destruct (Rlt_dec g (-50)), (Rlt_dec 200 g); repeat split; intros; lra.
Qed.

(** The code's growth scores are those of the documented computation. *)
Lemma normalize_growth_spec (gs : list R) :
  normalize_growth (map Fin gs) = map Fin (spec_normalize_growth gs).
Proof.
  unfold normalize_growth, spec_normalize_growth. rewrite clip_Fin.
  rewrite (map_ext _ _ clip_band_clipR).
  destruct (map (clipR (-50) 200) gs) as [|c cs] eqn:Ecs.
  - reflexivity.
  - rewrite series_min_Fin, series_max_Fin. cbn [feqb]. unfold Reqb.
    destruct (Req_dec_T _ _) as [E|E].
    + unfold Series.full.
      rewrite length_map, <- (length_map (clipR (-50) 200) gs), Ecs.
      rewrite map_map. symmetry. apply map_const.
    + unfold Series.mul_scalar, Series.div_scalar, Series.sub_scalar.
      rewrite !map_map. apply map_ext. intros x. cbn.
      assert (Hd : Reqb (fold_left Rmax cs c + - fold_left Rmin cs c) 0 = false)
        by (apply Reqb_false; lra).
      rewrite Hd. cbn. reflexivity.
Qed.

(** The score of a candidate whose rate is at or above the band's upper end. *)
Lemma spec_normalize_growth_high (gs : list R) (i : nat) (g : R) :
  nth_error gs i = Some g -> 200 <= g ->
  (Exists (fun g' => g' < 200) gs ->
   nth_error (spec_normalize_growth gs) i = Some 100)
  /\ (Forall (fun g' => 200 <= g') gs ->
      nth_error (spec_normalize_growth gs) i = Some 50).
Proof.
  intros Hi Hg. unfold spec_normalize_growth.
  pose proof (map_nth_error clip_band _ _ Hi) as Hci.
  destruct (clip_band_range g) as (_ & Htop & _). rewrite (Htop Hg) in Hci.
  assert (Hall : forall x, In x (map clip_band gs) -> x <= 200).
  { intros x Hx. apply in_map_iff in Hx as (g' & <- & _).
    apply clip_band_range. }
  destruct (map clip_band gs) as [|c cs] eqn:Ecs.
  { destruct i; discriminate. }
  destruct (extremes c cs) as (Hmn & Hmx & Hb). cbv zeta in Hb.
  set (mn := fold_left Rmin cs c) in *. set (mx := fold_left Rmax cs c) in *.
  assert (Emx : mx = 200).
  { apply Rle_antisym; [now apply Hall|].
    apply (Hb 200). eapply nth_error_In, Hci. }
  split.
  - intros Hex. apply Exists_exists in Hex as (g' & Hg' & Hlt).
    assert (Hlow : mn < 200).
    { apply Rle_lt_trans with (clip_band g').
      - apply (Hb (clip_band g')). rewrite <- Ecs. now apply in_map.
      - now apply clip_band_range. }
    destruct (Req_dec_T mx mn) as [E|E]; [lra|].
    rewrite (map_nth_error _ _ _ Hci). f_equal. rewrite Emx. field. lra.
  - intros Hfa. rewrite Forall_forall in Hfa.
    assert (Emn : mn = 200).
    { rewrite <- Ecs in Hmn. apply in_map_iff in Hmn as (g' & <- & Hg').
      now apply clip_band_range, Hfa. }
    destruct (Req_dec_T mx mn) as [E|E]; [|lra].
    now rewrite (map_nth_error _ _ _ Hci).
Qed.

(** C6.  [normalize_growth] computes the documented scores: it clips every
    growth rate to the band [-50, 200], then rescales the clipped rates
    between their smallest and largest value onto 0-100, giving 50 to all
    when the clipped rates coincide.  Hence, in any candidate set, the
    candidates with raw growth 500 and 201 receive exactly the score of the
    candidate with raw growth 200: it is 100 when some candidate grows by
    less than 200, and 50 otherwise. *)
Theorem normalize_growth_clips_before_rescaling (df : DataFrame) :
  let gs := map row_revenue_growth_rate df in
  let scores := normalize_growth (column row_revenue_growth_rate df) in
  scores = map Fin (spec_normalize_growth gs)
  /\ forall i j k,
      nth_error gs i = Some 500 ->
      nth_error gs j = Some 201 ->
      nth_error gs k = Some 200 ->
      exists v,
        nth_error scores i = Some (Fin v)
        /\ nth_error scores j = Some (Fin v)
        /\ nth_error scores k = Some (Fin v)
        /\ ((exists g, In g gs /\ g < 200) -> v = 100)
        /\ ((forall g, In g gs -> 200 <= g) -> v = 50).
Proof.
  intros gs scores.
  assert (E : scores = map Fin (spec_normalize_growth gs)).
  { unfold scores. rewrite column_Fin. apply normalize_growth_spec. }
  split; [exact E|]. intros i j k Hi Hj Hk. rewrite E.
  destruct (spec_normalize_growth_high gs i 500 Hi) as [Hi1 Hi2]; [lra|].
  destruct (spec_normalize_growth_high gs j 201 Hj) as [Hj1 Hj2]; [lra|].
  destruct (spec_normalize_growth_high gs k 200 Hk) as [Hk1 Hk2]; [lra|].
  destruct (Exists_dec (fun g => g < 200) gs (fun g => Rlt_dec g 200))
    as [Hex|Hnex].
  - exists 100. rewrite !nth_error_map, (Hi1 Hex), (Hj1 Hex), (Hk1 Hex).
    repeat split; try reflexivity.
    intros Hall. apply Exists_exists in Hex as (g & Hg & Hlt).
    specialize (Hall g Hg). lra.
  - assert (Hfa : Forall (fun g => 200 <= g) gs).
    { apply Forall_forall. intros g Hg.
      destruct (Rle_dec 200 g) as [H|H]; [exact H|].
      exfalso. apply Hnex, Exists_exists. exists g. split; [exact Hg|lra]. }
    exists 50. rewrite !nth_error_map, (Hi2 Hfa), (Hj2 Hfa), (Hk2 Hfa).
    repeat split; try reflexivity.
    intros (g & Hg & Hlt). rewrite Forall_forall in Hfa.
    specialize (Hfa g Hg). lra.
Qed.

Lemma normalize_growth_clips_before_rescaling_witness :
  exists v,
    nth_error (normalize_growth (map Fin [500; 201; 200; 10])) 0 = Some (Fin v)
    /\ nth_error (normalize_growth (map Fin [500; 201; 200; 10])) 1
       = Some (Fin v)
    /\ nth_error (normalize_growth (map Fin [500; 201; 200; 10])) 2
       = Some (Fin v)
    /\ v = 100.
Proof.
  pose (mk := fun g => mkCompany "T" None 1000000 50 g None).
  destruct (normalize_growth_clips_before_rescaling
              [mk 500; mk 201; mk 200; mk 10]) as [_ H].
  destruct (H 0%nat 1%nat 2%nat eq_refl eq_refl eq_refl)
    as (v & H0 & H1 & H2 & Hlow & _).
  exists v. repeat split; try assumption.
  apply Hlow. exists 10. split; [cbn; tauto|lra].
Defined.

(** X1.  When every candidate of a non-empty set has the same growth rate,
    every normalized growth score is the neutral 50.0. *)
Theorem normalize_growth_identical (df : DataFrame) (g : R) :
  df <> [] ->
  (forall row, In row df -> row_revenue_growth_rate row = g) ->
  normalize_growth (column row_revenue_growth_rate df)
  = repeat (Fin 50) (length df).
Proof.
  intros Hne Hall. rewrite column_Fin.
  rewrite (normalize_growth_const _ g).
  - now rewrite length_map.
  - destruct df; [congruence|discriminate].
  - intros x (row & <- & Hrow)%in_map_iff. now apply Hall.
Qed.

Lemma normalize_growth_identical_witness :
  normalize_growth (column row_revenue_growth_rate [ASTS; PEER])
  = [Fin 50; Fin 50].
Proof.
  apply (normalize_growth_identical [ASTS; PEER] 120).
  - discriminate.
  - intros row [<-|[<-|[]]]; reflexivity.
Defined.

(** X2.  Every growth score is a number between 0 and 100; and when two
    candidates differ in clipped growth, some candidate scores exactly 0 and
    some candidate scores exactly 100. *)
Theorem normalize_growth_range (df : DataFrame) :
  let out := normalize_growth (column row_revenue_growth_rate df) in
  Forall (fun a => exists v, a = Fin v /\ 0 <= v <= 100) out
  /\ (forall r1 r2,
         In r1 df -> In r2 df ->
         clipR (-50) 200 (row_revenue_growth_rate r1)
         <> clipR (-50) 200 (row_revenue_growth_rate r2) ->
         In (Fin 0) out /\ In (Fin 100) out).
Proof.
  cbv zeta. rewrite column_Fin.
  destruct df as [|r df].
  { split; [constructor|]. intros r1 r2 []. }
  set (gs := map row_revenue_growth_rate (r :: df)).
  destruct (normalize_growth_cases gs) as (mn & mx & Hmn & Hmx & Hall & Hcase);
    [discriminate|].
  destruct Hcase as [[Heq ->]|[Hlt ->]].
  - split.
    + apply Forall_forall. intros a Ha%repeat_spec. exists 50. split; [exact Ha|lra].
    + intros r1 r2 H1 H2 Hne. exfalso. apply Hne.
      pose proof (Hall _ (in_map row_revenue_growth_rate _ _ H1)).
      pose proof (Hall _ (in_map row_revenue_growth_rate _ _ H2)). lra.
  - split.
    + apply Forall_map, Forall_forall. intros g Hg. eexists; split; [reflexivity|].
      apply rescale_range; auto.
    + intros _ _ _ _ _.
      apply in_map_iff in Hmn as (g0 & E0 & Hg0).
      apply in_map_iff in Hmx as (g1 & E1 & Hg1).
      split; apply in_map_iff.
      * exists g0. split; [|exact Hg0]. f_equal. rewrite E0. field. lra.
      * exists g1. split; [|exact Hg1]. f_equal. rewrite E1. field. lra.
Qed.

Lemma normalize_growth_range_witness :
  In (Fin 0) (normalize_growth (column row_revenue_growth_rate [ASTS; RKLB]))
  /\ In (Fin 100) (normalize_growth (column row_revenue_growth_rate [ASTS; RKLB])).
Proof.
  pose proof (normalize_growth_range [ASTS; RKLB]) as H. cbv zeta in H.
  destruct H as [_ H]. apply (H ASTS RKLB).
  - now left.
  - now right; left.
  - cbn. unfold clipR. destruct growth_band as [-> ->].
    repeat match goal with
           | |- context [Rle_dec ?a ?b] => destruct (Rle_dec a b)
           end; lra.
Defined.

(** X3.  Growth normalization preserves order: a candidate with a growth rate
    no larger than another's gets a score no larger. *)
Theorem normalize_growth_monotone (df : DataFrame) (i j : nat) (ri rj : company) :
  nth_error df i = Some ri -> nth_error df j = Some rj ->
  row_revenue_growth_rate ri <= row_revenue_growth_rate rj ->
  exists vi vj,
    nth_error (normalize_growth (column row_revenue_growth_rate df)) i
    = Some (Fin vi)
    /\ nth_error (normalize_growth (column row_revenue_growth_rate df)) j
       = Some (Fin vj)
    /\ vi <= vj.
Proof.
  intros Hi Hj Hle. rewrite column_Fin.
  set (gs := map row_revenue_growth_rate df).
  assert (Hgi : nth_error gs i = Some (row_revenue_growth_rate ri))
    by (unfold gs; now rewrite nth_error_map, Hi).
  assert (Hgj : nth_error gs j = Some (row_revenue_growth_rate rj))
    by (unfold gs; now rewrite nth_error_map, Hj).
  assert (Hne : gs <> []) by (intros E; rewrite E in Hgi; now destruct i).
  destruct (normalize_growth_cases gs Hne) as (mn & mx & _ & _ & _ & Hcase).
  destruct Hcase as [[_ ->]|[Hlt ->]].
  - exists 50, 50.
    assert (Hlen : forall k x, nth_error gs k = Some x ->
                               nth_error (repeat (Fin 50) (length gs)) k
                               = Some (Fin 50)).
    { intros k x Hk. apply nth_error_repeat.
      apply nth_error_Some. congruence. }
    rewrite (Hlen _ _ Hgi), (Hlen _ _ Hgj). repeat split; lra.
  - do 2 eexists. rewrite !nth_error_map, Hgi, Hgj. cbn.
    split; [reflexivity|]. split; [reflexivity|].
    apply rescale_monotone; [|exact Hlt]. now apply clipR_monotone.
Qed.

Lemma normalize_growth_monotone_witness :
  exists vi vj,
    nth_error (normalize_growth (column row_revenue_growth_rate [ASTS; RKLB])) 1
    = Some (Fin vi)
    /\ nth_error (normalize_growth (column row_revenue_growth_rate [ASTS; RKLB])) 0
       = Some (Fin vj)
    /\ vi <= vj.
Proof.
  apply (normalize_growth_monotone [ASTS; RKLB] 1 0 RKLB ASTS).
  - reflexivity.
  - reflexivity.
  - cbn. lra.
Defined.

(** ** Market-cap scores of a real column *)

Lemma ln10_pos : 0 < ln 10.
Proof.
  rewrite <- ln_1. apply ln_increasing; lra.
Qed.

Lemma Rlog10_monotone (x y : R) : 0 < x -> x <= y -> Rlog10 x <= Rlog10 y.
Proof.
  intros Hx Hxy. unfold Rlog10.
  pose proof ln10_pos as H10.
  apply Rmult_le_compat_r; [left; now apply Rinv_0_lt_compat|].
  destruct Hxy as [Hlt| ->]; [left; now apply ln_increasing|lra].
Qed.

Lemma Rlog10_scale (k x : R) :
  0 < k -> 0 < x -> Rlog10 (k * x) = Rlog10 k + Rlog10 x.
Proof.
  intros Hk Hx. unfold Rlog10. rewrite ln_mult by assumption.
  pose proof ln10_pos. field. lra.
Qed.

Lemma log_caps_real (caps : list R) :
  map log10 (Series.replace0 (map Fin caps))
  = map (fun c => if Rltb 0 c then Fin (Rlog10 c) else NaN) caps.
Proof.
  unfold Series.replace0. rewrite !map_map. apply map_ext. intros c. cbn.
  destruct (Reqb c 0) eqn:E0, (Rltb 0 c) eqn:E1; cbn; try reflexivity.
  - apply Reqb_true in E0. apply Rltb_true in E1. lra.
  - now rewrite E1.
  - rewrite E1, E0. reflexivity.
Qed.

Lemma dropna_log_caps (caps : list R) :
  Series.dropna (map (fun c => if Rltb 0 c then Fin (Rlog10 c) else NaN) caps)
  = map Fin (map Rlog10 (known_caps caps)).
Proof.
  unfold Series.dropna, known_caps.
  induction caps as [|c caps IH]; [reflexivity|]. cbn.
  destruct (Rltb 0 c); cbn; now rewrite IH.
Qed.

Lemma series_min_dropna (s : Series.series) (x : R) (xs : list R) :
  Series.dropna s = map Fin (x :: xs) ->
  Series.min s = Fin (fold_left Rmin xs x).
Proof.
  intros H. unfold Series.min. rewrite H. cbn. apply fold_min_Fin.
Qed.

Lemma series_max_dropna (s : Series.series) (x : R) (xs : list R) :
  Series.dropna s = map Fin (x :: xs) ->
  Series.max s = Fin (fold_left Rmax xs x).
Proof.
  intros H. unfold Series.max. rewrite H. cbn. apply fold_max_Fin.
Qed.

Lemma least_unique (m m' : R) (xs : list R) :
  least m xs -> least m' xs -> m = m'.
Proof.
  intros [H1 H2] [H3 H4]. specialize (H2 _ H3). specialize (H4 _ H1). lra.
Qed.

Lemma greatest_unique (m m' : R) (xs : list R) :
  greatest m xs -> greatest m' xs -> m = m'.
Proof.
  intros [H1 H2] [H3 H4]. specialize (H2 _ H3). specialize (H4 _ H1). lra.
Qed.

(** The three cases of [normalize_market_cap] on a real column: no known cap,
    all known caps with the same logarithm, and the general case. *)
Lemma normalize_market_cap_cases (caps : list R) :
  (known_caps caps = []
   /\ normalize_market_cap (map Fin caps) = map (fun _ => Fin 0) caps)
  \/ exists mn mx,
      least mn (map Rlog10 (known_caps caps))
      /\ greatest mx (map Rlog10 (known_caps caps))
      /\ ((mn = mx
           /\ normalize_market_cap (map Fin caps)
              = repeat (Fin 50) (length caps))
          \/ (mn < mx
              /\ normalize_market_cap (map Fin caps)
                 = map (fun c => if Rltb 0 c
                                 then Fin ((Rlog10 c - mn) / (mx - mn) * 100)
                                 else Fin 0) caps)).
Proof.
  unfold normalize_market_cap. rewrite log_caps_real.
  pose proof (dropna_log_caps caps) as Hd.
  destruct (known_caps caps) as [|k ks] eqn:Ek.
  - left. split; [reflexivity|].
    unfold Series.min, Series.max. rewrite Hd. cbn [map feqb].
    unfold Series.fillna0, Series.mul_scalar, Series.div_scalar,
      Series.sub_scalar.
    rewrite !map_map. apply map_ext. intros c.
    destruct (Rltb 0 c); reflexivity.
  - right.
    rewrite (series_min_dropna _ _ _ Hd), (series_max_dropna _ _ _ Hd).
    destruct (extremes (Rlog10 k) (map Rlog10 ks)) as (Hmn & Hmx & Hall).
    set (mn := fold_left Rmin _ _) in *. set (mx := fold_left Rmax _ _) in *.
    exists mn, mx.
    split; [split; [exact Hmn|intros x Hx; now apply Hall]|].
    split; [split; [exact Hmx|intros x Hx; now apply Hall]|].
    cbn [feqb]. destruct (Reqb mx mn) eqn:E.
    + apply Reqb_true in E. left. split; [congruence|].
      unfold Series.full. now rewrite length_map.
    + apply Reqb_false in E. right.
      assert (Hlt : mn < mx).
      { destruct (Hall mn Hmn), (Hall mx Hmx). lra. }
      split; [exact Hlt|].
      unfold Series.fillna0, Series.mul_scalar, Series.div_scalar,
        Series.sub_scalar.
      rewrite !map_map. apply map_ext. intros c.
      destruct (Rltb 0 c); [|reflexivity]. cbn.
      assert (Hz : Reqb (mx + - mn) 0 = false) by (apply Reqb_false; lra).
      rewrite Hz. cbn. reflexivity.
Qed.

Lemma Rlog10_strict (x y : R) : 0 < x -> x < y -> Rlog10 x < Rlog10 y.
Proof.
  intros Hx Hxy. unfold Rlog10. pose proof ln10_pos.
  apply Rmult_lt_compat_r; [now apply Rinv_0_lt_compat|].
  now apply ln_increasing.
Qed.

Lemma known_caps_In (caps : list R) (c : R) :
  In c (known_caps caps) <-> In c caps /\ 0 < c.
Proof.
  unfold known_caps. rewrite filter_In, Rltb_true. tauto.
Qed.

(** X4.  Every market-cap score is a number between 0 and 100. *)
Theorem normalize_market_cap_range (df : DataFrame) :
  Forall (fun a => exists v, a = Fin v /\ 0 <= v <= 100)
         (normalize_market_cap (column row_market_cap df)).
Proof.
  rewrite column_Fin. set (caps := map row_market_cap df).
  destruct (normalize_market_cap_cases caps)
    as [[_ ->]|(mn & mx & Hmn & Hmx & [[_ ->]|[Hlt ->]])].
  - apply Forall_map, Forall_forall. intros c _. exists 0. split; [reflexivity|lra].
  - apply Forall_forall. intros a Ha%repeat_spec. exists 50. split; [exact Ha|lra].
  - apply Forall_map, Forall_forall. intros c Hc.
    destruct (Rltb 0 c) eqn:E.
    + eexists; split; [reflexivity|]. apply Rltb_true in E.
      assert (Hk : In (Rlog10 c) (map Rlog10 (known_caps caps)))
        by (apply in_map, known_caps_In; tauto).
      destruct Hmn as [_ Hmn], Hmx as [_ Hmx].
      apply rescale_range; [split; auto|exact Hlt].
    + exists 0. split; [reflexivity|lra].
Qed.

(** X5.  When no candidate has a known (strictly positive) market cap, every
    cap score is 0.0. *)
Theorem normalize_market_cap_none_known (df : DataFrame) :
  (forall row, In row df -> row_market_cap row <= 0) ->
  normalize_market_cap (column row_market_cap df)
  = repeat (Fin 0) (length df).
Proof.
  intros Hall. rewrite column_Fin. set (caps := map row_market_cap df).
  assert (Hk : known_caps caps = []).
  { destruct (known_caps caps) as [|c cs] eqn:E; [reflexivity|].
    assert (Hc : In c (known_caps caps)) by (rewrite E; now left).
    apply known_caps_In in Hc as [(row & <- & Hrow)%in_map_iff Hpos].
    specialize (Hall _ Hrow). lra. }
  destruct (normalize_market_cap_cases caps)
    as [[_ ->]|(mn & mx & [Hmn _] & _)].
  - rewrite map_const. unfold caps. now rewrite length_map.
  - rewrite Hk in Hmn. destruct Hmn.
Qed.

Lemma normalize_market_cap_none_known_witness :
  normalize_market_cap (column row_market_cap [unknown_cap; unknown_cap])
  = [Fin 0; Fin 0].
Proof.
  apply (normalize_market_cap_none_known [unknown_cap; unknown_cap]).
  intros row [<-|[<-|[]]]; cbn; lra.
Defined.

(** X6.  When at least one candidate has a known market cap and all known
    caps are equal, every candidate gets the neutral 50.0, also the
    candidates whose cap is unknown. *)
Theorem normalize_market_cap_known_identical (df : DataFrame) (c : R) :
  0 < c ->
  (exists row, In row df /\ row_market_cap row = c) ->
  (forall row, In row df -> row_market_cap row = c \/ row_market_cap row <= 0) ->
  normalize_market_cap (column row_market_cap df)
  = repeat (Fin 50) (length df).
Proof.
  intros Hc (r0 & Hr0 & Hcap0) Hall. rewrite column_Fin.
  set (caps := map row_market_cap df).
  assert (Hknown : forall x, In x (known_caps caps) -> x = c).
  { intros x [(row & <- & Hrow)%in_map_iff Hpos]%known_caps_In.
    destruct (Hall _ Hrow); [assumption|lra]. }
  assert (Hin : In c (known_caps caps)).
  { apply known_caps_In. split; [|exact Hc].
    apply in_map_iff. now exists r0. }
  destruct (normalize_market_cap_cases caps)
    as [[Hk _]|(mn & mx & [Hmn _] & [Hmx _] & [[_ ->]|[Hlt _]])].
  - rewrite Hk in Hin. destruct Hin.
  - unfold caps. now rewrite length_map.
  - exfalso.
    apply in_map_iff in Hmn as (x & <- & Hx).
    apply in_map_iff in Hmx as (y & <- & Hy).
    rewrite (Hknown _ Hx), (Hknown _ Hy) in Hlt. lra.
Qed.

Lemma normalize_market_cap_known_identical_witness :
  normalize_market_cap (column row_market_cap [ASTS; unknown_cap; PEER])
  = [Fin 50; Fin 50; Fin 50].
Proof.
  apply (normalize_market_cap_known_identical
           [ASTS; unknown_cap; PEER] 19200000000).
  - lra.
  - exists ASTS. split; [now left|reflexivity].
  - intros row [<-|[<-|[<-|[]]]]; cbn; [now left|right; lra|now left].
Defined.

(** X7.  Market-cap normalization preserves order: a candidate with a market
    cap no larger than another's gets a score no larger (an unknown cap
    counting as the smallest). *)
Theorem normalize_market_cap_monotone
        (df : DataFrame) (i j : nat) (ri rj : company) :
  nth_error df i = Some ri -> nth_error df j = Some rj ->
  row_market_cap ri <= row_market_cap rj ->
  exists vi vj,
    nth_error (normalize_market_cap (column row_market_cap df)) i
    = Some (Fin vi)
    /\ nth_error (normalize_market_cap (column row_market_cap df)) j
       = Some (Fin vj)
    /\ vi <= vj.
Proof.
  intros Hi Hj Hle. rewrite column_Fin.
  set (caps := map row_market_cap df).
  assert (Hci : nth_error caps i = Some (row_market_cap ri))
    by (unfold caps; now rewrite nth_error_map, Hi).
  assert (Hcj : nth_error caps j = Some (row_market_cap rj))
    by (unfold caps; now rewrite nth_error_map, Hj).
  destruct (normalize_market_cap_cases caps)
    as [[_ ->]|(mn & mx & Hmn & Hmx & [[_ ->]|[Hlt ->]])].
  - exists 0, 0. rewrite !nth_error_map, Hci, Hcj. cbn. repeat split; lra.
  - exists 50, 50.
    assert (Hlen : forall k x, nth_error caps k = Some x ->
                               nth_error (repeat (Fin 50) (length caps)) k
                               = Some (Fin 50)).
    { intros k x Hk. apply nth_error_repeat.
      apply nth_error_Some. congruence. }
    rewrite (Hlen _ _ Hci), (Hlen _ _ Hcj). repeat split; lra.
  - rewrite !nth_error_map, Hci, Hcj. cbn.
    assert (Hrange : forall c, In c caps -> 0 < c ->
                               0 <= (Rlog10 c - mn) / (mx - mn) * 100).
    { intros c Hc Hpos. apply rescale_range; [|exact Hlt].
      assert (Hk : In (Rlog10 c) (map Rlog10 (known_caps caps)))
        by (apply in_map, known_caps_In; tauto).
      destruct Hmn as [_ Hmn], Hmx as [_ Hmx]. split; auto. }
    destruct (Rltb 0 (row_market_cap ri)) eqn:Ei,
             (Rltb 0 (row_market_cap rj)) eqn:Ej;
      do 2 eexists; (split; [reflexivity|]); (split; [reflexivity|]).
    + apply Rltb_true in Ei.
      apply rescale_monotone; [|exact Hlt]. now apply Rlog10_monotone.
    + apply Rltb_true in Ei. apply Rltb_false in Ej. lra.
    + apply Rltb_true in Ej. apply Hrange; [|exact Ej].
      now apply nth_error_In in Hcj.
    + lra.
Qed.

Lemma normalize_market_cap_monotone_witness :
  exists vi vj,
    nth_error (normalize_market_cap (column row_market_cap [RKLB; ASTS])) 1
    = Some (Fin vi)
    /\ nth_error (normalize_market_cap (column row_market_cap [RKLB; ASTS])) 0
       = Some (Fin vj)
    /\ vi <= vj.
Proof.
  apply (normalize_market_cap_monotone [RKLB; ASTS] 1 0 ASTS RKLB).
  - reflexivity.
  - reflexivity.
  - cbn. lra.
Defined.

(** ** Raw scores *)

Lemma cap_scores_bounds (caps : list R) :
  Forall (fun v => 0 <= v <= 100)
         (map to_real (normalize_market_cap (map Fin caps))).
Proof.
  destruct (normalize_market_cap_cases caps)
    as [[_ ->]|(mn & mx & [_ Hmn] & [_ Hmx] & [[_ ->]|[Hlt ->]])];
    apply Forall_map, Forall_forall.
  - intros a (c & <- & _)%in_map_iff. cbn. lra.
  - intros a ->%repeat_spec. cbn. lra.
  - intros a (c & <- & Hc)%in_map_iff.
    destruct (Rltb 0 c) eqn:E; cbn; [|lra].
    apply Rltb_true in E. apply rescale_range; [|exact Hlt].
    assert (Hk : In (Rlog10 c) (map Rlog10 (known_caps caps)))
      by (apply in_map, known_caps_In; tauto).
    split; auto.
Qed.

Lemma growth_scores_bounds (gs : list R) :
  Forall (fun v => 0 <= v <= 100)
         (map to_real (normalize_growth (map Fin gs))).
Proof.
  destruct gs as [|g0 gs]; [constructor|].
  destruct (normalize_growth_cases (g0 :: gs))
    as (mn & mx & _ & _ & Hall & [[_ ->]|[Hlt ->]]); [discriminate| |];
    apply Forall_map, Forall_forall.
  - intros a ->%repeat_spec. cbn. lra.
  - intros a (g & <- & Hg)%in_map_iff. cbn. apply rescale_range; auto.
Qed.




(** ** Weights and raw scores *)

(** Every constituent pairs a raw score with the weight computed from it. *)
Lemma spec_constituents_of_pairs (g : R -> fl) (df : DataFrame) :
  forall (ss : list R) (c : IndexConstituent),
    In c (spec_constituents_of df ss (map g ss)) ->
    exists s, In s ss /\ raw_score c = Fin s /\ weight c = g s.
Proof.
  induction df as [|row df IH]; intros [|s ss] c Hc; cbn in Hc; try tauto.
  destruct Hc as [<-|Hc].
  - exists s. cbn. auto.
  - destruct (IH ss c Hc) as (t & Ht & Hr & Hw). exists t. cbn. auto.
Qed.

Lemma calculate_weights_pairs (self : SpaceIndexWeighting) (df : DataFrame) :
  Rsum (spec_scores self df) <> 0 ->
  let S := Rsum (spec_scores self df) in
  let C := Rsum (map (clipR (min_weight self) (max_weight self))
                     (map (fun s => s / S) (spec_scores self df))) in
  forall c, In c (calculate_weights self df) ->
    exists s, In s (spec_scores self df)
              /\ raw_score c = Fin s
              /\ weight c
                 = fdiv (Fin (clipR (min_weight self) (max_weight self) (s / S)))
                        (Fin C).
Proof.
  intros HS S C c Hc.
  eapply Permutation_in in Hc;
    [|apply Permutation_sym, calculate_weights_perm].
  rewrite build_constituents_spec, (final_weights_Fin _ _ HS) in Hc.
  cbv zeta in Hc. rewrite !map_map in Hc.
  apply (spec_constituents_of_pairs
           (fun s => fdiv (Fin (clipR (min_weight self) (max_weight self)
                                      (s / Rsum (spec_scores self df))))
                          (Fin _))) in Hc.
  unfold C, S. rewrite map_map. exact Hc.
Qed.

Lemma clipped_sum_positive (self : SpaceIndexWeighting) (ss : list R) :
  Rsum ss <> 0 ->
  0 <= min_weight self -> 0 <= max_weight self ->
  Rmax (min_weight self) (max_weight self) <> 0 ->
  0 < Rsum (map (clipR (min_weight self) (max_weight self))
                (map (fun s => s / Rsum ss) ss)).
Proof.
  intros HS Hmin Hmax Hm.
  set (us := map (fun s => s / Rsum ss) ss).
  assert (Hus : 0 < Rsum us).
  { unfold us. rewrite Rsum_scale. replace (Rsum ss / Rsum ss) with 1; [lra|].
    field. exact HS. }
  apply Rsum_nonneg_exists.
  - apply Forall_map, Forall_forall. intros x _. now apply clipR_nonneg.
  - apply Exists_exists.
    apply Rsum_positive_exists, Exists_exists in Hus as (u & Hu & Hpos).
    exists (clipR (min_weight self) (max_weight self) u). split.
    + now apply in_map.
    + now apply clipR_positive.
Qed.

(** X10.  When the raw scores have a non-zero total [S] and every
    unconstrained weight [s / S] already lies within the position bounds,
    clipping and renormalizing leave the weights proportional to the raw
    scores: each constituent's final weight is a number within 1e-6 of its
    raw score divided by [S]. *)
Theorem weights_proportional_when_unbound
        (self : SpaceIndexWeighting) (df : DataFrame) (S : R) :
  Series.sum (raw_scores self df) = Fin S -> S <> 0 ->
  (forall a, In a (raw_scores self df) ->
             exists s, a = Fin s
                       /\ min_weight self <= s / S <= max_weight self) ->
  Forall (fun c => exists s, raw_score c = Fin s
                             /\ within (1 / 1000000) (s / S) (weight c))
         (calculate_weights self df).
Proof.
  intros HS HS0 Hin. rewrite series_sum_raw_scores in HS.
  injection HS as HS. subst S.
  assert (Hu : forall s, In s (spec_scores self df) ->
                         clipR (min_weight self) (max_weight self)
                               (s / Rsum (spec_scores self df))
                         = s / Rsum (spec_scores self df)).
  { intros s Hs.
    destruct (Hin (Fin s)) as (s' & E & Hb).
    { rewrite raw_scores_spec. now apply in_map. }
    injection E as <-.
    rewrite clipR_spec_clip by lra. unfold spec_clip.
    destruct (Rlt_dec _ _); [lra|]. destruct (Rlt_dec _ _); [lra|reflexivity]. }
  assert (HC : Rsum (map (clipR (min_weight self) (max_weight self))
                         (map (fun s => s / Rsum (spec_scores self df))
                              (spec_scores self df))) = 1).
  { rewrite map_map, (map_ext_in _ _ _ Hu), Rsum_scale. now field. }
  apply Forall_forall. intros c Hc.
  destruct (calculate_weights_pairs self df HS0 c Hc) as (s & Hs & Hr & Hw).
  exists s. split; [exact Hr|].
  rewrite Hw, HC, (Hu s Hs).
  assert (E : Reqb 1 0 = false) by (apply Reqb_false; lra).
  assert (Ed : fdiv (Fin (s / Rsum (spec_scores self df))) (Fin 1)
               = Fin (s / Rsum (spec_scores self df))).
  { cbn. rewrite E. f_equal. now field. }
  rewrite Ed. unfold within. rewrite Rminus_diag, Rabs_R0. lra.
Qed.

Lemma wide_sample_scores :
  spec_scores wide_config [ASTS; PEER] = [66; 62].
Proof.
  rewrite sample_scores. cbn. f_equal; [lra|f_equal; lra].
Qed.

Lemma weights_proportional_when_unbound_witness :
  Forall (fun c => exists s, raw_score c = Fin s
                             /\ within (1 / 1000000) (s / 128) (weight c))
         (calculate_weights wide_config [ASTS; PEER]).
Proof.
  apply (weights_proportional_when_unbound wide_config [ASTS; PEER] 128).
  - rewrite series_sum_raw_scores, wide_sample_scores.
    unfold Rsum. cbn. f_equal. lra.
  - lra.
  - rewrite raw_scores_spec, wide_sample_scores.
    intros a [<-|[<-|[]]]; eexists; (split; [reflexivity|]); cbn; lra.
Defined.

(** X11.  With a strictly positive total score and non-negative position
    bounds that are not both zero, the final weight is monotone in the raw
    score: a constituent with a raw score no larger than another's has a
    final weight no larger. *)
Theorem weight_monotone_in_raw_score
        (self : SpaceIndexWeighting) (df : DataFrame) :
  positive_total self df ->
  0 <= min_weight self -> 0 <= max_weight self ->
  Rmax (min_weight self) (max_weight self) <> 0 ->
  forall c d s t,
    In c (calculate_weights self df) -> In d (calculate_weights self df) ->
    raw_score c = Fin s -> raw_score d = Fin t -> s <= t ->
    exists w v, weight c = Fin w /\ weight d = Fin v /\ w <= v.
Proof.
  intros Hpos Hmin Hmax Hm c d s t Hc Hd Hs Ht Hst.
  apply positive_total_spec in Hpos.
  assert (HS : Rsum (spec_scores self df) <> 0) by lra.
  pose proof (clipped_sum_positive self _ HS Hmin Hmax Hm) as HC.
  destruct (calculate_weights_pairs self df HS c Hc) as (s' & _ & Hs' & Hwc).
  destruct (calculate_weights_pairs self df HS d Hd) as (t' & _ & Ht' & Hwd).
  assert (s' = s) by congruence. assert (t' = t) by congruence. subst s' t'.
  set (C := Rsum (map _ (map _ _))) in *.
  assert (E : Reqb C 0 = false) by (apply Reqb_false; lra).
  unfold fdiv in Hwc, Hwd. rewrite E in Hwc, Hwd.
  do 2 eexists. split; [exact Hwc|]. split; [exact Hwd|].
  unfold Rdiv. apply Rmult_le_compat_r.
  - left. now apply Rinv_0_lt_compat.
  - apply clipR_monotone. apply Rmult_le_compat_r; [|exact Hst].
    left. now apply Rinv_0_lt_compat.
Qed.

Lemma sample_rows (self : SpaceIndexWeighting) :
  exists c d,
    In c (calculate_weights self [ASTS; PEER])
    /\ In d (calculate_weights self [ASTS; PEER])
    /\ raw_score c
       = Fin (80 * w_space_rev self + 50 * w_market_cap self + 50 * w_growth self)
    /\ raw_score d
       = Fin (90 * w_space_rev self + 50 * w_market_cap self + 50 * w_growth self).
Proof.
  pose proof (build_constituents_raw self [ASTS; PEER]) as Hraw.
  rewrite raw_scores_spec, sample_scores in Hraw.
  destruct (build_constituents self [ASTS; PEER]) as [|d [|c [|? ?]]] eqn:E;
    try discriminate.
  cbn in Hraw. injection Hraw as Hd Hc.
  exists c, d. repeat split; try assumption.
  - eapply Permutation_in; [apply calculate_weights_perm|].
    rewrite E. now right; left.
  - eapply Permutation_in; [apply calculate_weights_perm|].
    rewrite E. now left.
Qed.

Lemma weight_monotone_in_raw_score_witness :
  exists c d w v,
    In c (calculate_weights default_config [ASTS; PEER])
    /\ In d (calculate_weights default_config [ASTS; PEER])
    /\ weight c = Fin w /\ weight d = Fin v /\ w <= v.
Proof.
  destruct (sample_rows default_config) as (c & d & Hc & Hd & Hrc & Hrd).
  assert (Hm : Rmax (min_weight default_config) (max_weight default_config) <> 0).
  { cbn. unfold default_min_position_size, default_max_position_size.
    rewrite Rmax_right; lra. }
  destruct (weight_monotone_in_raw_score
              default_config [ASTS; PEER] sample_positive_total
              (Rlt_le _ _ (proj1 default_bounds))
              (Rlt_le _ _ (proj1 (proj2 default_bounds)))
              Hm c d _ _ Hc Hd Hrc Hrd)
    as (w & v & Hw & Hv & Hle).
  - cbn. lra.
  - exists c, d, w, v. auto.
Defined.

(** ** Infeasible position bounds *)

Lemma Rsum_exceeds (ws : list R) (b : R) :
  INR (length ws) * b < Rsum ws -> Exists (fun w => b < w) ws.
Proof.
  induction ws as [|w ws IH]; unfold Rsum in *; cbn [length fold_right].
  - cbn. lra.
  - rewrite S_INR. intros H.
    destruct (Rlt_dec b w) as [Hw|Hw]; [now left|].
    right. apply IH. lra.
Qed.

Lemma Rsum_falls_short (ws : list R) (b : R) :
  Rsum ws < INR (length ws) * b -> Exists (fun w => w < b) ws.
Proof.
  induction ws as [|w ws IH]; unfold Rsum in *; cbn [length fold_right].
  - cbn. lra.
  - rewrite S_INR. intros H.
    destruct (Rlt_dec w b) as [Hw|Hw]; [now left|].
    right. apply IH. lra.
Qed.

Lemma calculate_weights_reals (self : SpaceIndexWeighting) (df : DataFrame) :
  Series.sum (raw_scores self df) <> Fin 0 ->
  0 <= min_weight self -> 0 <= max_weight self ->
  Rmax (min_weight self) (max_weight self) <> 0 ->
  exists ws,
    map weight (calculate_weights self df) = map Fin ws /\ Rsum ws = 1.
Proof.
  intros HS Hmin Hmax Hm. rewrite series_sum_raw_scores in HS.
  assert (HS' : Rsum (spec_scores self df) <> 0) by congruence.
  destruct (final_weights_sum_one self _ HS' Hmin Hmax Hm) as (ws & Hws & Hsum).
  pose proof (Permutation_map weight (calculate_weights_perm self df)) as Hp.
  rewrite build_constituents_weight, raw_scores_spec, Hws in Hp.
  apply Permutation_sym, Permutation_map_inv in Hp as (ws' & E & Hp').
  exists ws'. split; [exact E|].
  rewrite <- Hsum. symmetry. now apply Rsum_perm.
Qed.

(** X12.  The single clip-and-renormalize pass does not repair infeasible
    bounds.  With [n] candidates, a non-zero total score and non-negative
    bounds that are not both zero: if [n] times the larger bound is below 1,
    some final weight exceeds that bound; if [n] times the smaller bound is
    above 1, some final weight is below that bound. *)
Theorem infeasible_bounds_are_violated
        (self : SpaceIndexWeighting) (df : DataFrame) :
  Series.sum (raw_scores self df) <> Fin 0 ->
  0 <= min_weight self -> 0 <= max_weight self ->
  Rmax (min_weight self) (max_weight self) <> 0 ->
  (INR (length df) * Rmax (min_weight self) (max_weight self) < 1 ->
   Exists (fun c => exists w, weight c = Fin w
                              /\ Rmax (min_weight self) (max_weight self) < w)
          (calculate_weights self df))
  /\ (1 < INR (length df) * Rmin (min_weight self) (max_weight self) ->
      Exists (fun c => exists w, weight c = Fin w
                                 /\ w < Rmin (min_weight self) (max_weight self))
             (calculate_weights self df)).
Proof.
  intros HS Hmin Hmax Hm.
  destruct (calculate_weights_reals self df HS Hmin Hmax Hm) as (ws & Hws & Hsum).
  assert (Hlen : length ws = length df).
  { apply (f_equal (@length fl)) in Hws. rewrite !length_map in Hws.
    rewrite <- Hws.
    rewrite <- (length_map weight), <- (Permutation_length
      (Permutation_map weight (calculate_weights_perm self df))).
    rewrite build_constituents_weight, final_weights_length, raw_scores_spec,
      length_map.
    apply spec_scores_length. }
  assert (Hback : forall P : R -> Prop,
             Exists P ws ->
             Exists (fun c => exists w, weight c = Fin w /\ P w)
                    (calculate_weights self df)).
  { intros P (w & Hw & HP)%Exists_exists. apply Exists_exists.
    assert (Hin : In (Fin w) (map weight (calculate_weights self df)))
      by (rewrite Hws; now apply in_map).
    apply in_map_iff in Hin as (c & Hc & Hcin). eauto. }
  split; intros H.
  - apply (Hback (fun w => Rmax (min_weight self) (max_weight self) < w)).
    apply Rsum_exceeds. rewrite Hlen, Hsum. exact H.
  - apply (Hback (fun w => w < Rmin (min_weight self) (max_weight self))).
    apply Rsum_falls_short. rewrite Hlen, Hsum. exact H.
Qed.

Lemma infeasible_bounds_are_violated_witness :
  Exists (fun c => exists w, weight c = Fin w
                             /\ Rmax (min_weight default_config)
                                     (max_weight default_config) < w)
         (calculate_weights default_config [ASTS; PEER]).
Proof.
  apply (infeasible_bounds_are_violated default_config [ASTS; PEER]).
  - rewrite series_sum_raw_scores, sample_scores.
    intros H. injection H. unfold Rsum. cbn. lra.
  - apply Rlt_le, default_bounds.
  - apply Rlt_le, default_bounds.
  - cbn. unfold default_min_position_size, default_max_position_size.
    rewrite Rmax_right; lra.
  - cbn. unfold default_min_position_size, default_max_position_size.
    rewrite Rmax_right; lra.
Defined.

(** ** Summary statistics of a computed index *)

Lemma summary_stats_entries (c0 : IndexConstituent) (rest : list IndexConstituent) :
  let cs := c0 :: rest in
  let stats := summary_stats cs in
  getitem stats "num_constituents" = Some (Py.VInt (length cs))
  /\ getitem stats "total_weight" = Some (Py.VFloat (Py.sum (map weight cs)))
  /\ getitem stats "weighted_avg_market_cap"
     = Some (Py.VFloat (Py.sum (map (fun c => fmul (market_cap c) (weight c)) cs)))
  /\ getitem stats "weighted_avg_space_rev_pct"
     = Some (Py.VFloat
               (Py.sum (map (fun c => fmul (space_revenue_pct c) (weight c)) cs)))
  /\ getitem stats "weighted_avg_growth"
     = Some (Py.VFloat
               (Py.sum (map (fun c => fmul (revenue_growth_rate c) (weight c)) cs)))
  /\ getitem stats "max_weight"
     = Some (Py.VFloat (Py.max (weight c0) (map weight rest)))
  /\ getitem stats "min_weight"
     = Some (Py.VFloat (Py.min (weight c0) (map weight rest))).
Proof.
  cbv zeta. repeat split; reflexivity.
Qed.

Lemma calculate_weights_length (self : SpaceIndexWeighting) (df : DataFrame) :
  length (calculate_weights self df) = length df.
Proof.
  rewrite <- (Permutation_length (calculate_weights_perm self df)).
  rewrite <- (length_map weight), build_constituents_weight,
    final_weights_length, raw_scores_spec, length_map.
  apply spec_scores_length.
Qed.

(** X13.  For a non-empty candidate set with a non-zero total score and
    non-negative bounds that are not both zero, the summary of the computed
    index reports as many constituents as there are candidates and, as
    total weight, a number within 1e-6 of 1.0. *)
Theorem summary_stats_count_and_total
        (self : SpaceIndexWeighting) (df : DataFrame) :
  df <> [] ->
  Series.sum (raw_scores self df) <> Fin 0 ->
  0 <= min_weight self -> 0 <= max_weight self ->
  Rmax (min_weight self) (max_weight self) <> 0 ->
  let stats := summary_stats (calculate_weights self df) in
  getitem stats "num_constituents" = Some (Py.VInt (length df))
  /\ exists t, getitem stats "total_weight" = Some (Py.VFloat (Fin t))
               /\ Rabs (t - 1) <= 1 / 1000000.
Proof.
  intros Hne HS Hmin Hmax Hm stats.
  destruct (calculate_weights_reals self df HS Hmin Hmax Hm) as (ws & Hws & Hsum).
  pose proof (calculate_weights_length self df) as Hlen.
  unfold stats.
  destruct (calculate_weights self df) as [|c0 rest] eqn:E.
  { destruct df; [congruence|discriminate]. }
  destruct (summary_stats_entries c0 rest) as (Hn & Ht & _).
  rewrite Hn, Ht, Hlen, Hws, py_sum_Fin, Hsum. split; [reflexivity|].
  exists 1. split; [reflexivity|]. rewrite Rminus_diag, Rabs_R0. lra.
Qed.

Lemma summary_stats_count_and_total_witness :
  getitem (summary_stats (calculate_weights default_config [ASTS; PEER]))
          "num_constituents" = Some (Py.VInt 2)
  /\ exists t,
      getitem (summary_stats (calculate_weights default_config [ASTS; PEER]))
              "total_weight" = Some (Py.VFloat (Fin t))
      /\ Rabs (t - 1) <= 1 / 1000000.
Proof.
  apply (summary_stats_count_and_total default_config [ASTS; PEER]).
  - discriminate.
  - rewrite series_sum_raw_scores, sample_scores.
    intros H. injection H. unfold Rsum. cbn. lra.
  - apply Rlt_le, default_bounds.
  - apply Rlt_le, default_bounds.
  - cbn. unfold default_min_position_size, default_max_position_size.
    rewrite Rmax_right; lra.
Defined.

Lemma Forall2_In_r {A B : Type} (P : A -> B -> Prop) (l : list A) (l' : list B) :
  Forall2 P l l' -> forall y, In y l' -> exists x, In x l /\ P x y.
Proof.
  induction 1 as [|x y l l' Hxy _ IH]; intros z Hz; [destruct Hz|].
  destruct Hz as [<-|Hz].
  - exists x. split; [now left|exact Hxy].
  - destruct (IH z Hz) as (x' & Hx' & HP). exists x'. split; [now right|exact HP].
Qed.

(** Every returned constituent comes from a row and, under the conditions of
    the sum-to-one result, carries a non-negative weight. *)
Lemma calculate_weights_rows_nonneg (self : SpaceIndexWeighting) (df : DataFrame) :
  Series.sum (raw_scores self df) <> Fin 0 ->
  0 <= min_weight self -> 0 <= max_weight self ->
  Rmax (min_weight self) (max_weight self) <> 0 ->
  forall c, In c (calculate_weights self df) ->
    (exists row, In row df /\ built_from row c)
    /\ exists w, weight c = Fin w /\ 0 <= w.
Proof.
  intros HS Hmin Hmax Hm c Hc. rewrite series_sum_raw_scores in HS.
  assert (HS' : Rsum (spec_scores self df) <> 0) by congruence.
  split.
  - eapply Permutation_in in Hc;
      [|apply Permutation_sym, calculate_weights_perm].
    exact (Forall2_In_r _ _ _ (build_constituents_rows self df) c Hc).
  - pose proof (clipped_sum_positive self _ HS' Hmin Hmax Hm) as HC.
    destruct (calculate_weights_pairs self df HS' c Hc) as (s & _ & _ & Hw).
    set (C := Rsum (map _ (map _ _))) in *.
    assert (E : Reqb C 0 = false) by (apply Reqb_false; lra).
    unfold fdiv in Hw. rewrite E in Hw.
    eexists. split; [exact Hw|].
    apply Rmult_le_pos; [now apply clipR_nonneg|].
    left. now apply Rinv_0_lt_compat.
Qed.

Lemma weighted_sum_bounds (f : IndexConstituent -> fl)
      (cs : list IndexConstituent) (a b : R) :
  Forall (fun c => exists e w, f c = Fin e /\ weight c = Fin w
                               /\ a <= e <= b /\ 0 <= w) cs ->
  exists ps ws,
    map (fun c => fmul (f c) (weight c)) cs = map Fin ps
    /\ map weight cs = map Fin ws
    /\ a * Rsum ws <= Rsum ps <= b * Rsum ws.
Proof.
  induction 1 as [|c cs (e & w & He & Hw & Hab & Hw0) _ IH].
  - exists [], []. unfold Rsum. cbn. repeat split; lra.
  - destruct IH as (ps & ws & Hps & Hws & Hb).
    exists (e * w :: ps), (w :: ws). cbn [map].
    rewrite He, Hw, Hps, Hws. split; [reflexivity|]. split; [reflexivity|].
    unfold Rsum in *. cbn. nra.
Qed.

Lemma slack_nonneg (lo hi : R) : 0 <= slack lo hi.
Proof.
  unfold slack. pose proof (Rabs_pos lo). pose proof (Rmax_l (Rabs lo) (Rabs hi)).
  lra.
Qed.

(** X14.  Under the conditions of the sum-to-one result, each weighted
    average of the summary lies between the smallest and the largest input
    value, up to rounding: if every candidate's exposure (growth rate,
    market cap) is within [lo, hi], the reported weighted average is a
    number that leaves [lo, hi] by at most a millionth of the larger bound in
    magnitude. *)
Theorem summary_stats_averages_within_inputs
        (self : SpaceIndexWeighting) (df : DataFrame) (lo hi : R) :
  df <> [] ->
  Series.sum (raw_scores self df) <> Fin 0 ->
  0 <= min_weight self -> 0 <= max_weight self ->
  Rmax (min_weight self) (max_weight self) <> 0 ->
  let stats := summary_stats (calculate_weights self df) in
  ((forall row, In row df -> lo <= row_space_revenue_pct row <= hi) ->
   exists v, getitem stats "weighted_avg_space_rev_pct" = Some (Py.VFloat (Fin v))
             /\ lo - slack lo hi <= v <= hi + slack lo hi)
  /\ ((forall row, In row df -> lo <= row_revenue_growth_rate row <= hi) ->
      exists v, getitem stats "weighted_avg_growth" = Some (Py.VFloat (Fin v))
                /\ lo - slack lo hi <= v <= hi + slack lo hi)
  /\ ((forall row, In row df -> lo <= row_market_cap row <= hi) ->
      exists v, getitem stats "weighted_avg_market_cap" = Some (Py.VFloat (Fin v))
                /\ lo - slack lo hi <= v <= hi + slack lo hi).
Proof.
  intros Hne HS Hmin Hmax Hm stats.
  destruct (calculate_weights_reals self df HS Hmin Hmax Hm) as (ws0 & Hws0 & Hsum).
  pose proof (calculate_weights_rows_nonneg self df HS Hmin Hmax Hm) as Hrows.
  unfold stats.
  destruct (calculate_weights self df) as [|c0 rest] eqn:E.
  { pose proof (calculate_weights_length self df) as Hlen. rewrite E in Hlen.
    destruct df; [congruence|discriminate]. }
  destruct (summary_stats_entries c0 rest) as (_ & _ & Hcap & Hexp & Hgr & _).
  assert (Hgen : forall (f : IndexConstituent -> fl) (g : company -> R),
             (forall row c, built_from row c -> f c = Fin (g row)) ->
             (forall row, In row df -> lo <= g row <= hi) ->
             exists v, Py.sum (map (fun c => fmul (f c) (weight c)) (c0 :: rest))
                       = Fin v /\ lo - slack lo hi <= v <= hi + slack lo hi).
  { intros f g Hfg Hb.
    destruct (weighted_sum_bounds f (c0 :: rest) lo hi)
      as (ps & ws & Hps & Hws & Hbound).
    { apply Forall_forall. intros c Hc.
      destruct (Hrows c Hc) as [(row & Hrow & Hbf) (w & Hw & Hw0)].
      exists (g row), w. repeat split; auto; now apply Hb. }
    exists (Rsum ps). rewrite Hps, py_sum_Fin. split; [reflexivity|].
    assert (Ews : ws = ws0).
    { rewrite Hws in Hws0.
      apply (f_equal (map to_real)) in Hws0. now rewrite !to_real_Fin in Hws0. }
    subst ws. rewrite Hsum in Hbound.
    pose proof (slack_nonneg lo hi). lra. }
  split; [|split]; intros Hb.
  - rewrite Hexp. destruct (Hgen space_revenue_pct row_space_revenue_pct)
      as (v & -> & Hv); eauto.
    intros row c Hbf. apply Hbf.
  - rewrite Hgr. destruct (Hgen revenue_growth_rate row_revenue_growth_rate)
      as (v & -> & Hv); eauto.
    intros row c Hbf. apply Hbf.
  - rewrite Hcap. destruct (Hgen market_cap row_market_cap)
      as (v & -> & Hv); eauto.
    intros row c Hbf. apply Hbf.
Qed.

Lemma summary_stats_averages_within_inputs_witness :
  exists v,
    getitem (summary_stats (calculate_weights default_config [ASTS; PEER]))
            "weighted_avg_space_rev_pct" = Some (Py.VFloat (Fin v))
    /\ 80 - slack 80 90 <= v <= 90 + slack 80 90.
Proof.
  apply (summary_stats_averages_within_inputs default_config [ASTS; PEER] 80 90).
  - discriminate.
  - rewrite series_sum_raw_scores, sample_scores.
    intros H. injection H. unfold Rsum. cbn. lra.
  - apply Rlt_le, default_bounds.
  - apply Rlt_le, default_bounds.
  - cbn. unfold default_min_position_size, default_max_position_size.
    rewrite Rmax_right; lra.
  - intros row [<-|[<-|[]]]; cbn; lra.
Defined.

(** X15.  Under the conditions of the sum-to-one result, the summary's
    [max_weight] and [min_weight] are the largest and the smallest final
    weight: each is the weight of some constituent, and every constituent's
    weight lies between them. *)
Theorem summary_stats_extreme_weights
        (self : SpaceIndexWeighting) (df : DataFrame) :
  df <> [] ->
  Series.sum (raw_scores self df) <> Fin 0 ->
  0 <= min_weight self -> 0 <= max_weight self ->
  Rmax (min_weight self) (max_weight self) <> 0 ->
  let out := calculate_weights self df in
  exists mx mn,
    getitem (summary_stats out) "max_weight" = Some (Py.VFloat (Fin mx))
    /\ getitem (summary_stats out) "min_weight" = Some (Py.VFloat (Fin mn))
    /\ (exists c, In c out /\ weight c = Fin mx)
    /\ (exists c, In c out /\ weight c = Fin mn)
    /\ forall c, In c out -> exists w, weight c = Fin w /\ mn <= w <= mx.
Proof.
  intros Hne HS Hmin Hmax Hm out.
  destruct (calculate_weights_reals self df HS Hmin Hmax Hm) as (ws & Hws & _).
  unfold out in *.
  destruct (calculate_weights self df) as [|c0 rest] eqn:E.
  { pose proof (calculate_weights_length self df) as Hlen. rewrite E in Hlen.
    destruct df; [congruence|discriminate]. }
  destruct ws as [|w0 ws]; [discriminate|].
  cbn [map] in Hws.
  assert (Hw0 : weight c0 = Fin w0) by congruence.
  assert (Hrest : map weight rest = map Fin ws) by congruence.
  destruct (summary_stats_entries c0 rest) as (_ & _ & _ & _ & _ & Hmx & Hmn).
  destruct (extremes w0 ws) as (Hin_mn & Hin_mx & Hall).
  exists (fold_left Rmax ws w0), (fold_left Rmin ws w0).
  assert (Hback : forall w, In w (w0 :: ws) ->
                            exists c, In c (c0 :: rest) /\ weight c = Fin w).
  { intros w Hw.
    assert (Hin : In (Fin w) (map weight (c0 :: rest))).
    { cbn [map]. rewrite Hw0, Hrest. now apply (in_map Fin _ _ Hw). }
    apply in_map_iff in Hin as (c & Hc & Hcin). eauto. }
  split; [|split; [|split; [|split]]].
  - rewrite Hmx, Hw0, Hrest. unfold Py.max. now rewrite fold_max_Fin.
  - rewrite Hmn, Hw0, Hrest. unfold Py.min. now rewrite fold_min_Fin.
  - now apply Hback.
  - now apply Hback.
  - intros c Hc.
    assert (Hin : In (weight c) (map Fin (w0 :: ws))).
    { cbn [map]. rewrite <- Hw0, <- Hrest. now apply (in_map weight _ _ Hc). }
    apply in_map_iff in Hin as (w & Hw & Hwin). exists w.
    split; [now symmetry|]. now apply Hall.
Qed.

Lemma summary_stats_extreme_weights_witness :
  exists mx mn,
    getitem (summary_stats (calculate_weights default_config [ASTS; PEER]))
            "max_weight" = Some (Py.VFloat (Fin mx))
    /\ getitem (summary_stats (calculate_weights default_config [ASTS; PEER]))
               "min_weight" = Some (Py.VFloat (Fin mn))
    /\ mn <= mx.
Proof.
  destruct (summary_stats_extreme_weights default_config [ASTS; PEER])
    as (mx & mn & Hmx & Hmn & (c & Hc & Hw) & _ & Hall).
  - discriminate.
  - rewrite series_sum_raw_scores, sample_scores.
    intros H. injection H. unfold Rsum. cbn. lra.
  - apply Rlt_le, default_bounds.
  - apply Rlt_le, default_bounds.
  - cbn. unfold default_min_position_size, default_max_position_size.
    rewrite Rmax_right; lra.
  - exists mx, mn. split; [exact Hmx|]. split; [exact Hmn|].
    destruct (Hall c Hc) as (w & Hw' & Hb). lra.
Defined.

(** * The callers *)

(** ** Order of fiscal years *)

Lemma ltb_lt (a b : string) : String.ltb a b = true <-> String.compare a b = Lt.
Proof.
  unfold String.ltb. destruct (String.compare a b); split; congruence.
Qed.

Lemma ltb_trans (a b c : string) :
  String.ltb a b = true -> String.ltb b c = true -> String.ltb a c = true.
Proof.
  rewrite !ltb_lt. intros H1 H2.
  apply String_as_OT.cmp_lt in H1, H2. apply String_as_OT.cmp_lt.
  exact (String_as_OT.lt_trans _ _ _ H1 H2).
Qed.

Lemma ltb_irrefl (a : string) : String.ltb a a = false.
Proof.
  destruct (String.ltb a a) eqn:E; [|reflexivity].
  apply ltb_lt in E. pose proof (String.compare_antisym a a) as H.
  rewrite E in H. discriminate.
Qed.

(** Trichotomy: of two distinct years one is before the other. *)
Lemma ltb_connected (a b : string) :
  String.ltb a b = false -> String.ltb b a = false -> a = b.
Proof.
  intros H1 H2. destruct (String.compare a b) eqn:E.
  - now apply String.compare_eq_iff.
  - apply ltb_lt in E. congruence.
  - pose proof (String.compare_antisym b a) as H. rewrite E in H. cbn in H.
    apply ltb_lt in H. congruence.
Qed.

Lemma not_ltb_trans (a b c : string) :
  String.ltb b a = false -> String.ltb c b = false -> String.ltb c a = false.
Proof.
  intros H1 H2. destruct (String.ltb c a) eqn:E; [|reflexivity].
  destruct (String.ltb a b) eqn:Eab.
  - rewrite (ltb_trans _ _ _ E Eab) in H2. discriminate.
  - rewrite (ltb_connected _ _ Eab H1) in E. congruence.
Qed.

(** ** Growth rate from the financial periods *)

Lemma insert_by_year_perm (x : string * R) (l : list (string * R)) :
  Permutation (x :: l) (insert_by_year x l).
Proof.
  induction l as [|y l IH]; cbn; [reflexivity|].
  destruct (String.ltb (fst y) (fst x)); [|reflexivity].
  rewrite perm_swap. now constructor.
Qed.

Lemma sorted_by_year_perm (l : list (string * R)) :
  Permutation l (sorted_by_year l).
Proof.
  induction l as [|x l IH]; cbn; [reflexivity|].
  rewrite <- insert_by_year_perm. now constructor.
Qed.

Lemma insert_by_year_sorted (x : string * R) (l : list (string * R)) :
  StronglySorted year_le l -> StronglySorted year_le (insert_by_year x l).
Proof.
  induction 1 as [|y l Hs IH Hy]; cbn; [repeat constructor|].
  destruct (String.ltb (fst y) (fst x)) eqn:E.
  - constructor; [exact IH|].
    rewrite <- insert_by_year_perm. constructor; [|exact Hy].
    unfold year_le. destruct (String.ltb (fst x) (fst y)) eqn:E'; [|reflexivity].
    pose proof (ltb_trans _ _ _ E E') as H. now rewrite ltb_irrefl in H.
  - constructor; [now constructor|]. constructor; [exact E|].
    eapply Forall_impl; [|exact Hy]. intros z Hz. unfold year_le in *.
    eapply not_ltb_trans; eauto.
Qed.

Lemma sorted_by_year_sorted (l : list (string * R)) :
  StronglySorted year_le (sorted_by_year l).
Proof.
  induction l as [|x l IH]; cbn; [constructor|].
  now apply insert_by_year_sorted.
Qed.

Lemma collect_revenues_nonzero (financials : list period) :
  Forall (fun e => snd e <> 0) (collect_revenues financials).
Proof.
  unfold collect_revenues. apply Forall_flat_map, Forall_forall.
  intros p _.
  destruct (revenues_value p) as [r|], (fiscal_year p) as [y|];
    cbn; try constructor.
  - destruct (Reqb r 0) eqn:E; cbn; [constructor|].
    destruct (negb _); repeat constructor. cbn. now apply Reqb_false.
  - destruct (negb _ && false); constructor.
Qed.

Lemma StronglySorted_app_inv {A : Type} (P : A -> A -> Prop) (l1 l2 : list A) :
  StronglySorted P (l1 ++ l2) ->
  StronglySorted P l1 /\ StronglySorted P l2
  /\ forall x y, In x l1 -> In y l2 -> P x y.
Proof.
  induction l1 as [|a l1 IH]; cbn; intros H.
  - split; [constructor|]. split; [exact H|]. intros x y [].
  - inversion H as [|? ? Hs Hall]; subst.
    destruct (IH Hs) as (H1 & H2 & H3).
    rewrite Forall_app in Hall. destruct Hall as [Ha1 Ha2].
    split; [now constructor|]. split; [exact H2|].
    intros x y [<-|Hx] Hy.
    + rewrite Forall_forall in Ha2. now apply Ha2.
    + now apply H3.
Qed.

Lemma collect_revenues_length (financials : list period) :
  (length (collect_revenues financials) <= length financials)%nat.
Proof.
  unfold collect_revenues.
  induction financials as [|p ps IH]; cbn [flat_map length]; [lia|].
  rewrite length_app.
  destruct (truthy_number _ && truthy_str _);
    [destruct (fiscal_year p), (revenues_value p)|]; cbn [length]; lia.
Qed.

Lemma last_two {A : Type} (l : list A) :
  (2 <= length l)%nat -> exists pre a b, l = pre ++ [a; b].
Proof.
  intros H. destruct (rev l) as [|b [|a r]] eqn:E.
  - apply (f_equal (@length A)) in E. rewrite length_rev in E. cbn in E. lia.
  - apply (f_equal (@length A)) in E. rewrite length_rev in E. cbn in E. lia.
  - exists (rev r), a, b. rewrite <- (rev_involutive l), E. cbn.
    now rewrite <- app_assoc.
Qed.

Lemma from_end_last_two (pre : list (string * R)) (a b : string * R) :
  from_end (pre ++ [a; b]) 1 = b /\ from_end (pre ++ [a; b]) 2 = a.
Proof.
  unfold from_end. rewrite length_app. cbn [length]. split.
  - replace (length pre + 2 - 1)%nat with (length pre + 1)%nat by lia.
    rewrite app_nth2 by lia.
    replace (length pre + 1 - length pre)%nat with 1%nat by lia. reflexivity.
  - replace (length pre + 2 - 2)%nat with (length pre) by lia.
    rewrite app_nth2 by lia. now rewrite Nat.sub_diag.
Qed.

(** X16.  When at least two periods carry a non-zero revenue and a non-empty
    fiscal year, the recorded growth rate is the year-over-year change
    [(latest - previous) / previous * 100] between the two latest fiscal
    years; [previous] is never zero there, so the [else 0] of the source is
    never taken. *)
Theorem revenue_growth_rate_yoy (financials : list period) :
  (2 <= length (collect_revenues financials))%nat ->
  exists earlier y_prev previous y_latest latest,
    sorted_by_year (collect_revenues financials)
    = earlier ++ [(y_prev, previous); (y_latest, latest)]
    /\ Permutation (collect_revenues financials)
                   (earlier ++ [(y_prev, previous); (y_latest, latest)])
    /\ String.ltb y_latest y_prev = false
    /\ (forall e, In e earlier -> String.ltb y_prev (fst e) = false)
    /\ previous <> 0
    /\ revenue_growth_rate_of financials
       = (latest - previous) / previous * 100.
Proof.
  intros Hlen.
  pose proof (collect_revenues_length financials) as Hle.
  pose proof (sorted_by_year_perm (collect_revenues financials)) as Hperm.
  pose proof (sorted_by_year_sorted (collect_revenues financials)) as Hsorted.
  pose proof (collect_revenues_nonzero financials) as Hnz.
  unfold revenue_growth_rate_of.
  assert (Hlen' : (2 <= length (sorted_by_year (collect_revenues financials)))%nat)
    by now rewrite <- (Permutation_length Hperm).
  destruct (last_two _ Hlen') as (earlier & [yp p] & [yl l] & E).
  rewrite E in *.
  destruct (from_end_last_two earlier (yp, p) (yl, l)) as [-> ->].
  exists earlier, yp, p, yl, l.
  assert (Hp : p <> 0).
  { eapply Permutation_Forall in Hnz; [|exact Hperm].
    rewrite Forall_app in Hnz. destruct Hnz as [_ Hnz].
    inversion Hnz; subst. assumption. }
  split; [reflexivity|]. split; [exact Hperm|].
  apply StronglySorted_app_inv in Hsorted as (_ & Hs2 & Hcross).
  split.
  { inversion Hs2 as [|? ? _ Hall]; subst. inversion Hall; subst. assumption. }
  split.
  { intros e He. apply (Hcross e (yp, p) He). now left. }
  split; [exact Hp|].
  assert (E1 : (length financials =? 0)%nat = false) by (apply Nat.eqb_neq; lia).
  assert (E2 : (2 <=? length financials)%nat = true) by (apply Nat.leb_le; lia).
  assert (E3 : (2 <=? length (earlier ++ [(yp, p); (yl, l)]))%nat = true)
    by now apply Nat.leb_le.
  rewrite E1, E2, E3. cbn [negb andb snd].
  apply Reqb_false in Hp. now rewrite Hp.
Qed.

Lemma sample_collect_revenues :
  collect_revenues [period_2023; period_2022]
  = [("2023"%string, 120); ("2022"%string, 100)].
Proof.
  unfold collect_revenues. cbn.
  assert (E1 : Reqb 120 0 = false) by (apply Reqb_false; lra).
  assert (E2 : Reqb 100 0 = false) by (apply Reqb_false; lra).
  rewrite E1, E2. reflexivity.
Qed.

Lemma revenue_growth_rate_yoy_witness :
  exists earlier y_prev previous y_latest latest,
    sorted_by_year (collect_revenues [period_2023; period_2022])
    = earlier ++ [(y_prev, previous); (y_latest, latest)]
    /\ Permutation (collect_revenues [period_2023; period_2022])
                   (earlier ++ [(y_prev, previous); (y_latest, latest)])
    /\ String.ltb y_latest y_prev = false
    /\ (forall e, In e earlier -> String.ltb y_prev (fst e) = false)
    /\ previous <> 0
    /\ revenue_growth_rate_of [period_2023; period_2022]
       = (latest - previous) / previous * 100.
Proof.
  apply (revenue_growth_rate_yoy [period_2023; period_2022]).
  rewrite sample_collect_revenues. cbn. lia.
Defined.

(** A period without a usable revenue or fiscal year contributes nothing. *)
Lemma collect_revenues_unusable (p : period) (financials : list period) :
  truthy_number (revenues_value p) && truthy_str (fiscal_year p) = false ->
  collect_revenues (p :: financials) = collect_revenues financials.
Proof.
  intros H. unfold collect_revenues. cbn [flat_map]. now rewrite H.
Qed.

(** X17.  A period whose revenue is missing or zero, or whose fiscal year is
    missing or empty, is ignored: once two periods have been returned, adding
    such a period changes nothing; and a candidate left with fewer than two
    usable periods is given the estimate 20.0. *)
Theorem revenue_growth_rate_ignores_unusable
        (p : period) (financials : list period) :
  truthy_number (revenues_value p) && truthy_str (fiscal_year p) = false ->
  ((2 <= length financials)%nat ->
   revenue_growth_rate_of (p :: financials)
   = revenue_growth_rate_of financials)
  /\ ((length (collect_revenues financials) < 2)%nat ->
      revenue_growth_rate_of (p :: financials) = 20).
Proof.
  intros Hp. unfold revenue_growth_rate_of.
  rewrite (collect_revenues_unusable p financials Hp). split.
  - intros Hlen. cbn [length].
    assert (E1 : (length financials =? 0)%nat = false) by (apply Nat.eqb_neq; lia).
    assert (E2 : (2 <=? length financials)%nat = true) by (apply Nat.leb_le; lia).
    assert (E3 : (2 <=? S (length financials))%nat = true) by (apply Nat.leb_le; lia).
    rewrite E1, E2, E3. reflexivity.
  - intros Hlen.
    assert (E : (2 <=? length (sorted_by_year (collect_revenues financials)))%nat
                = false).
    { apply Nat.leb_gt.
      now rewrite <- (Permutation_length (sorted_by_year_perm _)). }
    rewrite E. now destruct (negb _ && (2 <=? _)%nat).
Qed.

Lemma revenue_growth_rate_ignores_unusable_witness :
  revenue_growth_rate_of [period_no_revenue; period_2023; period_2022]
  = revenue_growth_rate_of [period_2023; period_2022]
  /\ revenue_growth_rate_of [period_no_revenue; period_2023] = 20.
Proof.
  split.
  - apply (revenue_growth_rate_ignores_unusable
             period_no_revenue [period_2023; period_2022]).
    + reflexivity.
    + cbn. lia.
  - apply (revenue_growth_rate_ignores_unusable period_no_revenue [period_2023]).
    + reflexivity.
    + unfold collect_revenues. cbn.
      destruct (negb (Reqb 120 0)); cbn; lia.
Defined.

(** Two lists in year order that hold the same entries, with no fiscal year
    twice, are equal. *)
Lemma sorted_by_year_unique (l1 l2 : list (string * R)) :
  StronglySorted year_le l1 -> StronglySorted year_le l2 ->
  Permutation l1 l2 -> NoDup (map fst l1) -> l1 = l2.
Proof.
  intros H1; revert l2.
  induction H1 as [|a l1 Hs1 IH Ha]; intros l2 H2 Hp Hnd.
  - now apply Permutation_nil in Hp.
  - destruct H2 as [|b l2 Hs2 Hb].
    { apply Permutation_sym, Permutation_nil in Hp. discriminate. }
    inversion Hnd as [|? ? Hnotin Hnd']; subst.
    assert (Hab : a = b).
    { assert (Hbin : In b (a :: l1))
        by (eapply Permutation_in; [apply Permutation_sym, Hp|now left]).
      destruct Hbin as [E|Hbin]; [exact E|].
      assert (Hain : In a (b :: l2))
        by (eapply Permutation_in; [exact Hp|now left]).
      destruct Hain as [E|Hain]; [now symmetry|].
      exfalso. apply Hnotin.
      rewrite Forall_forall in Ha, Hb.
      pose proof (Ha b Hbin) as Hle1. pose proof (Hb a Hain) as Hle2.
      unfold year_le in *.
      rewrite (ltb_connected _ _ Hle2 Hle1). now apply in_map. }
    subst b. f_equal. apply IH; auto.
    now apply Permutation_cons_inv in Hp.
Qed.

(** X18.  The growth rate does not depend on the order in which the periods
    are returned, provided no fiscal year occurs twice among the usable
    periods. *)
Theorem revenue_growth_rate_order_independent
        (financials financials' : list period) :
  Permutation financials financials' ->
  NoDup (map fst (collect_revenues financials)) ->
  revenue_growth_rate_of financials' = revenue_growth_rate_of financials.
Proof.
  intros Hp Hnd.
  assert (Hc : Permutation (collect_revenues financials)
                           (collect_revenues financials')).
  { unfold collect_revenues. now apply Permutation_flat_map. }
  assert (Hs : sorted_by_year (collect_revenues financials)
               = sorted_by_year (collect_revenues financials')).
  { apply sorted_by_year_unique; try apply sorted_by_year_sorted.
    - rewrite <- (sorted_by_year_perm (collect_revenues financials')).
      now rewrite <- (sorted_by_year_perm (collect_revenues financials)).
    - eapply Permutation_NoDup; [|exact Hnd].
      apply Permutation_map, sorted_by_year_perm. }
  unfold revenue_growth_rate_of.
  now rewrite <- Hs, (Permutation_length Hp).
Qed.

Lemma revenue_growth_rate_order_independent_witness :
  revenue_growth_rate_of [period_2022; period_2023]
  = revenue_growth_rate_of [period_2023; period_2022].
Proof.
  apply (revenue_growth_rate_order_independent
           [period_2023; period_2022] [period_2022; period_2023]).
  - apply perm_swap.
  - rewrite sample_collect_revenues. cbn.
    repeat constructor; cbn; intuition discriminate.
Defined.

(** ** Position bounds chosen from the number of candidates *)

Lemma INR_le_const (n k : nat) : (n <= k)%nat -> INR n <= INR k.
Proof. apply le_INR. Qed.

Lemma position_bounds_cases (n : nat) :
  ((25 <= n)%nat /\ position_bounds n = (8 / 100, 1 / 100))
  \/ ((15 <= n < 25)%nat /\ position_bounds n = (10 / 100, 1 / 100))
  \/ ((n < 15)%nat /\ position_bounds n = (12 / 100, 1 / 100)).
Proof.
  unfold position_bounds.
  destruct (25 <=? n)%nat eqn:E1.
  - left. apply Nat.leb_le in E1. auto.
  - apply Nat.leb_gt in E1. destruct (15 <=? n)%nat eqn:E2.
    + right; left. apply Nat.leb_le in E2. split; [lia|reflexivity].
    + right; right. apply Nat.leb_gt in E2. auto.
Qed.

Lemma init_retry (mx mn : R) :
  init (4 / 10) (3 / 10) (3 / 10) mx mn
  = Py.Return {| w_space_rev := 4 / 10; w_market_cap := 3 / 10;
                 w_growth := 3 / 10; max_weight := mx; min_weight := mn |}.
Proof.
  unfold init.
  assert (E : isclose (4 / 10 + 3 / 10 + 3 / 10) 1 = true).
  { apply isclose_one. rabs. }
  now rewrite E.
Qed.

(** X19.  For every number of candidates the script's weighting is accepted
    by the constructor and carries the bounds of the candidate-count tier;
    these bounds are feasible for that number of candidates
    ([n * min <= 1 <= n * max]) exactly when it is between 9 and 100. *)
Theorem retry_weighting_feasible (n : nat) :
  exists self,
    retry_weighting n = Py.Return self
    /\ (max_weight self, min_weight self) = position_bounds n
    /\ (INR n * min_weight self <= 1 <= INR n * max_weight self
        <-> (9 <= n <= 100)%nat).
Proof.
  unfold retry_weighting.
  destruct (position_bounds n) as [mx mn] eqn:E.
  rewrite init_retry. eexists. split; [reflexivity|]. split; [reflexivity|].
  cbn [max_weight min_weight].
  assert (H8 : INR 8 = 8) by (cbn; lra).
  assert (H9 : INR 9 = 9) by (cbn; lra).
  assert (H15 : INR 15 = 15) by (cbn; lra).
  assert (H25 : INR 25 = 25) by (cbn; lra).
  assert (H100 : INR 100 = 100) by (rewrite INR_IZR_INZ; reflexivity).
  assert (H101 : INR 101 = 101) by (rewrite INR_IZR_INZ; reflexivity).
  pose proof (pos_INR n) as Hpos.
  destruct (position_bounds_cases n) as [[Hn E']|[[Hn E']|[Hn E']]];
    rewrite E in E'; injection E' as -> ->.
  - pose proof (le_INR _ _ Hn) as Hr. rewrite H25 in Hr. split.
    + intros [Hlo _]. split; [lia|].
      destruct (le_lt_dec n 100) as [Hle|Hgt]; [exact Hle|].
      apply le_INR in Hgt. rewrite H101 in Hgt. lra.
    + intros [_ Hhi]. apply le_INR in Hhi. rewrite H100 in Hhi. lra.
  - destruct Hn as [Hn1 Hn2].
    pose proof (le_INR _ _ Hn1) as Hr1. rewrite H15 in Hr1.
    assert (Hn2' : (n <= 25)%nat) by lia.
    pose proof (le_INR _ _ Hn2') as Hr2. rewrite H25 in Hr2.
    split; [intros _; lia|intros _; lra].
  - assert (Hn' : (n <= 15)%nat) by lia.
    pose proof (le_INR _ _ Hn') as Hr. rewrite H15 in Hr. split.
    + intros [_ Hhi]. split; [|lia].
      destruct (le_lt_dec 9 n) as [Hle|Hgt]; [exact Hle|].
      assert (Hn8 : (n <= 8)%nat) by lia.
      apply le_INR in Hn8. rewrite H8 in Hn8. lra.
    + intros [Hlo _]. apply le_INR in Hlo. rewrite H9 in Hlo. lra.
Qed.

Lemma blend_positive (we wc wg : R) (es cs gs : list R) :
  0 < we -> 0 <= wc -> 0 <= wg ->
  Forall (fun v => 0 < v) es ->
  Forall (fun v => 0 <= v <= 100) cs ->
  Forall (fun v => 0 <= v <= 100) gs ->
  Forall (fun v => 0 < v) (blend we wc wg es cs gs).
Proof.
  intros Hwe Hwc Hwg He. revert cs gs.
  induction He as [|e es He _ IH]; intros cs gs Hc Hg; [constructor|].
  destruct Hc as [|c cs Hc Hcs]; [constructor|].
  destruct Hg as [|g gs Hg Hgs]; [constructor|].
  cbn. constructor; [|now apply IH]. nra.
Qed.

Lemma Rsum_all_positive (xs : list R) :
  xs <> [] -> Forall (fun v => 0 < v) xs -> 0 < Rsum xs.
Proof.
  intros Hne H. apply Rsum_nonneg_exists.
  - eapply Forall_impl; [|exact H]. intros; cbn in *; lra.
  - destruct H as [|x xs Hx _]; [congruence|]. now left.
Qed.

(** With a positive exposure weight, candidates that all have a positive
    exposure have a positive total score. *)
Lemma positive_exposures_positive_total
      (self : SpaceIndexWeighting) (df : DataFrame) :
  0 < w_space_rev self -> 0 <= w_market_cap self -> 0 <= w_growth self ->
  df <> [] ->
  (forall row, In row df -> 0 < row_space_revenue_pct row) ->
  0 < Rsum (spec_scores self df).
Proof.
  intros Hwe Hwc Hwg Hne Hexp.
  apply Rsum_all_positive; [now apply spec_scores_nonempty|].
  unfold spec_scores. rewrite !column_Fin.
  apply blend_positive; auto.
  - apply Forall_map, Forall_forall. exact Hexp.
  - apply cap_scores_bounds.
  - apply growth_scores_bounds.
Qed.

Lemma some_weight_exceeds (self : SpaceIndexWeighting) (df : DataFrame) :
  Rsum (spec_scores self df) <> 0 ->
  0 <= min_weight self -> 0 <= max_weight self ->
  Rmax (min_weight self) (max_weight self) <> 0 ->
  INR (length df) * Rmax (min_weight self) (max_weight self) < 1 ->
  Exists (fun c => exists w, weight c = Fin w
                             /\ Rmax (min_weight self) (max_weight self) < w)
         (calculate_weights self df).
Proof.
  intros HS Hmin Hmax Hm Hn.
  assert (HS' : Series.sum (raw_scores self df) <> Fin 0)
    by (rewrite series_sum_raw_scores; congruence).
  destruct (calculate_weights_reals self df HS' Hmin Hmax Hm) as (ws & Hws & Hsum).
  assert (Hlen : length ws = length df).
  { rewrite <- (calculate_weights_length self df).
    rewrite <- (length_map weight), Hws. now rewrite length_map. }
  assert (Hex : Exists (fun w => Rmax (min_weight self) (max_weight self) < w) ws).
  { apply Rsum_exceeds. rewrite Hlen, Hsum. exact Hn. }
  apply Exists_exists in Hex as (w & Hw & Hlt). apply Exists_exists.
  assert (Hin : In (Fin w) (map weight (calculate_weights self df)))
    by (rewrite Hws; now apply in_map).
  apply in_map_iff in Hin as (c & Hc & Hcin). eauto.
Qed.

(** X20.  In the retry script, a table of at most 8 candidates, all with a
    positive exposure, always yields a position above the configured maximum
    of 12 %: the cap cannot hold for so few candidates, and the renormalization
    restores the sum to 1 at its expense. *)
Theorem retry_weighting_cap_exceeded (df : DataFrame) (self : SpaceIndexWeighting) :
  retry_weighting (length df) = Py.Return self ->
  df <> [] -> (length df <= 8)%nat ->
  (forall row, In row df -> 0 < row_space_revenue_pct row) ->
  max_weight self = 12 / 100
  /\ Exists (fun c => exists w, weight c = Fin w /\ 12 / 100 < w)
            (calculate_weights self df).
Proof.
  intros Hinit Hne Hlen Hexp.
  unfold retry_weighting in Hinit.
  destruct (position_bounds_cases (length df)) as [[Hn E]|[[Hn E]|[Hn E]]];
    try lia.
  rewrite E, init_retry in Hinit. injection Hinit as <-.
  split; [reflexivity|].
  set (self := {| w_space_rev := 4 / 10; w_market_cap := 3 / 10;
                  w_growth := 3 / 10; max_weight := 12 / 100;
                  min_weight := 1 / 100 |}).
  assert (Hmax : Rmax (min_weight self) (max_weight self) = 12 / 100)
    by (cbn; apply Rmax_right; lra).
  rewrite <- Hmax. apply some_weight_exceeds.
  - apply Rgt_not_eq. apply positive_exposures_positive_total; cbn; auto; lra.
  - cbn. lra.
  - cbn. lra.
  - rewrite Hmax. lra.
  - rewrite Hmax. apply le_INR in Hlen.
    assert (H8 : INR 8 = 8) by (cbn; lra). lra.
Qed.

Lemma retry_weighting_cap_exceeded_witness :
  exists self,
    retry_weighting 2 = Py.Return self
    /\ Exists (fun c => exists w, weight c = Fin w /\ 12 / 100 < w)
              (calculate_weights self [ASTS; RKLB]).
Proof.
  eexists. split; [unfold retry_weighting; cbn; apply init_retry|].
  apply (retry_weighting_cap_exceeded [ASTS; RKLB]).
  - unfold retry_weighting. cbn. apply init_retry.
  - discriminate.
  - cbn. lia.
  - intros row [<-|[<-|[]]]; cbn; lra.
Defined.

(** * The classifier: the JSON object inside a response *)

Section JsonStr.
Local Open Scope string_scope.
Local Open Scope Z_scope.

Lemma string_length_append (s t : string) :
  String.length (s ++ t) = (String.length s + String.length t)%nat.
Proof.
  induction s as [|a s IH]; cbn; [reflexivity|]. now rewrite IH.
Qed.

Lemma string_append_assoc (s t u : string) : (s ++ t) ++ u = s ++ (t ++ u).
Proof.
  induction s as [|a s IH]; cbn; [reflexivity|]. now rewrite IH.
Qed.

Lemma substring_skip (pre u : string) (m : nat) :
  substring (String.length pre) m (pre ++ u) = substring 0 m u.
Proof.
  induction pre as [|a pre IH]; cbn; [reflexivity|]. exact IH.
Qed.

Lemma substring_take (mid post : string) :
  substring 0 (String.length mid) (mid ++ post) = mid.
Proof.
  induction mid as [|a mid IH]; cbn.
  - now destruct post.
  - now rewrite IH.
Qed.

Lemma str_find_range (c : ascii) (s : string) :
  -1 <= str_find c s < Z.of_nat (String.length s).
Proof.
  induction s as [|a s IH]; cbn [str_find String.length]; [lia|].
  destruct (Ascii.eqb a c); [lia|].
  destruct (str_find c s <? 0) eqn:E; [lia|]. apply Z.ltb_ge in E. lia.
Qed.

Lemma str_rfind_range (c : ascii) (s : string) :
  -1 <= str_rfind c s < Z.of_nat (String.length s).
Proof.
  induction s as [|a s IH]; cbn [str_rfind String.length]; [lia|].
  destruct (0 <=? str_rfind c s) eqn:E; [apply Z.leb_le in E; lia|].
  destruct (Ascii.eqb a c); lia.
Qed.

(** [c] does not occur in [s]: both searches fail together. *)
Lemma str_find_none_rfind_none (c : ascii) (s : string) :
  str_find c s = -1 <-> str_rfind c s = -1.
Proof.
  induction s as [|a s IH]; cbn [str_find str_rfind]; [tauto|].
  pose proof (str_find_range c s) as Hf. pose proof (str_rfind_range c s) as Hr.
  destruct (Ascii.eqb a c).
  - split; [discriminate|].
    destruct (0 <=? str_rfind c s) eqn:E; [apply Z.leb_le in E; lia|discriminate].
  - destruct (str_find c s <? 0) eqn:E1, (0 <=? str_rfind c s) eqn:E2;
      try apply Z.ltb_lt in E1; try apply Z.ltb_ge in E1;
      try apply Z.leb_le in E2; try apply Z.leb_gt in E2;
      split; intros H; lia.
Qed.

Lemma str_find_app (c : ascii) (pre rest : string) :
  str_find c pre = -1 ->
  str_find c (pre ++ String c rest) = Z.of_nat (String.length pre).
Proof.
  induction pre as [|a pre IH]; cbn [str_find append String.length]; intros H.
  - now rewrite Ascii.eqb_refl.
  - pose proof (str_find_range c pre) as Hr.
    destruct (Ascii.eqb a c); [discriminate|].
    destruct (str_find c pre <? 0) eqn:E;
      [apply Z.ltb_lt in E|apply Z.ltb_ge in E; lia].
    rewrite IH by lia.
    destruct (Z.of_nat (String.length pre) <? 0) eqn:E'; lia.
Qed.

Lemma str_rfind_app (c : ascii) (s post : string) :
  str_rfind c post = -1 ->
  str_rfind c (s ++ String c post) = Z.of_nat (String.length s).
Proof.
  intros H. induction s as [|a s IH]; cbn [str_rfind append String.length].
  - rewrite H. cbn. now rewrite Ascii.eqb_refl.
  - rewrite IH.
    destruct (0 <=? Z.of_nat (String.length s)) eqn:E;
      [lia|apply Z.leb_gt in E; lia].
Qed.

Lemma str_find_decompose (c : ascii) (t : string) :
  0 <= str_find c t ->
  exists pre rest,
    t = pre ++ String c rest /\ str_find c pre = -1
    /\ str_find c t = Z.of_nat (String.length pre).
Proof.
  induction t as [|a t IH]; cbn [str_find]; [lia|].
  destruct (Ascii.eqb a c) eqn:Ea.
  - intros _. apply Ascii.eqb_eq in Ea. subst a.
    exists EmptyString, t. repeat split.
  - destruct (str_find c t <? 0) eqn:E; [lia|]. apply Z.ltb_ge in E.
    intros _. destruct (IH E) as (pre & rest & -> & Hpre & Hlen).
    exists (String a pre), rest. split; [reflexivity|]. split.
    + cbn [str_find]. rewrite Ea, Hpre. reflexivity.
    + rewrite Hlen. cbn [String.length]. lia.
Qed.

Lemma str_rfind_decompose (c : ascii) (t : string) :
  0 <= str_rfind c t ->
  exists s post,
    t = s ++ String c post /\ str_rfind c post = -1
    /\ str_rfind c t = Z.of_nat (String.length s).
Proof.
  induction t as [|a t IH]; cbn [str_rfind]; [lia|].
  destruct (0 <=? str_rfind c t) eqn:E.
  - apply Z.leb_le in E. intros _.
    destruct (IH E) as (s & post & -> & Hpost & Hlen).
    exists (String a s), post. split; [reflexivity|]. split; [exact Hpost|].
    rewrite Hlen. cbn [String.length]. lia.
  - apply Z.leb_gt in E. destruct (Ascii.eqb a c) eqn:Ea; [|lia].
    intros _. apply Ascii.eqb_eq in Ea. subst a.
    exists EmptyString, t. split; [reflexivity|]. split; [|reflexivity].
    pose proof (str_rfind_range c t). lia.
Qed.

Lemma str_rfind_append (c : ascii) (pre u : string) :
  str_rfind c (pre ++ u)
  = if 0 <=? str_rfind c u
    then Z.of_nat (String.length pre) + str_rfind c u
    else str_rfind c pre.
Proof.
  induction pre as [|a pre IH]; cbn [str_rfind append String.length].
  - destruct (0 <=? str_rfind c u) eqn:E; [lia|].
    apply Z.leb_gt in E. pose proof (str_rfind_range c u). lia.
  - rewrite IH. pose proof (str_rfind_range c pre) as Hr.
    destruct (0 <=? str_rfind c u) eqn:E.
    + apply Z.leb_le in E.
      destruct (0 <=? Z.of_nat (String.length pre) + str_rfind c u) eqn:E';
        [lia|apply Z.leb_gt in E'; lia].
    + reflexivity.
Qed.

(** The slice that starts at the end of [pre] and has the length of [mid]. *)
Lemma str_slice_middle (pre mid post : string) :
  mid <> EmptyString ->
  str_slice (pre ++ mid ++ post)
            (Z.of_nat (String.length pre))
            (Z.of_nat (String.length pre) + Z.of_nat (String.length mid))
  = mid.
Proof.
  intros Hmid. unfold str_slice, slice_index.
  rewrite !string_length_append.
  assert (Hlen : (0 < String.length mid)%nat) by (destruct mid; [congruence|cbn; lia]).
  destruct (Z.of_nat (String.length pre) <? 0) eqn:E1;
    [apply Z.ltb_lt in E1; lia|].
  destruct (Z.of_nat (String.length pre) + Z.of_nat (String.length mid) <? 0) eqn:E2;
    [apply Z.ltb_lt in E2; lia|].
  rewrite (Z.min_l (Z.of_nat (String.length pre))) by lia.
  rewrite (Z.min_l (Z.of_nat (String.length pre) + Z.of_nat (String.length mid)))
    by lia.
  clear E1 E2.
  destruct (Z.of_nat (String.length pre)
            <? Z.of_nat (String.length pre) + Z.of_nat (String.length mid)) eqn:E3;
    [|apply Z.ltb_ge in E3; lia].
  replace (Z.to_nat (Z.of_nat (String.length pre) + Z.of_nat (String.length mid)
                     - Z.of_nat (String.length pre)))
    with (String.length mid) by lia.
  rewrite Nat2Z.id, substring_skip. apply substring_take.
Qed.

Lemma json_str_embedded (pre body post : string) :
  str_find "{" pre = -1 -> str_rfind "}" post = -1 ->
  json_str (pre ++ String "{" (body ++ String "}" post))
  = String "{" (body ++ "}").
Proof.
  intros Hpre Hpost. unfold json_str.
  rewrite (str_find_app "{" pre _ Hpre).
  replace (pre ++ String "{" (body ++ String "}" post))
    with ((pre ++ String "{" body) ++ String "}" post)
    by (rewrite string_append_assoc; reflexivity).
  rewrite (str_rfind_app "}" _ post Hpost).
  replace ((pre ++ String "{" body) ++ String "}" post)
    with (pre ++ String "{" (body ++ "}") ++ post).
  2:{ rewrite string_append_assoc. cbn [append]. f_equal. f_equal.
      rewrite string_append_assoc. reflexivity. }
  replace (Z.of_nat (String.length (pre ++ String "{" body)) + 1)
    with (Z.of_nat (String.length pre)
          + Z.of_nat (String.length (String "{" (body ++ "}")))).
  2:{ rewrite string_length_append. cbn [String.length].
      rewrite string_length_append. cbn [String.length]. lia. }
  apply str_slice_middle. discriminate.
Qed.

(** X21.  A JSON object wrapped in other text is found: if the text before it
    holds no opening brace and the text after it no closing brace, the slice
    handed to the JSON parser is exactly the object, from its opening to its
    closing brace. *)
Theorem json_str_ignores_surrounding_text (pre body post : string) :
  str_find "{" pre = -1 -> str_find "}" post = -1 ->
  json_str (pre ++ "{" ++ body ++ "}" ++ post) = "{" ++ body ++ "}".
Proof.
  intros Hpre Hpost. apply str_find_none_rfind_none in Hpost.
  cbn [append]. now apply json_str_embedded.
Qed.

Lemma json_str_ignores_surrounding_text_witness :
  json_str ("Here is my answer: " ++ "{" ++ "1" ++ "}" ++ " Thanks.")
  = "{" ++ "1" ++ "}".
Proof.
  apply (json_str_ignores_surrounding_text
           "Here is my answer: " "1" " Thanks."); reflexivity.
Defined.

Lemma str_slice_empty (t : string) (a b : Z) :
  0 <= b <= a -> str_slice t a b = EmptyString.
Proof.
  intros H. unfold str_slice, slice_index.
  destruct (a <? 0) eqn:Ea; [apply Z.ltb_lt in Ea; lia|].
  destruct (b <? 0) eqn:Eb; [apply Z.ltb_lt in Eb; lia|].
  destruct (Z.min a _ <? Z.min b _) eqn:E; [|reflexivity].
  apply Z.ltb_lt in E. lia.
Qed.

Lemma str_slice_from_last (t : string) (b : Z) :
  0 <= b < Z.of_nat (String.length t) -> str_slice t (-1) b = EmptyString.
Proof.
  intros H. unfold str_slice, slice_index. cbn [Z.ltb Z.compare].
  destruct (b <? 0) eqn:Eb; [apply Z.ltb_lt in Eb; lia|].
  destruct (Z.max _ 0 <? Z.min b _) eqn:E; [|reflexivity].
  apply Z.ltb_lt in E. lia.
Qed.

Lemma str_slice_last_char (s : string) (c : ascii) :
  str_slice (s ++ String c EmptyString) (-1)
            (Z.of_nat (String.length s) + 1)
  = String c EmptyString.
Proof.
  unfold str_slice, slice_index. cbn [Z.ltb Z.compare].
  rewrite string_length_append. cbn [String.length].
  destruct (Z.of_nat (String.length s) + 1 <? 0) eqn:Eb;
    [apply Z.ltb_lt in Eb; lia|].
  replace (Z.max (-1 + Z.of_nat (String.length s + 1)) 0)
    with (Z.of_nat (String.length s)) by lia.
  replace (Z.min (Z.of_nat (String.length s) + 1)
                 (Z.of_nat (String.length s + 1)))
    with (Z.of_nat (String.length s) + 1) by lia.
  destruct (Z.of_nat (String.length s) <? Z.of_nat (String.length s) + 1) eqn:E;
    [|apply Z.ltb_ge in E; lia].
  replace (Z.to_nat (Z.of_nat (String.length s) + 1 - Z.of_nat (String.length s)))
    with 1%nat by lia.
  rewrite Nat2Z.id, substring_skip. reflexivity.
Qed.

(** X22.  Whatever the response, the slice handed to the JSON parser is
    empty, or the single character [}], or a text that begins with an opening
    brace and ends with a closing brace; it is empty whenever the response
    holds no closing brace. *)
Theorem json_str_shape (response_text : string) :
  (str_rfind "}" response_text = -1 -> json_str response_text = EmptyString)
  /\ (json_str response_text = EmptyString
      \/ json_str response_text = "}"
      \/ exists body, json_str response_text = "{" ++ body ++ "}").
Proof.
  pose proof (str_find_range "{" response_text) as Hi.
  pose proof (str_rfind_range "}" response_text) as Hj.
  assert (Hnone : str_rfind "}" response_text = -1 ->
                  json_str response_text = EmptyString).
  { intros E. unfold json_str. rewrite E. change (-1 + 1) with 0.
    destruct (Z_lt_le_dec (str_find "{" response_text) 0) as [Hneg|Hpos].
    - replace (str_find "{" response_text) with (-1) by lia.
      destruct response_text as [|a t]; [reflexivity|].
      apply str_slice_from_last. cbn [String.length]. lia.
    - apply str_slice_empty. lia. }
  split; [exact Hnone|].
  destruct (Z_lt_le_dec (str_rfind "}" response_text) 0) as [Hj0|Hj0].
  { left. apply Hnone. lia. }
  destruct (Z_lt_le_dec (str_find "{" response_text) 0) as [Hi0|Hi0].
  - (* no opening brace *)
    assert (Ei : str_find "{" response_text = -1) by lia.
    destruct (str_rfind_decompose "}" response_text Hj0)
      as (s & post & Et & Hpost & Ej).
    unfold json_str. rewrite Ei, Ej.
    destruct post as [|a post].
    + right; left. rewrite Et. apply str_slice_last_char.
    + left. apply str_slice_from_last.
      rewrite Et, string_length_append. cbn [String.length]. lia.
  - (* an opening brace at [i] *)
    destruct (str_find_decompose "{" response_text Hi0)
      as (pre & rest & Et & Hpre & Ei).
    pose proof (str_rfind_range "}" pre) as Hrp.
    pose proof (str_rfind_range "}" rest) as Hrr.
    assert (Ej : str_rfind "}" response_text
                 = if 0 <=? str_rfind "}" rest
                   then Z.of_nat (String.length pre) + (str_rfind "}" rest + 1)
                   else str_rfind "}" pre).
    { rewrite Et at 1. rewrite str_rfind_append. cbn [str_rfind].
      destruct (0 <=? str_rfind "}" rest) eqn:E.
      - apply Z.leb_le in E.
        destruct (0 <=? str_rfind "}" rest + 1) eqn:E'; [reflexivity|].
        apply Z.leb_gt in E'. lia.
      - reflexivity. }
    destruct (0 <=? str_rfind "}" rest) eqn:E.
    + apply Z.leb_le in E. right; right.
      destruct (str_rfind_decompose "}" rest E) as (body & post & Er & Hpost & _).
      exists body. rewrite Et, Er. cbn [append].
      now apply json_str_embedded.
    + left. unfold json_str. rewrite Ei, Ej. apply str_slice_empty. lia.
Qed.

Lemma json_str_shape_witness :
  json_str "I cannot classify this company." = EmptyString.
Proof.
  apply (json_str_shape "I cannot classify this company."). reflexivity.
Defined.

End JsonStr.

(** ** The backtest: index returns *)

Lemma weights_get_fold_absent (rows : list (string * fl)) (col : string) (acc : fl) :
  ~ In col (map fst rows) ->
  fold_left (fun acc row => if String.eqb (fst row) col then snd row else acc)
            rows acc = acc.
Proof.
  revert acc; induction rows as [|[k v] rows IH]; intros acc H; cbn;
    [reflexivity|].
  cbn in H. destruct (String.eqb_spec k col) as [->|Hk].
  - exfalso; apply H; now left.
  - apply IH. intros Hin; apply H; now right.
Qed.

Lemma weights_get_fold_present
      (rows : list (string * fl)) (col : string) (v acc : fl) :
  NoDup (map fst rows) -> In (col, v) rows ->
  fold_left (fun acc row => if String.eqb (fst row) col then snd row else acc)
            rows acc = v.
Proof.
  revert acc; induction rows as [|[k w] rows IH]; intros acc Hnd Hin;
    [destruct Hin|].
  cbn in Hnd. inversion Hnd as [|? ? Hk Hnd']; subst. cbn.
  destruct Hin as [E|Hin].
  - injection E as -> ->. rewrite String.eqb_refl.
    now apply weights_get_fold_absent.
  - apply IH; assumption.
Qed.

(** With distinct tickers, the weight array over the composition's own
    tickers is its weight column. *)
Lemma weight_array_own_columns (rows : list (string * fl)) :
  NoDup (map fst rows) -> weight_array rows (map fst rows) = map snd rows.
Proof.
  intros Hnd. unfold weight_array. rewrite map_map. apply map_ext_in.
  intros [k v] Hin. cbn. unfold weights_get.
  now apply weights_get_fold_present.
Qed.

Lemma pct_change_row_range (previous current : list R) (lo hi : R) :
  Forall2 (fun p c => p <> 0 /\ lo <= c / p - 1 <= hi) previous current ->
  exists rs,
    pct_change_row previous current = map Fin rs
    /\ length rs = length previous
    /\ Forall (fun r => lo <= r <= hi) rs.
Proof.
  unfold pct_change_row.
  induction 1 as [|p c ps cs [Hp Hr] _ (rs & E & Hlen & Hrs)].
  - exists []. cbn. repeat split; constructor.
  - exists (c / p - 1 :: rs). cbn [map Series.zip_with length].
    rewrite E, Hlen. split; [|split; [reflexivity|now constructor]].
    f_equal. cbn. apply Reqb_false in Hp. rewrite Hp. cbn.
    f_equal; lra.
Qed.

Lemma weighted_returns_bounds (rs ws : list R) (lo hi : R) :
  length rs = length ws ->
  Forall (fun r => lo <= r <= hi) rs ->
  Forall (fun w => 0 <= w) ws ->
  exists ps,
    Series.zip_with fmul (map Fin rs) (map Fin ws) = map Fin ps
    /\ lo * Rsum ws <= Rsum ps <= hi * Rsum ws.
Proof.
  revert ws; induction rs as [|r rs IH]; intros [|w ws] Hlen Hrs Hws;
    try discriminate.
  - exists []. unfold Rsum; cbn. split; [reflexivity|lra].
  - inversion Hrs as [|? ? Hr Hrs']; subst.
    inversion Hws as [|? ? Hw Hws']; subst.
    destruct (IH ws) as (ps & E & Hb); auto.
    exists (r * w :: ps). cbn [map Series.zip_with]. rewrite E.
    split; [reflexivity|]. unfold Rsum in *; cbn. nra.
Qed.

Lemma built_from_tickers (df : DataFrame) (cs : list IndexConstituent) :
  Forall2 built_from df cs -> map ticker cs = map row_ticker df.
Proof.
  induction 1 as [|row c df cs Hbf _ IH]; cbn; [reflexivity|].
  destruct Hbf as [-> _]. now rewrite IH.
Qed.

Lemma calculate_weights_tickers (self : SpaceIndexWeighting) (df : DataFrame) :
  Permutation (map row_ticker df) (map ticker (calculate_weights self df)).
Proof.
  rewrite <- (built_from_tickers df _ (build_constituents_rows self df)).
  apply Permutation_map, calculate_weights_perm.
Qed.

(** X23.  The backtest's daily index return is a weighted average of the
    constituents' returns.  Take the composition computed by
    [calculate_weights] under the conditions of the sum-to-one result, for
    candidates with distinct tickers, and a price table with one column per
    constituent and non-zero prices on the previous day: if every
    constituent's return of the day lies within [lo, hi], the index return
    of that day is a number within [lo, hi] up to rounding, that is, it
    leaves the interval by at most 1e-6 plus a millionth of the larger bound
    in magnitude. *)
Theorem index_return_within_constituent_returns
        (self : SpaceIndexWeighting) (df : DataFrame)
        (previous current : list R) (lo hi : R) :
  Series.sum (raw_scores self df) <> Fin 0 ->
  0 <= min_weight self -> 0 <= max_weight self ->
  Rmax (min_weight self) (max_weight self) <> 0 ->
  NoDup (map row_ticker df) ->
  length previous = length df ->
  Forall2 (fun p c => p <> 0 /\ lo <= c / p - 1 <= hi) previous current ->
  let constituents := calculate_weights self df in
  let df_index := map (fun c => (ticker c, weight c)) constituents in
  let columns := map ticker constituents in
  exists v,
    index_return (pct_change_row previous current)
                 (weight_array df_index columns) = Fin v
    /\ lo - (1 / 1000000 + slack lo hi) <= v
       <= hi + (1 / 1000000 + slack lo hi).
Proof.
  intros HS Hmin Hmax Hm Hnd Hlen Hret constituents df_index columns.
  destruct (calculate_weights_reals self df HS Hmin Hmax Hm)
    as (ws & Hws & Hsum).
  pose proof (calculate_weights_rows_nonneg self df HS Hmin Hmax Hm) as Hrows.
  fold constituents in Hws, Hrows.
  assert (Hfst : map fst df_index = columns).
  { unfold df_index, columns. rewrite map_map. reflexivity. }
  assert (Hsnd : map snd df_index = map Fin ws).
  { unfold df_index. rewrite map_map. exact Hws. }
  assert (Hcols : NoDup columns).
  { unfold columns, constituents.
    eapply Permutation_NoDup; [apply calculate_weights_tickers|exact Hnd]. }
  assert (Hwa : weight_array df_index columns = map Fin ws).
  { rewrite <- Hfst, weight_array_own_columns by now rewrite Hfst.
    exact Hsnd. }
  assert (Hnn : Forall (fun w => 0 <= w) ws).
  { apply Forall_forall. intros w Hw.
    apply (in_map Fin) in Hw. rewrite <- Hws in Hw.
    apply in_map_iff in Hw as (c & Hc & Hin).
    destruct (Hrows c Hin) as [_ (w' & Hw' & Hw0)].
    assert (w' = w) by congruence. now subst. }
  assert (Hlws : length ws = length df).
  { rewrite <- (length_map Fin ws), <- Hws, length_map.
    apply calculate_weights_length. }
  destruct (pct_change_row_range previous current lo hi Hret)
    as (rs & Hrs & Hlrs & Hb).
  destruct (weighted_returns_bounds rs ws lo hi) as (ps & Hps & Hbound);
    [congruence|exact Hb|exact Hnn|].
  exists (Rsum ps). unfold index_return.
  rewrite Hrs, Hwa, Hps, series_sum_Fin. split; [reflexivity|].
  rewrite Hsum in Hbound. pose proof (slack_nonneg lo hi). lra.
Qed.

Lemma index_return_within_constituent_returns_witness :
  exists v,
    index_return
      (pct_change_row [10; 20] [11; 21])
      (weight_array
         (map (fun c => (ticker c, weight c))
              (calculate_weights default_config [ASTS; PEER]))
         (map ticker (calculate_weights default_config [ASTS; PEER]))) = Fin v
    /\ 5 / 100 - (1 / 1000000 + slack (5 / 100) (10 / 100)) <= v
       <= 10 / 100 + (1 / 1000000 + slack (5 / 100) (10 / 100)).
Proof.
  apply (index_return_within_constituent_returns
           default_config [ASTS; PEER] [10; 20] [11; 21] (5 / 100) (10 / 100)).
  - rewrite series_sum_raw_scores, sample_scores.
    intros H. injection H. unfold Rsum. cbn. lra.
  - apply Rlt_le, default_bounds.
  - apply Rlt_le, default_bounds.
  - cbn. unfold default_min_position_size, default_max_position_size.
    rewrite Rmax_right; lra.
  - cbn. constructor; [|constructor; [|constructor]].
    + intros [H|[]]. discriminate H.
    + intros [].
  - reflexivity.
  - constructor; [split; lra|]. constructor; [split; lra|]. constructor.
Defined.

(** ** The backtest: drawdown *)

(** Along a series of growth factors that are positive or missing, each
    drawdown is missing exactly where the factor is, and otherwise a number
    in (-1, 0]. *)
Lemma drawdown_from_range (s : Series.series) (p : R) (macc : fl) :
  0 < p ->
  (macc = NaN \/ exists m, macc = Fin m) ->
  Forall (fun a => a = NaN \/ exists x, a = Fin x /\ 0 < x) s ->
  Forall2 (fun a d => (a = NaN /\ d = NaN)
                      \/ (a <> NaN /\ exists y, d = Fin y /\ -1 < y <= 0))
          s
          (Series.zip_with (fun c m => fdiv (fsub c m) m)
             (cumprod_from (Fin p) s)
             (expanding_max_from macc (cumprod_from (Fin p) s))).
Proof.
  intros Hp Hm Hs. revert p macc Hp Hm.
  induction Hs as [|a s Ha _ IH]; intros p macc Hp Hm; [constructor|].
  destruct Ha as [->|(x & -> & Hx)].
  - cbn. constructor; [left; split; reflexivity|]. now apply IH.
  - assert (Hc : 0 < p * x) by now apply Rmult_lt_0_compat.
    assert (Hrange : forall m, p * x <= m ->
               fdiv (fsub (Fin (p * x)) (Fin m)) (Fin m)
               = Fin ((p * x + - m) / m)
               /\ -1 < (p * x + - m) / m <= 0).
    { intros m Hle. cbn.
      assert (E : Reqb m 0 = false) by (apply Reqb_false; lra).
      rewrite E. split; [reflexivity|].
      assert (Hi : 0 < / m) by (apply Rinv_0_lt_compat; lra).
      assert (Hmi : m * / m = 1) by (field; lra).
      unfold Rdiv. nra. }
    cbn [cumprod_from isna fmul expanding_max_from Series.zip_with].
    destruct Hm as [->|(m & ->)]; cbn [isna fltb].
    + destruct (Hrange (p * x)) as [E Hr]; [lra|].
      constructor.
      * right. split; [discriminate|]. eexists. split; [exact E|exact Hr].
      * apply IH; [exact Hc|right; eexists; reflexivity].
    + destruct (Rltb m (p * x)) eqn:Elt.
      * destruct (Hrange (p * x)) as [E Hr]; [lra|].
        constructor.
        -- right. split; [discriminate|]. eexists. split; [exact E|exact Hr].
        -- apply IH; [exact Hc|right; eexists; reflexivity].
      * apply Rltb_false in Elt.
        destruct (Hrange m Elt) as [E Hr].
        constructor.
        -- right. split; [discriminate|]. eexists. split; [exact E|exact Hr].
        -- apply IH; [exact Hc|right; eexists; reflexivity].
Qed.

Lemma dropna_numbers (P : R -> Prop) (l : Series.series) :
  Forall (fun d => d = NaN \/ exists y, d = Fin y /\ P y) l ->
  exists ys, Series.dropna l = map Fin ys /\ Forall P ys
             /\ (Exists (fun d => d <> NaN) l -> ys <> []).
Proof.
  induction 1 as [|d l Hd _ (ys & E & Hys & Hne)].
  - exists []. repeat split; [constructor|]. intros H; inversion H.
  - destruct Hd as [->|(y & -> & Hy)].
    + exists ys. unfold Series.dropna in *. cbn. split; [exact E|].
      split; [exact Hys|]. intros H. inversion H as [? ? H0|? ? H0]; subst.
      * congruence.
      * now apply Hne.
    + exists (y :: ys). unfold Series.dropna in *. cbn. rewrite E.
      split; [reflexivity|]. split; [now constructor|discriminate].
Qed.

Lemma series_min_range (P : R -> Prop) (l : Series.series) :
  Forall (fun d => d = NaN \/ exists y, d = Fin y /\ P y) l ->
  (Series.min l = NaN \/ exists y, Series.min l = Fin y /\ P y)
  /\ (Exists (fun d => d <> NaN) l -> exists y, Series.min l = Fin y /\ P y).
Proof.
  intros H. destruct (dropna_numbers P l H) as (ys & E & Hys & Hne).
  unfold Series.min. rewrite E.
  destruct ys as [|y ys]; cbn [map].
  - split; [now left|]. intros Hex. now destruct (Hne Hex).
  - rewrite fold_min_Fin.
    assert (Hin : P (fold_left Rmin ys y)).
    { rewrite Forall_forall in Hys. apply Hys, fold_Rmin_In. }
    split; [right|intros _]; eexists; split; try reflexivity; exact Hin.
Qed.

Lemma drawdown_numbers (P : R -> Prop) (s dd : Series.series) :
  Forall2 (fun a d => (a = NaN /\ d = NaN)
                      \/ (a <> NaN /\ exists y, d = Fin y /\ P y))
          s dd ->
  Forall (fun d => d = NaN \/ exists y, d = Fin y /\ P y) dd
  /\ (Exists (fun a => a <> NaN) s -> Exists (fun d => d <> NaN) dd).
Proof.
  induction 1 as [|a d s dd Had _ [IH1 IH2]].
  - split; [constructor|]. intros H; inversion H.
  - split.
    + constructor; [|exact IH1].
      destruct Had as [[_ ->]|[_ (y & -> & Hy)]]; [now left|].
      right. now exists y.
    + intros H. inversion H as [? ? H0|? ? H0]; subst.
      * destruct Had as [[-> _]|[_ (y & -> & _)]]; [congruence|].
        left. discriminate.
      * right. now apply IH2.
Qed.

Lemma growth_factors (returns : Series.series) :
  Forall plausible_return returns ->
  Forall (fun a => a = NaN \/ exists x, a = Fin x /\ 0 < x)
         (map (fadd (Fin 1)) returns)
  /\ (Exists (fun a => a <> NaN) returns ->
      Exists (fun a => a <> NaN) (map (fadd (Fin 1)) returns)).
Proof.
  induction 1 as [|a returns Ha _ [IH1 IH2]]; cbn [map].
  - split; [constructor|]. intros H; inversion H.
  - split.
    + constructor; [|exact IH1].
      destruct Ha as [->|(r & -> & Hr)]; [now left|].
      right. exists (1 + r). split; [reflexivity|lra].
    + intros H. inversion H as [? ? H0|? ? H0]; subst.
      * destruct Ha as [->|(r & -> & _)]; [congruence|].
        left. discriminate.
      * right. now apply IH2.
Qed.

(** In the model's exact arithmetic, the drawdown of plausible returns is
    missing or a number in (-1, 0], and a number as soon as one return is
    not missing. *)
Lemma max_drawdown_bounds (returns : Series.series) :
  Forall plausible_return returns ->
  (max_drawdown returns = NaN
   \/ exists d, max_drawdown returns = Fin d /\ -1 < d <= 0)
  /\ (Exists (fun a => a <> NaN) returns ->
      exists d, max_drawdown returns = Fin d /\ -1 < d <= 0).
Proof.
  intros H. destruct (growth_factors returns H) as [Hs Hex].
  pose proof (drawdown_from_range (map (fadd (Fin 1)) returns) 1 NaN
                Rlt_0_1 (or_introl eq_refl) Hs) as Hdd.
  apply (drawdown_numbers (fun y => -1 < y <= 0)) in Hdd as [Hnum Htrans].
  destruct (series_min_range (fun y => -1 < y <= 0) _ Hnum) as [H1 H2].
  unfold max_drawdown, cumprod, expanding_max. cbv zeta.
  split; [exact H1|]. intros He. apply H2, Htrans, Hex, He.
Qed.

(** X24.  [calculate_metrics] raises [ZeroDivisionError] on an empty series
    of returns.  On a non-empty series of daily returns that are each
    missing or above -100 %, it reports a maximum drawdown that is missing
    or a percentage between -100 and 0: the loss from a running peak is
    never a gain and never more than the whole value.  The drawdown is a
    number as soon as one return is not missing. *)
Theorem max_drawdown_range (returns : Series.series) :
  Forall plausible_return returns ->
  match calculate_metrics_max_drawdown returns with
  | Py.Raise e => returns = [] /\ e = Py.ZeroDivisionError
  | Py.Return v =>
      returns <> []
      /\ (v = NaN \/ exists d, v = Fin d /\ -100 <= d <= 0)
      /\ (Exists (fun a => a <> NaN) returns ->
          exists d, v = Fin d /\ -100 <= d <= 0)
  end.
Proof.
  intros H. destruct (max_drawdown_bounds returns H) as [H1 H2].
  destruct returns as [|a returns]; [split; reflexivity|].
  cbn [calculate_metrics_max_drawdown].
  split; [discriminate|]. split.
  - destruct H1 as [->|(d & -> & Hd)]; [now left|].
    right. exists (d * 100). split; [reflexivity|lra].
  - intros He. destruct (H2 He) as (d & -> & Hd).
    exists (d * 100). split; [reflexivity|lra].
Qed.

Lemma max_drawdown_range_witness :
  exists d,
    calculate_metrics_max_drawdown [Fin (1 / 10); Fin (- (1 / 5)); NaN]
    = Py.Return (Fin d)
    /\ -100 <= d <= 0.
Proof.
  assert (H : Forall plausible_return [Fin (1 / 10); Fin (- (1 / 5)); NaN]).
  { constructor; [right; eexists; split; [reflexivity|lra]|].
    constructor; [right; eexists; split; [reflexivity|lra]|].
    constructor; [now left|constructor]. }
  pose proof (max_drawdown_range _ H) as T.
  cbn [calculate_metrics_max_drawdown] in T.
  destruct T as (_ & _ & H2).
  destruct H2 as (d & E & Hd); [left; discriminate|].
  exists d. split; [|exact Hd].
  cbn [calculate_metrics_max_drawdown]. now rewrite E.
Defined.

(** Along growth factors that are missing or at least 1, the running peak is
    the current value, and every drawdown that is not missing is 0. *)
Lemma drawdown_no_loss (s : Series.series) (p : R) (macc : fl) :
  0 < p ->
  (macc = NaN \/ macc = Fin p) ->
  Forall (fun a => a = NaN \/ exists x, a = Fin x /\ 1 <= x) s ->
  Forall2 (fun a d => (a = NaN /\ d = NaN)
                      \/ (a <> NaN /\ exists y, d = Fin y /\ y = 0))
          s
          (Series.zip_with (fun c m => fdiv (fsub c m) m)
             (cumprod_from (Fin p) s)
             (expanding_max_from macc (cumprod_from (Fin p) s))).
Proof.
  intros Hp Hm Hs. revert p macc Hp Hm.
  induction Hs as [|a s Ha _ IH]; intros p macc Hp Hm; [constructor|].
  destruct Ha as [->|(x & -> & Hx)].
  - cbn. constructor; [left; split; reflexivity|]. now apply IH.
  - assert (Hc : 0 < p * x) by (apply Rmult_lt_0_compat; lra).
    assert (Hpeak : (if isna (fmul (Fin p) (Fin x)) then macc
                     else if isna macc then fmul (Fin p) (Fin x)
                     else if fltb macc (fmul (Fin p) (Fin x))
                          then fmul (Fin p) (Fin x) else macc)
                    = Fin (p * x)).
    { destruct Hm as [->| ->]; cbn; [reflexivity|].
      destruct (Rltb p (p * x)) eqn:Elt; [reflexivity|].
      apply Rltb_false in Elt. f_equal. nra. }
    cbn [cumprod_from isna fmul expanding_max_from Series.zip_with] in *.
    rewrite Hpeak.
    constructor.
    + right. split; [discriminate|]. exists ((p * x + - (p * x)) / (p * x)).
      split.
      * cbn. assert (E : Reqb (p * x) 0 = false) by (apply Reqb_false; lra).
        now rewrite E.
      * unfold Rdiv. rewrite Rplus_opp_r. apply Rmult_0_l.
    + apply IH; [exact Hc|now right].
Qed.

Lemma drawdown_first_day (k : nat) (x p : R) (s : Series.series) :
  0 < p -> 0 < x ->
  Forall (fun a => a = NaN \/ exists x, a = Fin x /\ 1 <= x) s ->
  Forall2 (fun a d => (a = NaN /\ d = NaN)
                      \/ (a <> NaN /\ exists y, d = Fin y /\ y = 0))
          (repeat NaN k ++ Fin x :: s)
          (Series.zip_with (fun c m => fdiv (fsub c m) m)
             (cumprod_from (Fin p) (repeat NaN k ++ Fin x :: s))
             (expanding_max_from NaN
                (cumprod_from (Fin p) (repeat NaN k ++ Fin x :: s)))).
Proof.
  intros Hp Hx Hs. induction k as [|k IH].
  - assert (Hc : 0 < p * x) by now apply Rmult_lt_0_compat.
    cbn. constructor.
    + right. split; [discriminate|]. exists ((p * x + - (p * x)) / (p * x)).
      split.
      * assert (E : Reqb (p * x) 0 = false) by (apply Reqb_false; lra).
        now rewrite E.
      * unfold Rdiv. rewrite Rplus_opp_r. apply Rmult_0_l.
    + apply drawdown_no_loss; [exact Hc|now right|exact Hs].
  - cbn. constructor; [left; split; reflexivity|]. exact IH.
Qed.

Lemma no_loss_factors (rest : Series.series) :
  Forall (fun a => a = NaN \/ exists r, a = Fin r /\ 0 <= r) rest ->
  Forall (fun a => a = NaN \/ exists x, a = Fin x /\ 1 <= x)
         (map (fadd (Fin 1)) rest).
Proof.
  induction 1 as [|a rest Ha _ IH]; cbn [map]; constructor; [|exact IH].
  destruct Ha as [->|(r & -> & Hr)]; [now left|].
  right. exists (1 + r). split; [reflexivity|lra].
Qed.

(** X25.  The drawdown is measured from the first return on.  After any
    number of missing days, let the first return be any value above -100 %,
    a loss included, and let every later return be missing or
    non-negative: the maximum drawdown is exactly 0. *)
Theorem max_drawdown_ignores_first_return
        (k : nat) (r : R) (rest : Series.series) :
  -1 < r ->
  Forall (fun a => a = NaN \/ exists r', a = Fin r' /\ 0 <= r') rest ->
  max_drawdown (repeat NaN k ++ Fin r :: rest) = Fin 0.
Proof.
  intros Hr Hrest.
  assert (Hx : 0 < 1 + r) by lra.
  pose proof (drawdown_first_day k (1 + r) 1 _ Rlt_0_1 Hx
                (no_loss_factors rest Hrest)) as Hdd.
  apply (drawdown_numbers (fun y => y = 0)) in Hdd as [Hnum Htrans].
  destruct (series_min_range (fun y => y = 0) _ Hnum) as [_ H2].
  unfold max_drawdown, cumprod, expanding_max. cbv zeta.
  rewrite map_app, map_repeat. cbn [map fadd].
  destruct H2 as (y & E & ->); [|exact E].
  apply Htrans, Exists_exists. exists (Fin (1 + r)).
  split; [|discriminate]. apply in_or_app. right. now left.
Qed.

Lemma max_drawdown_ignores_first_return_witness :
  max_drawdown (repeat NaN 1 ++ Fin (- (1 / 2)) :: [Fin (1 / 10); NaN])
  = Fin 0.
Proof.
  apply (max_drawdown_ignores_first_return 1 (- (1 / 2)) [Fin (1 / 10); NaN]).
  - lra.
  - constructor; [right; eexists; split; [reflexivity|lra]|].
    constructor; [now left|constructor].
Defined.

(** ** The backtest: drawdown and daily losses *)

(** Once a value has been seen, the running peak is at least the current
    value, and the drawdown of a day is at most that day's return. *)
Lemma drawdown_le_return (s : Series.series) (p m : R) :
  0 < p -> p <= m ->
  Forall (fun a => a = NaN \/ exists x, a = Fin x /\ 0 < x) s ->
  Forall2 (fun a d => (a = NaN /\ d = NaN)
                      \/ (exists x y, a = Fin x /\ d = Fin y
                                      /\ -1 < y <= 0 /\ y <= x - 1))
          s
          (Series.zip_with (fun c m => fdiv (fsub c m) m)
             (cumprod_from (Fin p) s)
             (expanding_max_from (Fin m) (cumprod_from (Fin p) s))).
Proof.
  intros Hp Hm Hs. revert p m Hp Hm.
  induction Hs as [|a s Ha _ IH]; intros p m Hp Hm; [constructor|].
  destruct Ha as [->|(x & -> & Hx)].
  - cbn. constructor; [left; split; reflexivity|]. now apply IH.
  - assert (Hc : 0 < p * x) by now apply Rmult_lt_0_compat.
    cbn [cumprod_from isna fmul expanding_max_from Series.zip_with fltb].
    destruct (Rltb m (p * x)) eqn:Elt.
    + apply Rltb_true in Elt. constructor.
      * right. exists x, ((p * x + - (p * x)) / (p * x)).
        split; [reflexivity|]. split.
        { cbn. assert (E : Reqb (p * x) 0 = false) by (apply Reqb_false; lra).
          now rewrite E. }
        assert (E0 : (p * x + - (p * x)) / (p * x) = 0).
        { unfold Rdiv. rewrite Rplus_opp_r. apply Rmult_0_l. }
        rewrite E0. split; [lra|]. nra.
      * apply IH; [exact Hc|lra].
    + apply Rltb_false in Elt. constructor.
      * right. exists x, ((p * x + - m) / m).
        split; [reflexivity|]. split.
        { cbn. assert (E : Reqb m 0 = false) by (apply Reqb_false; lra).
          now rewrite E. }
        assert (Hi : 0 < / m) by (apply Rinv_0_lt_compat; lra).
        assert (Hmi : m * / m = 1) by (field; lra).
        assert (Hpm : p * / m <= 1).
        { rewrite <- Hmi. apply Rmult_le_compat_r; lra. }
        unfold Rdiv. split; [nra|]. nra.
      * apply IH; [exact Hc|exact Elt].
Qed.

Lemma series_min_le (l : Series.series) (y : R) :
  Forall (fun d => d = NaN \/ exists z, d = Fin z) l ->
  In (Fin y) l ->
  exists v, Series.min l = Fin v /\ v <= y.
Proof.
  intros Hl Hy.
  assert (H : exists ys, Series.dropna l = map Fin ys /\ In y ys).
  { induction Hl as [|d l Hd Hl IH]; [destruct Hy|].
    unfold Series.dropna in *. destruct Hy as [->|Hy].
    - cbn. destruct Hd as [Hd|(z & Hd)]; [discriminate|].
      clear IH.
      assert (Hex : exists ys, filter (fun a => negb (isna a)) l = map Fin ys).
      { clear -Hl. induction Hl as [|d l Hd _ (ys & E)]; [now exists []|].
        destruct Hd as [->|(z & ->)]; cbn; [now exists ys|].
        exists (z :: ys). cbn. now rewrite E. }
      destruct Hex as (ys & E). exists (y :: ys). cbn. rewrite E.
      split; [reflexivity|now left].
    - destruct (IH Hy) as (ys & E & Hin).
      destruct Hd as [->|(z & ->)]; cbn.
      + exists ys. split; [exact E|exact Hin].
      + exists (z :: ys). cbn. rewrite E. split; [reflexivity|now right]. }
  destruct H as (ys & E & Hin).
  unfold Series.min. rewrite E.
  destruct ys as [|y0 ys]; [destruct Hin|]. cbn [map].
  rewrite fold_min_Fin. eexists. split; [reflexivity|].
  destruct (fold_Rmin_le ys y0) as [H0 Hall].
  destruct Hin as [<-|Hin]; [exact H0|now apply Hall].
Qed.

Lemma drawdown_after_first (k : nat) (x0 p : R) (s : Series.series) :
  0 < p -> 0 < x0 ->
  Forall (fun a => a = NaN \/ exists x, a = Fin x /\ 0 < x) s ->
  exists dd_pre dd_s,
    Series.zip_with (fun c m => fdiv (fsub c m) m)
      (cumprod_from (Fin p) (repeat NaN k ++ Fin x0 :: s))
      (expanding_max_from NaN
         (cumprod_from (Fin p) (repeat NaN k ++ Fin x0 :: s)))
    = dd_pre ++ dd_s
    /\ Forall (fun d => d = NaN \/ exists z, d = Fin z) dd_pre
    /\ Forall2 (fun a d => (a = NaN /\ d = NaN)
                           \/ (exists x y, a = Fin x /\ d = Fin y
                                           /\ -1 < y <= 0 /\ y <= x - 1))
               s dd_s.
Proof.
  intros Hp Hx Hs. induction k as [|k (dd_pre & dd_s & E & Hpre & Hdd)].
  - assert (Hc : 0 < p * x0) by now apply Rmult_lt_0_compat.
    eexists [_], _.
    cbn [app repeat cumprod_from isna fmul expanding_max_from Series.zip_with].
    split; [reflexivity|]. split.
    + constructor; [|constructor]. right. cbn.
      assert (E : Reqb (p * x0) 0 = false) by (apply Reqb_false; lra).
      rewrite E. eexists. reflexivity.
    + apply drawdown_le_return; [exact Hc|lra|exact Hs].
  - exists (NaN :: dd_pre), dd_s.
    cbn [app repeat cumprod_from isna expanding_max_from Series.zip_with].
    cbn [fsub fadd fdiv]. rewrite E. split; [reflexivity|].
    split; [|exact Hdd]. constructor; [now left|exact Hpre].
Qed.

Lemma calculate_metrics_nonempty (returns : Series.series) :
  returns <> [] ->
  calculate_metrics_max_drawdown returns
  = Py.Return (fmul (max_drawdown returns) (Fin 100)).
Proof.
  destruct returns; [congruence|reflexivity].
Qed.

(** X26.  The maximum drawdown is at least as deep as any daily loss after
    the first return.  After any number of missing days and a first return,
    let every return be missing or above -100 %: for each later return [r],
    the reported maximum drawdown is a percentage of at most [100 * r], up
    to 1e-6 left for rounding. *)
Theorem max_drawdown_at_least_daily_loss
        (k : nat) (r0 r : R) (mid post : Series.series) :
  -1 < r0 -> -1 < r ->
  Forall plausible_return mid -> Forall plausible_return post ->
  exists d,
    calculate_metrics_max_drawdown
      (repeat NaN k ++ Fin r0 :: mid ++ Fin r :: post) = Py.Return (Fin d)
    /\ d <= 100 * r + 1 / 1000000.
Proof.
  intros Hr0 Hr Hmid Hpost.
  rewrite calculate_metrics_nonempty
    by (destruct k; discriminate).
  unfold max_drawdown, cumprod, expanding_max. cbv zeta.
  rewrite map_app, map_repeat. cbn [map fadd]. rewrite map_app. cbn [map fadd].
  set (s := map (fadd (Fin 1)) mid ++ Fin (1 + r) :: map (fadd (Fin 1)) post).
  assert (Hs : Forall (fun a => a = NaN \/ exists x, a = Fin x /\ 0 < x) s).
  { unfold s. apply Forall_app. split; [now apply growth_factors|].
    constructor; [|now apply growth_factors].
    right. exists (1 + r). split; [reflexivity|lra]. }
  destruct (drawdown_after_first k (1 + r0) 1 s Rlt_0_1 ltac:(lra) Hs)
    as (dd_pre & dd_s & E & Hpre & Hdd).
  rewrite E.
  assert (Hnum : Forall (fun d => d = NaN \/ exists z, d = Fin z)
                        (dd_pre ++ dd_s)).
  { apply Forall_app. split; [exact Hpre|].
    clear -Hdd. induction Hdd as [|a d s dd H _ IH]; constructor; [|exact IH].
    destruct H as [[_ ->]|(x & y & _ & -> & _)]; [now left|right; eauto]. }
  unfold s in Hdd. apply Forall2_app_inv_l in Hdd as (d1 & d2 & _ & Hd2 & ->).
  inversion Hd2 as [|? d ? d2' Hd _]; subst.
  destruct Hd as [[Hn _]|(x & y & Hx & -> & _ & Hy)]; [discriminate|].
  injection Hx as <-.
  destruct (series_min_le (dd_pre ++ d1 ++ Fin y :: d2') y Hnum)
    as (v & Ev & Hv).
  { apply in_or_app. right. apply in_or_app. right. now left. }
  rewrite Ev. exists (v * 100). split; [reflexivity|lra].
Qed.

Lemma max_drawdown_at_least_daily_loss_witness :
  exists d,
    calculate_metrics_max_drawdown
      (repeat NaN 1 ++ Fin (1 / 10) :: [NaN] ++ Fin (- (1 / 5)) :: [Fin (1 / 20)])
    = Py.Return (Fin d)
    /\ d <= 100 * - (1 / 5) + 1 / 1000000.
Proof.
  apply (max_drawdown_at_least_daily_loss
           1 (1 / 10) (- (1 / 5)) [NaN] [Fin (1 / 20)]).
  - lra.
  - lra.
  - constructor; [now left|constructor].
  - constructor; [right; eexists; split; [reflexivity|lra]|constructor].
Defined.
